(** * PyNext front end: lexer, parser, semantic analysis and IR generation

    A shallow embedding of the compiler pipeline
    (src/lexer, src/parser, src/sema, src/codegen) together with the
    properties stated about it.

    Conventions.
    - [std::string_view] slices of the source buffer are [list ascii];
      owned [std::string] values are [string].
    - [std::map<std::string, V>] is [gmap string V].
    - [std::shared_ptr<Type>] is [option Ty]: [None] is the null pointer.
    - [exit(1)], an uncaught exception and a null dereference end the run;
      the functions that can reach one return a result type saying so. *)

From Stdlib Require Import ZArith NArith List Ascii String Bool Lia.
From stdpp Require Import base option list strings gmap pretty.
Import ListNotations.

Local Open Scope Z_scope.
Set Warnings "-register-all".

(* ===================================================================== *)
(** * Lexer (src/lexer/Token.h, src/lexer/Lexer.h) *)
(* ===================================================================== *)

Module TokenKind.

Inductive t : Set :=
| EndOfFile
| Error
| Identifier | Integer | Float | String
| Def | End | If | Else | Return | Var | Struct | Extern | While
| True | False
| Plus | Minus | Star | Slash
| Equal | EqualEqual | NotEqual | Arrow
| LParen | RParen | LBracket | RBracket
| Comma | Colon | Dot | LessThan | GreaterThan.

#[global] Instance eq_dec : EqDecision t.
Proof. solve_decision. Defined.

Definition eqb (a b : t) : bool := bool_decide (a = b).

End TokenKind.

Module Token.

Record t : Set := mk {
  kind : TokenKind.t;
  text : list ascii;
  line : Z;
  column : Z
}.

End Token.

(** Character classes of <cctype> in the "C" locale.  Bytes outside the
    ASCII range belong to no class. *)
Module CType.

Definition code (c : ascii) : N := N_of_ascii c.

Definition isspace (c : ascii) : bool :=
  let n := code c in
  (n =? 32)%N || ((9 <=? n)%N && (n <=? 13)%N).

Definition isdigit (c : ascii) : bool :=
  let n := code c in (48 <=? n)%N && (n <=? 57)%N.

Definition isalpha (c : ascii) : bool :=
  let n := code c in
  ((65 <=? n)%N && (n <=? 90)%N) || ((97 <=? n)%N && (n <=? 122)%N).

Definition isalnum (c : ascii) : bool := isalpha c || isdigit c.

End CType.

(** [std::string_view::substr(pos, count)].  [count] is a [size_t]: a
    negative C++ value converts to a number above every possible length, so
    the slice then runs to the end of the view, as it does whenever [count]
    exceeds what is left.  ([pos > size] throws in C++; the lexer keeps
    [startPosition <= position <= size], see [Lexer.wf].) *)
Definition substr (s : list ascii) (pos : nat) (count : Z) : list ascii :=
  let avail := (Z.of_nat (length s) - Z.of_nat pos)%Z in
  let n := if (count <? 0)%Z then avail else Z.min count avail in
  take (Z.to_nat n) (drop pos s).

Module Lexer.

Record t : Set := mk {
  source : list ascii;
  position : nat;
  line : Z;
  column : Z;
  startPosition : nat
}.

(** [Lexer::Lexer(std::string_view source)] *)
Definition new (src : list ascii) : t :=
  {| source := src; position := 0; line := 1; column := 1;
     startPosition := 0 |}.

Definition NUL : ascii := "000"%char.
Definition NL : ascii := "010"%char.
Definition DQUOTE : ascii := "034"%char.
Definition HASH : ascii := "#"%char.

Definition peek (l : t) : ascii :=
  if (length (source l) <=? position l)%nat then NUL
  else nth (position l) (source l) NUL.

Definition advance (l : t) : t :=
  if (position l <? length (source l))%nat then
    if Ascii.eqb (nth (position l) (source l) NUL) NL then
      {| source := source l; position := S (position l);
         line := line l + 1; column := 1;
         startPosition := startPosition l |}
    else
      {| source := source l; position := S (position l);
         line := line l; column := column l + 1;
         startPosition := startPosition l |}
  else l.

(** [while (cond(peek())) advance();] -- every iteration that runs moves
    [position] forward (the conditions used are all false on NUL), so
    [fuel] = number of characters left is enough. *)
Fixpoint advance_while (cond : ascii -> bool) (fuel : nat) (l : t) : t :=
  match fuel with
  | O => l
  | S fuel' =>
      if cond (peek l) then advance_while cond fuel' (advance l) else l
  end.

Definition remaining (l : t) : nat := (length (source l) - position l)%nat.

Definition not_eol (c : ascii) : bool :=
  negb (Ascii.eqb c NL) && negb (Ascii.eqb c NUL).

Fixpoint skipWhitespace_loop (fuel : nat) (l : t) : t :=
  match fuel with
  | O => l
  | S fuel' =>
      let c := peek l in
      if CType.isspace c then skipWhitespace_loop fuel' (advance l)
      else if Ascii.eqb c HASH then
        skipWhitespace_loop fuel' (advance_while not_eol (remaining l) l)
      else l
  end.

Definition skipWhitespace (l : t) : t :=
  skipWhitespace_loop (S (remaining l)) l.

Definition atom (l : t) (kind : TokenKind.t) : Token.t :=
  let text :=
    substr (source l) (startPosition l)
           (Z.of_nat (position l) - Z.of_nat (startPosition l)) in
  Token.mk kind text (line l) (column l - Z.of_nat (length text)).

Definition ident_char (c : ascii) : bool :=
  CType.isalnum c || Ascii.eqb c "_"%char.

Definition str (s : String.string) : list ascii := list_ascii_of_string s.

Definition text_is (text : list ascii) (s : String.string) : bool :=
  bool_decide (text = str s).

Definition identifier (l : t) : Token.t * t :=
  let l := advance_while ident_char (remaining l) l in
  let text :=
    substr (source l) (startPosition l)
           (Z.of_nat (position l) - Z.of_nat (startPosition l)) in
  if text_is text "def" then (atom l TokenKind.Def, l)
  else if text_is text "end" then (atom l TokenKind.End, l)
  else if text_is text "if" then (atom l TokenKind.If, l)
  else if text_is text "else" then (atom l TokenKind.Else, l)
  else if text_is text "return" then (atom l TokenKind.Return, l)
  else if text_is text "var" then (atom l TokenKind.Var, l)
  else if text_is text "struct" then (atom l TokenKind.Struct, l)
  else if text_is text "extern" then (atom l TokenKind.Extern, l)
  else if text_is text "while" then (atom l TokenKind.While, l)
  else if text_is text "true" then (atom l TokenKind.True, l)
  else if text_is text "false" then (atom l TokenKind.False, l)
  else (atom l TokenKind.Identifier, l).

Definition number (l : t) : Token.t * t :=
  let l := advance_while CType.isdigit (remaining l) l in
  if Ascii.eqb (peek l) "."%char then
    let l := advance l in
    let l := advance_while CType.isdigit (remaining l) l in
    (atom l TokenKind.Float, l)
  else (atom l TokenKind.Integer, l).

Definition in_string (c : ascii) : bool :=
  negb (Ascii.eqb c DQUOTE) && negb (Ascii.eqb c NUL).

Definition string (l : t) : Token.t * t :=
  let l := advance l in
  let l := advance_while in_string (remaining l) l in
  let l := if Ascii.eqb (peek l) DQUOTE then advance l else l in
  let fullLen := (Z.of_nat (position l) - Z.of_nat (startPosition l))%Z in
  let text := substr (source l) (S (startPosition l)) (fullLen - 2) in
  (Token.mk TokenKind.String text (line l) (column l - fullLen), l).

(** The [switch (c)] of [nextToken], entered after [c] was consumed. *)
Definition nextToken_switch (c : ascii) (l : t) : Token.t * t :=
  match c with
  | "+"%char => (atom l TokenKind.Plus, l)
  | "*"%char => (atom l TokenKind.Star, l)
  | "/"%char => (atom l TokenKind.Slash, l)
  | "("%char => (atom l TokenKind.LParen, l)
  | ")"%char => (atom l TokenKind.RParen, l)
  | ","%char => (atom l TokenKind.Comma, l)
  | ":"%char => (atom l TokenKind.Colon, l)
  | "."%char => (atom l TokenKind.Dot, l)
  | "<"%char => (atom l TokenKind.LessThan, l)
  | ">"%char => (atom l TokenKind.GreaterThan, l)
  | "-"%char =>
      if Ascii.eqb (peek l) ">"%char
      then let l := advance l in (atom l TokenKind.Arrow, l)
      else (atom l TokenKind.Minus, l)
  | "="%char =>
      if Ascii.eqb (peek l) "="%char
      then let l := advance l in (atom l TokenKind.EqualEqual, l)
      else (atom l TokenKind.Equal, l)
  | "!"%char =>
      if Ascii.eqb (peek l) "="%char
      then let l := advance l in (atom l TokenKind.NotEqual, l)
      else (atom l TokenKind.Error, l)
  | _ => (atom l TokenKind.Error, l)
  end.

Definition mark_start (l : t) : t :=
  {| source := source l; position := position l;
     line := line l; column := column l;
     startPosition := position l |}.

Definition nextToken (l : t) : Token.t * t :=
  let l := mark_start (skipWhitespace l) in
  let c := peek l in
  if Ascii.eqb c NUL then (atom l TokenKind.EndOfFile, l)
  else if CType.isalpha c || Ascii.eqb c "_"%char then identifier (advance l)
  else if CType.isdigit c then number l
  else if Ascii.eqb c DQUOTE then string l
  else nextToken_switch c (advance l).

(** Lexing to exhaustion: call [nextToken] until it answers EndOfFile.
    The EndOfFile token closes the list.  Every other token consumes at
    least one character, so [S (length source)] calls suffice. *)
Fixpoint tokens_from (fuel : nat) (l : t) : list Token.t :=
  match fuel with
  | O => []
  | S fuel' =>
      let '(tok, l') := nextToken l in
      if TokenKind.eqb (Token.kind tok) TokenKind.EndOfFile then [tok]
      else tok :: tokens_from fuel' l'
  end.

Definition tokenize (src : list ascii) : list Token.t :=
  tokens_from (S (length src)) (new src).

(** What is left to read, and the bounds the lexer maintains. *)
Definition rest (l : t) : list ascii := drop (position l) (source l).

Definition wf (l : t) : Prop :=
  (startPosition l <= position l)%nat /\
  (position l <= length (source l))%nat.

(** [consumed l l' w]: going from [l] to [l'] read exactly the characters
    [w], and touched nothing but the read position and the line/column
    counters. *)
Definition consumed (l l' : t) (w : list ascii) : Prop :=
  source l' = source l /\ startPosition l' = startPosition l /\
  rest l = w ++ rest l' /\ position l' = (position l + length w)%nat.

(** A character that is neither whitespace nor the start of a comment. *)
Definition significant (c : ascii) : bool :=
  negb (CType.isspace c) && negb (Ascii.eqb c HASH).

(** A text without NUL and without double quote. *)
Definition clean (s : list ascii) : Prop :=
  Forall (fun c => c <> NUL /\ c <> DQUOTE) s.


End Lexer.

(** The source "modulo whitespace and comments", following the spec's words:
    whitespace is dropped, and so is everything from a [#] to the end of its
    line.  This is the reference the token texts are compared with. *)
Fixpoint strip_from (in_comment : bool) (s : list ascii) : list ascii :=
  match s with
  | [] => []
  | c :: s' =>
      if in_comment then
        if Ascii.eqb c Lexer.NL then strip_from false s'
        else strip_from true s'
      else if CType.isspace c then strip_from false s'
      else if Ascii.eqb c Lexer.HASH then strip_from true s'
      else c :: strip_from false s'
  end.

Definition strip (s : list ascii) : list ascii := strip_from false s.

Definition token_texts (src : list ascii) : list ascii :=
  concat (map Token.text (Lexer.tokenize src)).

Definition kinds_of (src : String.string) : list TokenKind.t :=
  map Token.kind (Lexer.tokenize (Lexer.str src)).

(* ===================================================================== *)
(** * Semantic types (src/sema/Type.h) *)
(* ===================================================================== *)

Module TypeKind.

(** The enumeration of Type.h.  [Array] is not in the header under src/;
    the checker and the generator use an [ArrayType] whose declaration is
    missing, and it is given a kind of its own here. *)
Inductive t : Set :=
| Void | Int | Float | Bool | String | Struct | Function | TypeVariable
| Array.

#[global] Instance eq_dec : EqDecision t.
Proof. solve_decision. Defined.

End TypeKind.

(** A [std::shared_ptr<Type>] is an [option Ty]; the pointers held inside a
    type (field types, parameter and return types, element type) are
    nullable in the same way.

    Modelled from the spec: [ArrayType], "array of T", with the one field
    [elementType] that TypeChecker.cpp and CodeGen.cpp read; its declaration
    is not in Type.h. *)
Inductive Ty : Set :=
| VoidType
| IntType
| FloatType
| BoolType
| StringType
| StructType (name : string) (fields : list (string * option Ty))
| FunctionType (returnType : option Ty) (paramTypes : list (option Ty))
| ArrayType (elementType : option Ty).

Definition Ty_kind (t : Ty) : TypeKind.t :=
  match t with
  | VoidType => TypeKind.Void
  | IntType => TypeKind.Int
  | FloatType => TypeKind.Float
  | BoolType => TypeKind.Bool
  | StringType => TypeKind.String
  | StructType _ _ => TypeKind.Struct
  | FunctionType _ _ => TypeKind.Function
  | ArrayType _ => TypeKind.Array
  end.

(** [StructType::getMemberType]: the type of the first field of that name,
    null when there is none. *)
Fixpoint getMemberType (fields : list (string * option Ty)) (memberName : string)
  : option Ty :=
  match fields with
  | [] => None
  | f :: fields' =>
      if bool_decide (f.1 = memberName) then f.2
      else getMemberType fields' memberName
  end.

(** [StructType::getMemberIndex]: the loop [for (i = 0; i < size; ++i)],
    returning at the first field of that name, -1 when there is none. *)
Fixpoint getMemberIndex_from (i : Z) (fields : list (string * option Ty))
  (memberName : string) : Z :=
  match fields with
  | [] => -1
  | f :: fields' =>
      if bool_decide (f.1 = memberName) then i
      else getMemberIndex_from (i + 1) fields' memberName
  end.

Definition getMemberIndex (fields : list (string * option Ty))
  (memberName : string) : Z :=
  getMemberIndex_from 0 fields memberName.

(* ===================================================================== *)
(** * Abstract syntax (src/parser/AST.h) *)
(* ===================================================================== *)

(** Every expression node carries the slot [type], null until the checker
    fills it.

    Modelled from the spec: [IndexExpr] ("Index { object, index }") and
    [ArrayLiteralExpr] ("ArrayLiteral { elements }"); the parser, the checker
    and the generator build and visit them, and AST.h under src/ does not
    declare them. *)
Inductive Expr : Set :=
| LiteralExpr (type : option Ty) (value : string)
    (isFloat isBool isString : bool)
| VariableExpr (type : option Ty) (name : string)
| BinaryExpr (type : option Ty) (op : string) (left right : Expr)
| CallExpr (type : option Ty) (callee : string) (args : list Expr)
| MemberAccessExpr (type : option Ty) (object : Expr) (member : string)
| IndexExpr (type : option Ty) (object index : Expr)
| ArrayLiteralExpr (type : option Ty) (elements : list Expr).

Definition Expr_type (e : Expr) : option Ty :=
  match e with
  | LiteralExpr t _ _ _ _ | VariableExpr t _ | BinaryExpr t _ _ _
  | CallExpr t _ _ | MemberAccessExpr t _ _ | IndexExpr t _ _
  | ArrayLiteralExpr t _ => t
  end.

(** A [Block] is its statement list; [thenBranch], [elseBranch] and the
    bodies are [std::unique_ptr<Block>], null for a missing else branch and
    for the body of an extern function. *)
Inductive Stmt : Set :=
| ExprStmt (expr : Expr)
| ReturnStmt (value : option Expr)
| Block (statements : list Stmt)
| IfStmt (condition : Expr) (thenBranch : list Stmt)
    (elseBranch : option (list Stmt))
| WhileStmt (condition : Expr) (body : list Stmt)
| VarDeclStmt (name typeName : string) (initializer : option Expr)
| FunctionStmt (name : string) (params : list (string * string))
    (returnType : string) (body : option (list Stmt))
| StructDeclStmt (name : string) (fields : list (string * string)).


(* ===================================================================== *)
(** * Parser (src/parser/Parser.h, Parser.cpp) *)
(* ===================================================================== *)

Module Parser.

(** How a parsing function ends: with a value and the parser's new state,
    in [exit(1)] after a diagnostic, or by running out of the recursion
    budget of the model. *)
Inductive Res (A : Type) : Type :=
| Ok (a : A)
| Exit (msg : string)
| OutOfFuel.
Arguments Ok {A} a.
Arguments Exit {A} msg.
Arguments OutOfFuel {A}.

Definition getPrecedence (kind : TokenKind.t) : Z :=
  match kind with
  | TokenKind.Star | TokenKind.Slash => 5
  | TokenKind.Plus | TokenKind.Minus => 4
  | TokenKind.LessThan | TokenKind.GreaterThan => 3
  | TokenKind.EqualEqual | TokenKind.NotEqual => 2
  | TokenKind.Equal => 1
  | _ => -1
  end.

(** [std::string(token.text)] *)
Definition text_string (tok : Token.t) : string :=
  string_of_list_ascii (Token.text tok).

Section WithLexer.

(** The parser holds a reference to its lexer and asks it for one token
    at a time; [L] is the lexer's state and [next] its [nextToken]. *)
Context {L : Type} (next : L -> Token.t * L).

Record t : Type := mk {
  lexer : L;
  currentToken : Token.t
}.

Definition M (A : Type) : Type := t -> Res (A * t).

Definition ret {A} (a : A) : M A := fun p => Ok (a, p).

Definition bind {A B} (m : M A) (k : A -> M B) : M B :=
  fun p =>
    match m p with
    | Ok (a, p') => k a p'
    | Exit msg => Exit msg
    | OutOfFuel => OutOfFuel
    end.

Definition exit_ {A} (msg : string) : M A := fun _ => Exit msg.
Definition out_of_fuel {A} : M A := fun _ => OutOfFuel.
Definition current : M Token.t := fun p => Ok (currentToken p, p).
Definition kind_is (kind : TokenKind.t) : M bool :=
  fun p => Ok (TokenKind.eqb (Token.kind (currentToken p)) kind, p).

Notation "'let*' x ':=' m 'in' k" := (bind m (fun x => k))
  (at level 10, x name, m at level 100, k at level 200, only parsing).

Definition advance : M unit :=
  fun p => let '(tok, l') := next (lexer p) in
           Ok (tt, {| lexer := l'; currentToken := tok |}).

(** The constructor primes the first token. *)
Definition new (l : L) : t :=
  let '(tok, l') := next l in {| lexer := l'; currentToken := tok |}.

Definition match_ (kind : TokenKind.t) : M bool :=
  let* b := kind_is kind in
  if b then let* _ := advance in ret true else ret false.

Definition consume (kind : TokenKind.t) (errorMsg : string) : M Token.t :=
  let* tok := current in
  if TokenKind.eqb (Token.kind tok) kind then let* _ := advance in ret tok
  else exit_ errorMsg.

(** [while (match(LBracket)) { consume(RBracket); type += "[]"; }] *)
Fixpoint parseTypeName_loop (fuel : nat) (type : string) : M string :=
  match fuel with
  | O => out_of_fuel
  | S fuel' =>
      let* b := match_ TokenKind.LBracket in
      if b then
        let* _ := consume TokenKind.RBracket "Expected ']' after '[' in type name" in
        parseTypeName_loop fuel' (type +:+ "[]")
      else ret type
  end.

Definition parseTypeName (fuel : nat) : M string :=
  let* tok := consume TokenKind.Identifier "Expected type name" in
  parseTypeName_loop fuel (text_string tok).

(** Expressions.  [parseExprList] is the loop
    [do { v.push_back(parseExpression()); } while (match(Comma));] of
    call arguments and array elements; [parsePostfix] is the loop over
    member accesses and indexings that ends [parsePrimary]. *)
Fixpoint parseExpression (fuel : nat) : M Expr :=
  match fuel with
  | O => out_of_fuel
  | S fuel' =>
      let* lhs := parsePrimary fuel' in
      parseBinary fuel' 0 lhs
  end

with parseExprList (fuel : nat) : M (list Expr) :=
  match fuel with
  | O => out_of_fuel
  | S fuel' =>
      let* e := parseExpression fuel' in
      let* b := match_ TokenKind.Comma in
      if b then let* es := parseExprList fuel' in ret (e :: es)
      else ret [e]
  end

with parsePrimary (fuel : nat) : M Expr :=
  match fuel with
  | O => out_of_fuel
  | S fuel' =>
      let* tok := current in
      let* lhs :=
        match Token.kind tok with
        | TokenKind.Identifier =>
            let name := text_string tok in
            let* _ := advance in
            let* b := match_ TokenKind.LParen in
            if b then
              let* closing := kind_is TokenKind.RParen in
              let* args := (if closing then ret [] else parseExprList fuel') in
              let* _ := consume TokenKind.RParen "Expected ')'" in
              ret (CallExpr None name args)
            else ret (VariableExpr None name)
        | TokenKind.Integer =>
            let* _ := advance in
            ret (LiteralExpr None (text_string tok) false false false)
        | TokenKind.Float =>
            let* _ := advance in
            ret (LiteralExpr None (text_string tok) true false false)
        | TokenKind.True =>
            let* _ := advance in ret (LiteralExpr None "true" false true false)
        | TokenKind.False =>
            let* _ := advance in ret (LiteralExpr None "false" false true false)
        | TokenKind.String =>
            let* _ := advance in
            ret (LiteralExpr None (text_string tok) false false true)
        | TokenKind.LBracket =>
            let* _ := advance in
            let* closing := kind_is TokenKind.RBracket in
            let* elements := (if closing then ret [] else parseExprList fuel') in
            let* _ := consume TokenKind.RBracket "Expected ']'" in
            ret (ArrayLiteralExpr None elements)
        | TokenKind.LParen =>
            let* _ := advance in
            let* e := parseExpression fuel' in
            let* _ := consume TokenKind.RParen "Expected ')'" in
            ret e
        | _ => exit_ "Unexpected token in expression"
        end in
      parsePostfix fuel' lhs
  end

with parsePostfix (fuel : nat) (lhs : Expr) : M Expr :=
  match fuel with
  | O => out_of_fuel
  | S fuel' =>
      let* dot := match_ TokenKind.Dot in
      if dot then
        let* member := consume TokenKind.Identifier
                    "Expected member name after '.'" in
        parsePostfix fuel' (MemberAccessExpr None lhs (text_string member))
      else
        let* bracket := match_ TokenKind.LBracket in
        if bracket then
          let* index := parseExpression fuel' in
          let* _ := consume TokenKind.RBracket "Expected ']' after index" in
          parsePostfix fuel' (IndexExpr None lhs index)
        else ret lhs
  end

with parseBinary (fuel : nat) (exprPrec : Z) (lhs : Expr) : M Expr :=
  match fuel with
  | O => out_of_fuel
  | S fuel' =>
      let* opToken := current in
      let rangePrec := getPrecedence (Token.kind opToken) in
      if rangePrec <? exprPrec then ret lhs
      else
        let* _ := advance in
        let* rhs := parsePrimary fuel' in
        let* tok := current in
        let nextPrec := getPrecedence (Token.kind tok) in
        let* rhs := (if rangePrec <? nextPrec
                then parseBinary fuel' (rangePrec + 1) rhs
                else ret rhs) in
        parseBinary fuel' exprPrec
          (BinaryExpr None (text_string opToken) lhs rhs)
  end.

Definition block_ends (kind : TokenKind.t) : bool :=
  TokenKind.eqb kind TokenKind.End || TokenKind.eqb kind TokenKind.Else
  || TokenKind.eqb kind TokenKind.EndOfFile.

(** Statements; [parseBlock] reads statements up to [end], [else] or the
    end of the input, which it leaves in place. *)
Fixpoint parseStatement (fuel : nat) : M Stmt :=
  match fuel with
  | O => out_of_fuel
  | S fuel' =>
      let* is_return := match_ TokenKind.Return in
      if is_return then
        let* tok := current in
        if TokenKind.eqb (Token.kind tok) TokenKind.End
           || TokenKind.eqb (Token.kind tok) TokenKind.EndOfFile
           || TokenKind.eqb (Token.kind tok) TokenKind.Else
        then ret (ReturnStmt None)
        else let* e := parseExpression fuel' in ret (ReturnStmt (Some e))
      else
      let* is_if := match_ TokenKind.If in
      if is_if then
        let* condition := parseExpression fuel' in
        let* thenBranch := parseBlock fuel' in
        let* has_else := match_ TokenKind.Else in
        let* elseBranch := (if has_else
                       then let* b := parseBlock fuel' in ret (Some b)
                       else ret None) in
        let* _ := consume TokenKind.End "Expected 'end' after if" in
        ret (IfStmt condition thenBranch elseBranch)
      else
      let* is_while := match_ TokenKind.While in
      if is_while then
        let* condition := parseExpression fuel' in
        let* body := parseBlock fuel' in
        let* _ := consume TokenKind.End "Expected 'end' after while" in
        ret (WhileStmt condition body)
      else
      let* is_var := match_ TokenKind.Var in
      if is_var then
        let* name := consume TokenKind.Identifier "Expected variable name" in
        let* has_type := match_ TokenKind.Colon in
        let* typeName := (if has_type then parseTypeName fuel'
                     else ret EmptyString) in
        let* has_init := match_ TokenKind.Equal in
        let* init := (if has_init
                 then let* e := parseExpression fuel' in ret (Some e)
                 else if bool_decide (typeName = EmptyString)
                 then let* _ := consume TokenKind.Equal
                        "Expected '=' or type annotation for 'var'" in
                      ret None
                 else ret None) in
        ret (VarDeclStmt (text_string name) typeName init)
      else
        let* e := parseExpression fuel' in ret (ExprStmt e)
  end

with parseBlock (fuel : nat) : M (list Stmt) :=
  match fuel with
  | O => out_of_fuel
  | S fuel' =>
      let* tok := current in
      if block_ends (Token.kind tok) then ret []
      else
        let* s := parseStatement fuel' in
        let* ss := parseBlock fuel' in
        ret (s :: ss)
  end.

(** [do { name : type } while (match(Comma));] of a parameter list *)
Fixpoint parseParams_loop (fuel : nat) : M (list (string * string)) :=
  match fuel with
  | O => out_of_fuel
  | S fuel' =>
      let* paramName := consume TokenKind.Identifier "Expected parameter name" in
      let* _ := consume TokenKind.Colon "Expected ':' for type" in
      let* typeName := parseTypeName fuel' in
      let* more := match_ TokenKind.Comma in
      if more then
        let* ps := parseParams_loop fuel' in
        ret ((text_string paramName, typeName) :: ps)
      else ret [(text_string paramName, typeName)]
  end.

(** What [parseFunction] and [parseExtern] share: name, parameters and
    return type. *)
Definition parseSignature (fuel : nat)
  : M (string * list (string * string) * string) :=
  let* name := consume TokenKind.Identifier "Expected function name" in
  let* _ := consume TokenKind.LParen "Expected '('" in
  let* closing := kind_is TokenKind.RParen in
  let* params := (if closing then ret [] else parseParams_loop fuel) in
  let* _ := consume TokenKind.RParen "Expected ')'" in
  let* arrow := match_ TokenKind.Arrow in
  let* returnType := (if arrow then parseTypeName fuel else ret "void") in
  ret (text_string name, params, returnType).

Definition parseExtern (fuel : nat) : M Stmt :=
  let* _ := consume TokenKind.Extern "Expected 'extern'" in
  let* _ := consume TokenKind.Def "Expected 'def' after 'extern'" in
  let* sig := parseSignature fuel in
  let '(name, params, returnType) := sig in
  ret (FunctionStmt name params returnType None).

Definition parseFunction (fuel : nat) : M Stmt :=
  let* _ := consume TokenKind.Def "Expected 'def'" in
  let* sig := parseSignature fuel in
  let '(name, params, returnType) := sig in
  let* body := parseBlock fuel in
  let* _ := consume TokenKind.End "Expected 'end' after function body" in
  ret (FunctionStmt name params returnType (Some body)).

Fixpoint parseStruct_fields (fuel : nat) : M (list (string * string)) :=
  match fuel with
  | O => out_of_fuel
  | S fuel' =>
      let* tok := current in
      if TokenKind.eqb (Token.kind tok) TokenKind.End
         || TokenKind.eqb (Token.kind tok) TokenKind.EndOfFile
      then ret []
      else
        let* fieldName := consume TokenKind.Identifier "Expected field name" in
        let* _ := consume TokenKind.Colon "Expected ':'" in
        let* typeName := parseTypeName fuel' in
        let* fs := parseStruct_fields fuel' in
        ret ((text_string fieldName, typeName) :: fs)
  end.

Definition parseStruct (fuel : nat) : M Stmt :=
  let* _ := consume TokenKind.Struct "Expected 'struct'" in
  let* name := consume TokenKind.Identifier "Expected struct name" in
  let* fields := parseStruct_fields fuel in
  let* _ := consume TokenKind.End "Expected 'end' after struct body" in
  ret (StructDeclStmt (text_string name) fields).

Fixpoint parseModule (fuel : nat) : M (list Stmt) :=
  match fuel with
  | O => out_of_fuel
  | S fuel' =>
      let* tok := current in
      match Token.kind tok with
      | TokenKind.EndOfFile => ret []
      | kind =>
          let* s := match kind with
               | TokenKind.Def => parseFunction fuel'
               | TokenKind.Struct => parseStruct fuel'
               | TokenKind.Extern => parseExtern fuel'
               | _ => parseStatement fuel'
               end in
          let* ss := parseModule fuel' in
          ret (s :: ss)
      end
  end.

(** [reads l ts l']: asked again and again from state [l], the lexer
    hands out the tokens [ts] in this order and is then in state [l']. *)
Fixpoint reads (l : L) (ts : list Token.t) (l' : L) : Prop :=
  match ts with
  | [] => l = l'
  | tok :: ts' => exists l1, next l = (tok, l1) /\ reads l1 ts' l'
  end.

(** A token that cannot continue an operand: no call parenthesis, no
    member access, no indexing. *)
Definition ends_operand (kind : TokenKind.t) : Prop :=
  kind <> TokenKind.LParen /\ kind <> TokenKind.Dot /\
  kind <> TokenKind.LBracket.

End WithLexer.

Arguments mk {L} lexer currentToken.
Arguments lexer {L} p : rename.
Arguments currentToken {L} p : rename.

End Parser.

(** The front end as the driver runs it: a lexer over the source text, the
    parser on top of it.  The recursion budget grows with the source's
    length; a run that exhausts it answers [OutOfFuel], which no statement
    below takes for a result of the parser. *)
Definition parse_fuel (src : string) : nat := (10 * String.length src + 20)%nat.

Definition parse_module (src : string) : Parser.Res (list Stmt) :=
  match Parser.parseModule Lexer.nextToken (parse_fuel src)
          (Parser.new Lexer.nextToken (Lexer.new (Lexer.str src))) with
  | Parser.Ok (stmts, _) => Parser.Ok stmts
  | Parser.Exit msg => Parser.Exit msg
  | Parser.OutOfFuel => Parser.OutOfFuel
  end.

Definition parse_expression (src : string) : Parser.Res Expr :=
  match Parser.parseExpression Lexer.nextToken (parse_fuel src)
          (Parser.new Lexer.nextToken (Lexer.new (Lexer.str src))) with
  | Parser.Ok (e, _) => Parser.Ok e
  | Parser.Exit msg => Parser.Exit msg
  | Parser.OutOfFuel => Parser.OutOfFuel
  end.


(* ===================================================================== *)
(** * Semantic analysis (src/sema/TypeChecker.h, TypeChecker.cpp) *)
(* ===================================================================== *)

(** [name.length() > 2 && name.substr(name.length() - 2) == "[]"]: the
    element type name in front of a trailing pair of brackets. *)
Definition array_element_name (name : string) : option string :=
  let len := String.length name in
  if (2 <? len)%nat && bool_decide (substring (len - 2) 2 name = "[]")
  then Some (substring 0 (len - 2) name)
  else None.

Module Sema.

(** The checker's fields.  The struct registry holds pointers that come
    straight from [std::make_shared<StructType>], so an entry is the
    struct's name and field list.  Diagnostics go to the error stream and
    change nothing in the checker; they are left_ out. *)
Record t : Type := mk {
  symbolTable : gmap string (option Ty);
  currentFunctionReturnType : option Ty;
  structDefs : gmap string (string * list (string * option Ty))
}.

(** A fresh [TypeChecker]. *)
Definition new : t :=
  {| symbolTable := ∅; currentFunctionReturnType := None; structDefs := ∅ |}.

(** [resolveType].  The recursion strips one pair of brackets from a name
    longer than two characters at each call; [fuel] bounds its depth and
    the length of the name is enough ([resolveType] below). *)
Fixpoint resolveType_rec (fuel : nat)
    (defs : gmap string (string * list (string * option Ty)))
    (name : string) : option Ty :=
  if bool_decide (name = "int") then Some IntType
  else if bool_decide (name = "float") then Some FloatType
  else if bool_decide (name = "bool") then Some BoolType
  else if bool_decide (name = "string") then Some StringType
  else if bool_decide (name = "void") then Some VoidType
  else
    match defs !! name with
    | Some (sname, sfields) => Some (StructType sname sfields)
    | None =>
        match array_element_name name, fuel with
        | Some elemName, S fuel' =>
            Some (ArrayType (resolveType_rec fuel' defs elemName))
        | Some _, O => None
        | None, _ => Some VoidType
        end
    end.

Definition resolveType (tc : t) (name : string) : option Ty :=
  resolveType_rec (String.length name) (structDefs tc) name.

(** The three [dynamic_cast]s of the assignment rule. *)
Definition isValidLHS (e : Expr) : bool :=
  match e with
  | VariableExpr _ _ | MemberAccessExpr _ _ _ | IndexExpr _ _ _ => true
  | _ => false
  end.

Definition literal_type (isFloat isBool isString : bool) : Ty :=
  if isBool then BoolType
  else if isString then StringType
  else if isFloat then FloatType
  else IntType.

(** [p->kind == TypeKind::Int] on a pointer [p]; dereferencing the null
    pointer ends the run ([None]). *)
Definition kind_is_Int (p : option Ty) : option bool :=
  match p with
  | Some ty => Some (bool_decide (Ty_kind ty = TypeKind.Int))
  | None => None
  end.

(** The expression visitors.  They read the symbol table and write the
    [type] slots; the result is the annotated expression, or [None] when
    the visit dereferences a null pointer. *)
Fixpoint visitExpr (symbols : gmap string (option Ty)) (e : Expr)
  : option Expr :=
  let visitAll :=
    fix visitAll (es : list Expr) : option (list Expr) :=
      match es with
      | [] => Some []
      | e :: es' =>
          match visitExpr symbols e with
          | Some e' =>
              match visitAll es' with
              | Some es'' => Some (e' :: es'')
              | None => None
              end
          | None => None
          end
      end in
  match e with
  | LiteralExpr _ value isFloat isBool isString =>
      Some (LiteralExpr (Some (literal_type isFloat isBool isString))
              value isFloat isBool isString)
  | VariableExpr _ name =>
      match symbols !! name with
      | Some ty => Some (VariableExpr ty name)
      | None => Some (VariableExpr (Some VoidType) name)
      end
  | BinaryExpr _ op left_ right_ =>
      if bool_decide (op = "=") then
        if isValidLHS left_ then
          match visitExpr symbols left_ with
          | Some left' =>
              match visitExpr symbols right_ with
              | Some right' =>
                  Some (BinaryExpr (Expr_type right') op left' right')
              | None => None
              end
          | None => None
          end
        else Some (BinaryExpr (Some VoidType) op left_ right_)
      else
        match visitExpr symbols left_ with
        | Some left' =>
            match visitExpr symbols right_ with
            | Some right' =>
                match kind_is_Int (Expr_type left') with
                | Some true =>
                    match kind_is_Int (Expr_type right') with
                    | Some true =>
                        Some (BinaryExpr (Some IntType) op left' right')
                    | Some false =>
                        Some (BinaryExpr (Expr_type left') op left' right')
                    | None => None
                    end
                | Some false =>
                    Some (BinaryExpr (Expr_type left') op left' right')
                | None => None
                end
            | None => None
            end
        | None => None
        end
  | CallExpr _ callee args =>
      match visitAll args with
      | Some args' =>
          match symbols !! callee with
          | Some (Some (FunctionType returnType _)) =>
              Some (CallExpr returnType callee args')
          | _ => Some (CallExpr (Some VoidType) callee args')
          end
      | None => None
      end
  | MemberAccessExpr _ object member =>
      match visitExpr symbols object with
      | Some object' =>
          match Expr_type object' with
          | Some (StructType _ fields) =>
              match getMemberType fields member with
              | Some memberType =>
                  Some (MemberAccessExpr (Some memberType) object' member)
              | None =>
                  Some (MemberAccessExpr (Some VoidType) object' member)
              end
          | _ => Some (MemberAccessExpr (Some VoidType) object' member)
          end
      | None => None
      end
  | IndexExpr _ object index =>
      match visitExpr symbols object with
      | Some object' =>
          match visitExpr symbols index with
          | Some index' =>
              match Expr_type object' with
              | Some (ArrayType elementType) =>
                  match kind_is_Int (Expr_type index') with
                  | Some _ => Some (IndexExpr elementType object' index')
                  | None => None
                  end
              | _ => Some (IndexExpr (Some VoidType) object' index')
              end
          | None => None
          end
      | None => None
      end
  | ArrayLiteralExpr _ elements =>
      match elements with
      | [] => Some (ArrayLiteralExpr (Some (ArrayType (Some IntType))) [])
      | _ =>
          match visitAll elements with
          | Some elements' =>
              Some (ArrayLiteralExpr
                      (Some (ArrayType
                               (match elements' with
                                | first :: _ => Expr_type first
                                | [] => None
                                end)))
                      elements')
          | None => None
          end
      end
  end.

Definition set_symbolTable (tc : t) (tbl : gmap string (option Ty)) : t :=
  {| symbolTable := tbl;
     currentFunctionReturnType := currentFunctionReturnType tc;
     structDefs := structDefs tc |}.

(** [symbolTable[params[i].first] = paramTypes[i]] for every [i]. *)
Fixpoint bind_params (tbl : gmap string (option Ty))
    (params : list (string * string)) (paramTypes : list (option Ty))
  : gmap string (option Ty) :=
  match params, paramTypes with
  | p :: params', ty :: paramTypes' =>
      bind_params (<[p.1 := ty]> tbl) params' paramTypes'
  | _, _ => tbl
  end.

(** The statement visitors: the annotated statement and the checker after
    the visit. *)
Fixpoint visitStmt (tc : t) (s : Stmt) : option (Stmt * t) :=
  let visitBlock :=
    fix visitBlock (tc : t) (ss : list Stmt) : option (list Stmt * t) :=
      match ss with
      | [] => Some ([], tc)
      | s :: ss' =>
          match visitStmt tc s with
          | Some (s', tc1) =>
              match visitBlock tc1 ss' with
              | Some (ss'', tc2) => Some (s' :: ss'', tc2)
              | None => None
              end
          | None => None
          end
      end in
  match s with
  | ExprStmt expr =>
      match visitExpr (symbolTable tc) expr with
      | Some expr' => Some (ExprStmt expr', tc)
      | None => None
      end
  | ReturnStmt None => Some (ReturnStmt None, tc)
  | ReturnStmt (Some value) =>
      match visitExpr (symbolTable tc) value with
      | Some value' => Some (ReturnStmt (Some value'), tc)
      | None => None
      end
  | Block statements =>
      match visitBlock tc statements with
      | Some (statements', tc') => Some (Block statements', tc')
      | None => None
      end
  | IfStmt condition thenBranch elseBranch =>
      match visitExpr (symbolTable tc) condition with
      | Some condition' =>
          match visitBlock tc thenBranch with
          | Some (thenBranch', tc1) =>
              match elseBranch with
              | Some elseBlock =>
                  match visitBlock tc1 elseBlock with
                  | Some (elseBlock', tc2) =>
                      Some (IfStmt condition' thenBranch' (Some elseBlock'),
                            tc2)
                  | None => None
                  end
              | None => Some (IfStmt condition' thenBranch' None, tc1)
              end
          | None => None
          end
      | None => None
      end
  | WhileStmt condition body =>
      match visitExpr (symbolTable tc) condition with
      | Some condition' =>
          match visitBlock tc body with
          | Some (body', tc1) => Some (WhileStmt condition' body', tc1)
          | None => None
          end
      | None => None
      end
  | FunctionStmt name params returnTypeName body =>
      let paramTypes := map (fun p => resolveType tc p.2) params in
      let returnType := resolveType tc returnTypeName in
      let funcType := Some (FunctionType returnType paramTypes) in
      let tc1 := set_symbolTable tc (<[name := funcType]> (symbolTable tc)) in
      match body with
      | None => Some (s, tc1)
      | Some block =>
          let tc2 := {| symbolTable := symbolTable tc1;
                        currentFunctionReturnType := returnType;
                        structDefs := structDefs tc1 |} in
          let oldTable := symbolTable tc2 in
          let tc3 :=
            set_symbolTable tc2 (bind_params oldTable params paramTypes) in
          match visitBlock tc3 block with
          | Some (block', tc4) =>
              Some (FunctionStmt name params returnTypeName (Some block'),
                    set_symbolTable tc4 oldTable)
          | None => None
          end
      end
  | VarDeclStmt name typeName initializer =>
      match initializer with
      | Some init =>
          match visitExpr (symbolTable tc) init with
          | Some init' =>
              let type :=
                if bool_decide (typeName = EmptyString) then Expr_type init'
                else resolveType tc typeName in
              Some (VarDeclStmt name typeName (Some init'),
                    set_symbolTable tc (<[name := type]> (symbolTable tc)))
          | None => None
          end
      | None =>
          let type :=
            if bool_decide (typeName = EmptyString) then Some VoidType
            else resolveType tc typeName in
          Some (s, set_symbolTable tc (<[name := type]> (symbolTable tc)))
      end
  | StructDeclStmt name fields =>
      let fields' := map (fun f => (f.1, resolveType tc f.2)) fields in
      Some (s, {| symbolTable := symbolTable tc;
                  currentFunctionReturnType := currentFunctionReturnType tc;
                  structDefs := <[name := (name, fields')]> (structDefs tc) |})
  end.

(** [TypeChecker::visit(Block&)] and [TypeChecker::check]: the statements
    in order, each in the state the previous one left_. *)
Fixpoint visitBlock (tc : t) (ss : list Stmt) : option (list Stmt * t) :=
  match ss with
  | [] => Some ([], tc)
  | s :: ss' =>
      match visitStmt tc s with
      | Some (s', tc1) =>
          match visitBlock tc1 ss' with
          | Some (ss'', tc2) => Some (s' :: ss'', tc2)
          | None => None
          end
      | None => None
      end
  end.

Definition check (stmts : list Stmt) : option (list Stmt * t) :=
  visitBlock new stmts.

End Sema.


Module SemaSpec.

(** [TypeChecker::visit(CallExpr&)] and [visit(ArrayLiteralExpr&)] walk
    their operands in order. *)
Definition visitAll (symbols : gmap string (option Ty))
  : list Expr -> option (list Expr) :=
  fix visitAll (es : list Expr) : option (list Expr) :=
    match es with
    | [] => Some []
    | e :: es' =>
        match Sema.visitExpr symbols e with
        | Some e' =>
            match visitAll es' with
            | Some es'' => Some (e' :: es'')
            | None => None
            end
        | None => None
        end
    end.

(** A type with no null pointer anywhere inside it. *)
Inductive Ty_complete : Ty -> Prop :=
| complete_Void : Ty_complete VoidType
| complete_Int : Ty_complete IntType
| complete_Float : Ty_complete FloatType
| complete_Bool : Ty_complete BoolType
| complete_String : Ty_complete StringType
| complete_Struct name fields :
    Forall (fun f : string * option Ty =>
              exists ty, f.2 = Some ty /\ Ty_complete ty) fields ->
    Ty_complete (StructType name fields)
| complete_Function returnType paramTypes :
    (exists ty, returnType = Some ty /\ Ty_complete ty) ->
    Forall (fun p : option Ty => exists ty, p = Some ty /\ Ty_complete ty)
           paramTypes ->
    Ty_complete (FunctionType returnType paramTypes)
| complete_Array elementType :
    (exists ty, elementType = Some ty /\ Ty_complete ty) ->
    Ty_complete (ArrayType elementType).

Definition ptr_complete (p : option Ty) : Prop :=
  exists ty, p = Some ty /\ Ty_complete ty.

(** The checker's tables hold complete types only. *)
Definition state_complete (tc : Sema.t) : Prop :=
  map_Forall (fun _ p => ptr_complete p) (Sema.symbolTable tc) /\
  map_Forall (fun _ d => Ty_complete (StructType d.1 d.2)) (Sema.structDefs tc).

(** The expression nodes of a tree: the node itself and the nodes of its
    operands. *)
Fixpoint nodes (e : Expr) : list Expr :=
  e ::
  match e with
  | LiteralExpr _ _ _ _ _ | VariableExpr _ _ => []
  | BinaryExpr _ _ l r => nodes l ++ nodes r
  | CallExpr _ _ args => flat_map nodes args
  | MemberAccessExpr _ object _ => nodes object
  | IndexExpr _ object index => nodes object ++ nodes index
  | ArrayLiteralExpr _ elements => flat_map nodes elements
  end.

(** An assignment whose left side is none of Variable, MemberAccess, Index. *)
Definition assigns_non_lvalue (e : Expr) : bool :=
  match e with
  | BinaryExpr _ op l _ => bool_decide (op = "=") && negb (Sema.isValidLHS l)
  | _ => false
  end.

(** The nodes that do not lie beneath an assignment to a non-lvalue. *)
Fixpoint nodes_outside (e : Expr) : list Expr :=
  e ::
  match e with
  | LiteralExpr _ _ _ _ _ | VariableExpr _ _ => []
  | BinaryExpr _ op l r =>
      if assigns_non_lvalue e then []
      else nodes_outside l ++ nodes_outside r
  | CallExpr _ _ args => flat_map nodes_outside args
  | MemberAccessExpr _ object _ => nodes_outside object
  | IndexExpr _ object index => nodes_outside object ++ nodes_outside index
  | ArrayLiteralExpr _ elements => flat_map nodes_outside elements
  end.

(** The expressions a statement holds, directly or in a nested statement. *)
Fixpoint Stmt_exprs (s : Stmt) : list Expr :=
  match s with
  | ExprStmt expr => [expr]
  | ReturnStmt value => option_list value
  | Block statements => flat_map Stmt_exprs statements
  | IfStmt condition thenBranch elseBranch =>
      condition :: flat_map Stmt_exprs thenBranch ++
      match elseBranch with
      | Some elseBlock => flat_map Stmt_exprs elseBlock
      | None => []
      end
  | WhileStmt condition body => condition :: flat_map Stmt_exprs body
  | VarDeclStmt _ _ initializer => option_list initializer
  | FunctionStmt _ _ _ body =>
      match body with
      | Some block => flat_map Stmt_exprs block
      | None => []
      end
  | StructDeclStmt _ _ => []
  end.

(** Every expression node reachable from the statements of a module. *)
Definition module_nodes (stmts : list Stmt) : list Expr :=
  flat_map nodes (flat_map Stmt_exprs stmts).

Definition module_nodes_outside (stmts : list Stmt) : list Expr :=
  flat_map nodes_outside (flat_map Stmt_exprs stmts).

Definition typed (e : Expr) : Prop := Expr_type e <> None.

(** What a visit achieves on one expression: a complete type at the root,
    a filled slot at every node outside assignments to non-lvalues, and at
    every node when the tree [e] that was visited has no such assignment. *)
Definition expr_ok (e e' : Expr) : Prop :=
  ptr_complete (Expr_type e') /\
  Forall typed (nodes_outside e') /\
  (Forall (fun n => assigns_non_lvalue n = false) (nodes e) ->
   Forall typed (nodes e')).

(** The same for a list of expressions: [es'] after the visit of [es]. *)
Definition exprs_ok (es es' : list Expr) : Prop :=
  Forall typed (flat_map nodes_outside es') /\
  (Forall (fun n => assigns_non_lvalue n = false) (flat_map nodes es) ->
   Forall typed (flat_map nodes es')).

(** The type the checker registers for a function. *)
Definition function_type (tc : Sema.t) (params : list (string * string))
  (returnTypeName : string) : option Ty :=
  Some (FunctionType (Sema.resolveType tc returnTypeName)
          (map (fun p => Sema.resolveType tc p.2) params)).

(** The state in which the body of a function is visited: the function is
    registered, then its parameters are bound. *)
Definition body_state (tc : Sema.t) (name : string)
    (params : list (string * string)) (returnTypeName : string) : Sema.t :=
  {| Sema.symbolTable :=
       Sema.bind_params (<[name := function_type tc params returnTypeName]>
                      (Sema.symbolTable tc))
         params (map (fun p => Sema.resolveType tc p.2) params);
     Sema.currentFunctionReturnType := Sema.resolveType tc returnTypeName;
     Sema.structDefs := Sema.structDefs tc |}.

(** A statement that declares the struct [name], itself or in a nested
    statement. *)
Fixpoint declares_struct (name : string) (s : Stmt) : bool :=
  match s with
  | StructDeclStmt n _ => bool_decide (n = name)
  | Block statements => existsb (declares_struct name) statements
  | IfStmt _ thenBranch elseBranch =>
      existsb (declares_struct name) thenBranch ||
      match elseBranch with
      | Some elseBlock => existsb (declares_struct name) elseBlock
      | None => false
      end
  | WhileStmt _ body => existsb (declares_struct name) body
  | FunctionStmt _ _ _ (Some block) => existsb (declares_struct name) block
  | _ => false
  end.

Definition stmt_visit_ok (s : Stmt) : Prop :=
  forall tc, state_complete tc ->
    exists s' tc', Sema.visitStmt tc s = Some (s', tc') /\ state_complete tc' /\
      exprs_ok (Stmt_exprs s) (Stmt_exprs s').

End SemaSpec.


(* ===================================================================== *)
(** * The IR model (the part of LLVM the generator drives) *)
(* ===================================================================== *)

(** The generator talks to LLVM through [llvm::Module], [llvm::IRBuilder]
    and the type and constant factories.  What it builds is recorded here
    as data: functions, basic blocks and instructions.

    - Objects the generator holds by pointer (functions, blocks, stack
      slots) are numbered; the number is the pointer.
    - The builder's constant folding is not modelled: every [Create...]
      call is recorded as an instruction.  Terminators are never folded.
    - LLVM renames a function whose name is taken ([makeUniqueName]); local
      names (blocks, registers) are recorded as asked for.
    - LLVM's own assertions and the verifier are outside the model. *)
Module IR.

Inductive Ty : Set :=
| IntegerTy (bits : Z)
| DoubleTy
| VoidTy
| PointerTy (pointee : Ty)
| StructTy (name : string) (body : list Ty).

Definition isIntegerTy (ty : Ty) : bool :=
  match ty with IntegerTy _ => true | _ => false end.

Definition isIntegerTy_bits (ty : Ty) (bits : Z) : bool :=
  match ty with IntegerTy b => (b =? bits)%Z | _ => false end.

Definition getIntegerBitWidth (ty : Ty) : Z :=
  match ty with IntegerTy b => b | _ => 0 end.

(** [ConstantFP text] is the double [std::stod] reads from [text];
    [Register id ty] is the result of instruction [id]. *)
Inductive Value : Set :=
| ConstantInt (bits value : Z)
| ConstantFP (text : string)
| GlobalStringPtr (s : string)
| UndefValue (ty : Ty)
| NullValue (ty : Ty)
| Argument (fn idx : nat) (ty : Ty)
| Register (id : nat) (ty : Ty).

Definition getType (v : Value) : Ty :=
  match v with
  | ConstantInt bits _ => IntegerTy bits
  | ConstantFP _ => DoubleTy
  | GlobalStringPtr _ => PointerTy (IntegerTy 8)
  | UndefValue ty | NullValue ty | Argument _ _ ty | Register _ ty => ty
  end.

Inductive BinOp : Set := Add | Sub | Mul | SDiv.
Inductive Pred : Set := SLT | SGT | EQ | NE.

Inductive Instr : Set :=
| Alloca (id : nat) (ty : Ty) (name : string)
| Store (val ptr : Value)
| Load (id : nat) (ty : Ty) (ptr : Value) (name : string)
| Binary (id : nat) (op : BinOp) (l r : Value) (name : string)
| ICmp (id : nat) (pred : Pred) (l r : Value) (name : string)
| Call (id : nat) (callee : nat) (args : list Value) (name : string)
| GetElementPtr (id : nat) (ty : Ty) (base : Value) (indices : list Value)
    (name : string)
| Br (dest : nat)
| CondBr (cond : Value) (ifTrue ifFalse : nat)
| Ret (v : option Value).

Definition isTerminator (i : Instr) : bool :=
  match i with Br _ | CondBr _ _ _ | Ret _ => true | _ => false end.

(** A block knows the function it was inserted into, if any. *)
Record BasicBlock : Set := mkBlock {
  bname : string;
  parent : option nat;
  instrs : list Instr
}.

(** [BasicBlock::getTerminator]: the last instruction if it is a
    terminator, null otherwise. *)
Definition getTerminator (bb : BasicBlock) : option Instr :=
  match last (instrs bb) with
  | Some i => if isTerminator i then Some i else None
  | None => None
  end.

Record Function : Set := mkFunction {
  fname : string;
  returnType : Ty;
  paramTypes : list Ty
}.

(** An [llvm::AllocaInst*]: the slot's register and its allocated type. *)
Record AllocaInst : Set := mkAlloca {
  slot : nat;
  allocatedType : Ty
}.

Definition AllocaInst_value (a : AllocaInst) : Value :=
  Register (slot a) (PointerTy (allocatedType a)).

End IR.


(* ===================================================================== *)
(** * Code generation (src/codegen/CodeGen.h, CodeGen.cpp) *)
(* ===================================================================== *)

(** [std::stoll]: leading whitespace, an optional sign, then decimal digits
    up to the first other character; [None] is the exception thrown when
    there is no digit or the value does not fit 64 bits. *)
Fixpoint stoll_digits (s : string) (acc : option Z) : option Z :=
  match s with
  | EmptyString => acc
  | String c s' =>
      if CType.isdigit c then
        stoll_digits s'
          (Some (10 * default 0 acc + Z.of_N (CType.code c - 48)))
      else acc
  end.

Fixpoint stoll_skip (s : string) : string :=
  match s with
  | String c s' => if CType.isspace c then stoll_skip s' else s
  | EmptyString => s
  end.

Definition stoll (s : string) : option Z :=
  let s := stoll_skip s in
  let '(negative, s) :=
    match s with
    | String "-"%char s' => (true, s')
    | String "+"%char s' => (false, s')
    | _ => (false, s)
    end in
  match stoll_digits s None with
  | Some n =>
      let z := if negative then - n else n in
      if (- 2 ^ 63 <=? z) && (z <? 2 ^ 63) then Some z else None
  | None => None
  end.

Module CodeGen.

(** The generator's fields.  [functions] with [lastUnique] is the module
    (its functions in creation order, and the counter LLVM uses to rename a
    function whose name is taken); [blocks], [layout], [insertBlock] and
    [nextId] are the builder and the blocks it works on: every block ever
    created, the blocks in the order they were inserted into their
    functions, the insertion point, and the next free register number. *)
Record t : Type := mk {
  functions : list IR.Function;
  lastUnique : nat;
  blocks : list IR.BasicBlock;
  layout : list nat;
  insertBlock : option nat;
  nextId : nat;
  namedValues : gmap string (option IR.AllocaInst);
  structTypes : gmap string IR.Ty;
  structFieldIndices : gmap string (gmap string Z);
  lastValue : option IR.Value
}.

(** A generator on a fresh, empty module. *)
Definition new : t :=
  {| functions := []; lastUnique := 0; blocks := []; layout := [];
     insertBlock := None; nextId := 0; namedValues := ∅; structTypes := ∅;
     structFieldIndices := ∅; lastValue := None |}.

Definition set_functions (cg : t) fs lu : t :=
  mk fs lu (blocks cg) (layout cg) (insertBlock cg) (nextId cg)
     (namedValues cg) (structTypes cg) (structFieldIndices cg) (lastValue cg).
Definition set_blocks (cg : t) bs ly : t :=
  mk (functions cg) (lastUnique cg) bs ly (insertBlock cg) (nextId cg)
     (namedValues cg) (structTypes cg) (structFieldIndices cg) (lastValue cg).
Definition set_insertBlock (cg : t) b : t :=
  mk (functions cg) (lastUnique cg) (blocks cg) (layout cg) b (nextId cg)
     (namedValues cg) (structTypes cg) (structFieldIndices cg) (lastValue cg).
Definition set_nextId (cg : t) n : t :=
  mk (functions cg) (lastUnique cg) (blocks cg) (layout cg) (insertBlock cg) n
     (namedValues cg) (structTypes cg) (structFieldIndices cg) (lastValue cg).
Definition set_namedValues (cg : t) nv : t :=
  mk (functions cg) (lastUnique cg) (blocks cg) (layout cg) (insertBlock cg)
     (nextId cg) nv (structTypes cg) (structFieldIndices cg) (lastValue cg).
Definition set_structs (cg : t) st sfi : t :=
  mk (functions cg) (lastUnique cg) (blocks cg) (layout cg) (insertBlock cg)
     (nextId cg) (namedValues cg) st sfi (lastValue cg).
Definition set_lastValue (cg : t) v : t :=
  mk (functions cg) (lastUnique cg) (blocks cg) (layout cg) (insertBlock cg)
     (nextId cg) (namedValues cg) (structTypes cg) (structFieldIndices cg) v.

(** Generator actions: a result and the new state, or [None] when the run
    ends in an uncaught exception or a null dereference. *)
Definition M (A : Type) : Type := t -> option (A * t).

Definition ret {A} (a : A) : M A := fun cg => Some (a, cg).
Definition bind {A B} (m : M A) (k : A -> M B) : M B :=
  fun cg => match m cg with Some (a, cg') => k a cg' | None => None end.
Definition throw {A} : M A := fun _ => None.
Definition gets {A} (f : t -> A) : M A := fun cg => Some (f cg, cg).
Definition modify (f : t -> t) : M unit := fun cg => Some (tt, f cg).

Notation "'let*' x ':=' m 'in' k" := (bind m (fun x => k))
  (at level 10, x name, m at level 100, k at level 200, only parsing).

Definition setLastValue (v : option IR.Value) : M unit :=
  modify (fun cg => set_lastValue cg v).

Definition freshId : M nat :=
  fun cg => Some (nextId cg, set_nextId cg (S (nextId cg))).

(** ** The module *)

(** The module's symbol table holds the functions that have a name; a
    function created with the empty name has none. *)
Definition name_taken (fs : list IR.Function) (name : string) : bool :=
  existsb (fun f => bool_decide (IR.fname f = name)) fs &&
  negb (bool_decide (name = EmptyString)).

(** [ValueSymbolTable::makeUniqueName] for a global: try [name.N] with the
    counter advanced each time, until a free name comes up.  One more try
    than there are functions is always enough. *)
Fixpoint makeUniqueName (fuel : nat) (fs : list IR.Function) (name : string)
    (counter : nat) : string * nat :=
  match fuel with
  | O => (name, counter)
  | S fuel' =>
      let counter' := S counter in
      let candidate := name +:+ "." +:+ pretty (N.of_nat counter') in
      if name_taken fs candidate
      then makeUniqueName fuel' fs name counter'
      else (candidate, counter')
  end.

(** [llvm::Function::Create(ft, ExternalLinkage, name, module)] *)
Definition createFunction (name : string) (returnType : IR.Ty)
    (paramTypes : list IR.Ty) : M nat :=
  fun cg =>
    let fs := functions cg in
    let '(name', counter) :=
      if name_taken fs name
      then makeUniqueName (S (length fs)) fs name (lastUnique cg)
      else (name, lastUnique cg) in
    Some (length fs,
          set_functions cg (fs ++ [IR.mkFunction name' returnType paramTypes])
                        counter).

Fixpoint find_function (fs : list IR.Function) (name : string) (i : nat)
  : option nat :=
  match fs with
  | [] => None
  | f :: fs' =>
      if bool_decide (IR.fname f = name) then Some i
      else find_function fs' name (S i)
  end.

(** [module->getFunction(name)] *)
Definition getFunction (name : string) : M (option nat) :=
  gets (fun cg =>
          if bool_decide (name = EmptyString) then None
          else find_function (functions cg) name 0).

(** ** The builder *)

(** [BasicBlock::Create(context, name, parent)]; without a parent the block
    stays out of every function until [insertInto]. *)
Definition createBlock (name : string) (parent : option nat) : M nat :=
  fun cg =>
    let b := length (blocks cg) in
    Some (b, set_blocks cg (blocks cg ++ [IR.mkBlock name parent []])
                        (match parent with
                         | Some _ => layout cg ++ [b]
                         | None => layout cg
                         end)).

(** [func->insert(func->end(), bb)] *)
Definition insertInto (func b : nat) : M unit :=
  modify (fun cg =>
    match blocks cg !! b with
    | Some bb =>
        set_blocks cg
          (<[b := IR.mkBlock (IR.bname bb) (Some func) (IR.instrs bb)]>
             (blocks cg))
          (layout cg ++ [b])
    | None => cg
    end).

Definition setInsertPoint (b : nat) : M unit :=
  modify (fun cg => set_insertBlock cg (Some b)).

(** [*builder.GetInsertBlock()] *)
Definition currentBlock : M IR.BasicBlock :=
  fun cg =>
    match insertBlock cg with
    | Some b =>
        match blocks cg !! b with
        | Some bb => Some (bb, cg)
        | None => None
        end
    | None => None
    end.

(** [!builder.GetInsertBlock()->getTerminator()] *)
Definition unterminated : M bool :=
  let* bb := currentBlock in
  ret (bool_decide (IR.getTerminator bb = None)).

(** [builder.GetInsertBlock()->getParent()] *)
Definition currentFunction : M nat :=
  let* bb := currentBlock in
  match IR.parent bb with
  | Some func => ret func
  | None => throw
  end.

Definition append_instr (b : nat) (i : IR.Instr) (bs : list IR.BasicBlock)
  : list IR.BasicBlock :=
  match bs !! b with
  | Some bb =>
      <[b := IR.mkBlock (IR.bname bb) (IR.parent bb) (IR.instrs bb ++ [i])]> bs
  | None => bs
  end.

(** The builder inserts a new instruction at the end of its block. *)
Definition emit (i : IR.Instr) : M unit :=
  modify (fun cg =>
    match insertBlock cg with
    | Some b => set_blocks cg (append_instr b i (blocks cg)) (layout cg)
    | None => cg
    end).

(** [func->getEntryBlock()]: the first block inserted into [func]. *)
Definition entryBlock (cg : t) (func : nat) : option nat :=
  List.find (fun b =>
               match blocks cg !! b with
               | Some bb => bool_decide (IR.parent bb = Some func)
               | None => false
               end) (layout cg).

(** [createEntryBlockAlloca]: a stack slot at the very beginning of the
    function's entry block. *)
Definition createEntryBlockAlloca (func : nat) (varName : string)
    (type : IR.Ty) : M IR.AllocaInst :=
  let* id := freshId in
  fun cg =>
    match entryBlock cg func with
    | Some b =>
        match blocks cg !! b with
        | Some bb =>
            Some (IR.mkAlloca id type,
                  set_blocks cg
                    (<[b := IR.mkBlock (IR.bname bb) (IR.parent bb)
                              (IR.Alloca id type varName :: IR.instrs bb)]>
                       (blocks cg))
                    (layout cg))
        | None => None
        end
    | None => None
    end.

Definition createLoad (ty : IR.Ty) (ptr : IR.Value) (name : string)
  : M IR.Value :=
  let* id := freshId in
  let* _ := emit (IR.Load id ty ptr name) in
  ret (IR.Register id ty).

Definition createStore (val ptr : IR.Value) : M unit :=
  emit (IR.Store val ptr).

Definition createBinary (op : IR.BinOp) (l r : IR.Value) (name : string)
  : M IR.Value :=
  let* id := freshId in
  let* _ := emit (IR.Binary id op l r name) in
  ret (IR.Register id (IR.getType l)).

Definition createICmp (pred : IR.Pred) (l r : IR.Value) (name : string)
  : M IR.Value :=
  let* id := freshId in
  let* _ := emit (IR.ICmp id pred l r name) in
  ret (IR.Register id (IR.IntegerTy 1)).

Definition createGEP (ty : IR.Ty) (base : IR.Value) (indices : list IR.Value)
    (name : string) : M IR.Value :=
  let* id := freshId in
  let* _ := emit (IR.GetElementPtr id ty base indices name) in
  ret (IR.Register id (IR.PointerTy ty)).

Definition createCall (callee : nat) (args : list IR.Value) (name : string)
  : M IR.Value :=
  let* id := freshId in
  let* _ := emit (IR.Call id callee args name) in
  let* fs := gets functions in
  match fs !! callee with
  | Some f => ret (IR.Register id (IR.returnType f))
  | None => throw
  end.

(** [if (condV->getType()->isIntegerTy(64)) condV = CreateICmpNE(condV, 0)] *)
Definition toBool (condV : IR.Value) (name : string) : M IR.Value :=
  if IR.isIntegerTy_bits (IR.getType condV) 64
  then createICmp IR.NE condV (IR.ConstantInt 64 0) name
  else ret condV.

(** ** Types *)

(** [CodeGen::getType]; the recursion on array type names is bounded like
    that of [Sema.resolveType]. *)
Fixpoint getType_rec (fuel : nat) (structs : gmap string IR.Ty)
    (typeName : string) : IR.Ty :=
  if bool_decide (typeName = "int") then IR.IntegerTy 64
  else if bool_decide (typeName = "float") then IR.DoubleTy
  else if bool_decide (typeName = "bool") then IR.IntegerTy 1
  else if bool_decide (typeName = "string") then IR.PointerTy (IR.IntegerTy 8)
  else if bool_decide (typeName = "void") then IR.VoidTy
  else
    match array_element_name typeName, fuel with
    | Some elemName, S fuel' =>
        IR.PointerTy (getType_rec fuel' structs elemName)
    | _, _ =>
        match structs !! typeName with
        | Some ty => ty
        | None => IR.IntegerTy 64
        end
    end.

Definition getType (typeName : string) : M IR.Ty :=
  gets (fun cg =>
          getType_rec (String.length typeName) (structTypes cg) typeName).

(** The mapping from a semantic type to an IR type that the member, index
    and array-literal visitors each spell out: int, float and bool, string
    where [withString] says so, and a struct that is registered. *)
Definition scalarType (withString : bool) (structs : gmap string IR.Ty)
    (ty : Ty) : option IR.Ty :=
  match ty with
  | IntType => Some (IR.IntegerTy 64)
  | FloatType => Some IR.DoubleTy
  | BoolType => Some (IR.IntegerTy 1)
  | StringType =>
      if withString then Some (IR.PointerTy (IR.IntegerTy 8)) else None
  | StructType name _ => structs !! name
  | _ => None
  end.

Section Visitors.

(** The two library facts the generator relies on and the model leaves
    open: whether [std::stod] accepts a literal's text (an exception if
    not), and [DataLayout::getTypeAllocSize]. *)
Context (stod_ok : string -> bool) (getTypeAllocSize : IR.Ty -> Z).

Definition visitLiteral (value : string) (isFloat isBool isString : bool)
  : M unit :=
  if isBool then
    setLastValue
      (Some (IR.ConstantInt 1 (if bool_decide (value = "true") then 1 else 0)))
  else if isString then setLastValue (Some (IR.GlobalStringPtr value))
  else if isFloat then
    if stod_ok value then setLastValue (Some (IR.ConstantFP value)) else throw
  else
    match stoll value with
    | Some z => setLastValue (Some (IR.ConstantInt 64 z))
    | None => throw
    end.

(** [namedValues[name]] creates a null entry for a name it does not hold. *)
Definition visitVariable (name : string) : M unit :=
  let* nv := gets namedValues in
  match nv !! name with
  | Some (Some alloca) =>
      let* v := createLoad (IR.allocatedType alloca)
                  (IR.AllocaInst_value alloca) name in
      setLastValue (Some v)
  | Some None => setLastValue None
  | None =>
      let* _ := modify (fun cg => set_namedValues cg (<[name := None]> nv)) in
      setLastValue None
  end.

Definition binaryOp (op : string) (l r : IR.Value) : M unit :=
  if bool_decide (op = "+") then
    let* v := createBinary IR.Add l r "addtmp" in setLastValue (Some v)
  else if bool_decide (op = "-") then
    let* v := createBinary IR.Sub l r "subtmp" in setLastValue (Some v)
  else if bool_decide (op = "*") then
    let* v := createBinary IR.Mul l r "multmp" in setLastValue (Some v)
  else if bool_decide (op = "/") then
    let* v := createBinary IR.SDiv l r "divtmp" in setLastValue (Some v)
  else if bool_decide (op = "<") then
    let* v := createICmp IR.SLT l r "cmptmp" in setLastValue (Some v)
  else if bool_decide (op = ">") then
    let* v := createICmp IR.SGT l r "cmptmp" in setLastValue (Some v)
  else if bool_decide (op = "==") then
    let* v := createICmp IR.EQ l r "cmptmp" in setLastValue (Some v)
  else if bool_decide (op = "!=") then
    let* v := createICmp IR.NE l r "cmptmp" in setLastValue (Some v)
  else setLastValue None.

(** The member case of [getLValueAddress], once the address [base] of the
    object is known. *)
Definition memberAddress (base : option IR.Value) (objectType : option Ty)
    (member : string) : M (option IR.Value) :=
  match base with
  | None => ret None
  | Some base =>
      match objectType with
      | Some (StructType structName _) =>
          let* structs := gets structTypes in
          match structs !! structName with
          | None => ret None
          | Some st =>
              let* sfi := gets structFieldIndices in
              let fieldIndices := default ∅ (sfi !! structName) in
              let* _ := modify (fun cg =>
                          set_structs cg structs
                            (<[structName := fieldIndices]> sfi)) in
              match fieldIndices !! member with
              | None => ret None
              | Some idx =>
                  let* addr := createGEP st base
                                 [IR.ConstantInt 32 0; IR.ConstantInt 32 idx]
                                 "memberaddr" in
                  ret (Some addr)
              end
          end
      | _ => ret None
      end
  end.

(** The end of the index case of [getLValueAddress]: object and index are
    lowered, [arrayPtr] and [indexVal] are their non-null values. *)
Definition indexAddress (arrayPtr indexVal : IR.Value)
    (objectType : option Ty) : M (option IR.Value) :=
  match objectType with
  | Some (ArrayType elementType) =>
      match elementType with
      | None => throw
      | Some et =>
          let* structs := gets structTypes in
          let elemLLVMType :=
            default (IR.IntegerTy 64) (scalarType false structs et) in
          let* addr := createGEP elemLLVMType arrayPtr [indexVal]
                         "indexaddr" in
          ret (Some addr)
      end
  | _ => ret None
  end.

(** [visit(MemberAccessExpr&)] after the address is known. *)
Definition memberLoad (addr : option IR.Value) (type : option Ty) : M unit :=
  match addr with
  | None => setLastValue None
  | Some addr =>
      let* structs := gets structTypes in
      let loadType :=
        default (IR.IntegerTy 64)
          (match type with
           | Some ty => scalarType true structs ty
           | None => None
           end) in
      let* v := createLoad loadType addr "memberload" in
      setLastValue (Some v)
  end.

(** [visit(IndexExpr&)] after the address is known. *)
Definition indexLoad (addr : option IR.Value) (type : option Ty) : M unit :=
  match addr with
  | None => setLastValue None
  | Some addr =>
      let* structs := gets structTypes in
      let loadType :=
        default (IR.IntegerTy 64)
          (match type with
           | Some ty => scalarType false structs ty
           | None => None
           end) in
      let* v := createLoad loadType addr "indexload" in
      setLastValue (Some v)
  end.

(** The element type an array literal is laid out with. *)
Definition literalElemType (structs : gmap string IR.Ty) (type : option Ty)
  : IR.Ty :=
  match type with
  | Some (ArrayType (Some et)) =>
      default (IR.IntegerTy 64) (scalarType false structs et)
  | _ => IR.IntegerTy 64
  end.

(** [module->getFunction("malloc")], declared on first use. *)
Definition getMalloc : M nat :=
  let* found := getFunction "malloc" in
  match found with
  | Some f => ret f
  | None =>
      createFunction "malloc" (IR.PointerTy (IR.IntegerTy 8))
        [IR.IntegerTy 64]
  end.

(** The expression visitors and [getLValueAddress].  A visitor leaves its
    result in [lastValue]. *)
Fixpoint visitExpr (e : Expr) : M unit :=
  match e with
  | LiteralExpr _ value isFloat isBool isString =>
      visitLiteral value isFloat isBool isString
  | VariableExpr _ name => visitVariable name
  | BinaryExpr _ op lhs rhs =>
      if bool_decide (op = "=") then
        let* lvalAddr := getLValueAddress lhs in
        match lvalAddr with
        | None => setLastValue None
        | Some lvalAddr =>
            let* _ := visitExpr rhs in
            let* val := gets lastValue in
            match val with
            | None => ret tt
            | Some val =>
                let* _ := createStore val lvalAddr in
                setLastValue (Some val)
            end
        end
      else
        let* _ := visitExpr lhs in
        let* l := gets lastValue in
        let* _ := visitExpr rhs in
        let* r := gets lastValue in
        match l, r with
        | Some l, Some r => binaryOp op l r
        | _, _ => setLastValue None
        end
  | CallExpr _ calleeName args =>
      let* callee := getFunction calleeName in
      match callee with
      | None => setLastValue None
      | Some callee =>
          let* fs := gets functions in
          match fs !! callee with
          | None => throw
          | Some f =>
              if bool_decide (length (IR.paramTypes f) = length args) then
                let* argsV :=
                  (fix visitArgs (args : list Expr)
                     : M (option (list IR.Value)) :=
                     match args with
                     | [] => ret (Some [])
                     | arg :: args' =>
                         let* _ := visitExpr arg in
                         let* v := gets lastValue in
                         match v with
                         | None => ret None
                         | Some v =>
                             let* vs := visitArgs args' in
                             ret (option_map (cons v) vs)
                         end
                     end) args in
                match argsV with
                | None => ret tt
                | Some argsV =>
                    let* v := createCall callee argsV "calltmp" in
                    setLastValue (Some v)
                end
              else setLastValue None
          end
      end
  | MemberAccessExpr type object member =>
      let* base := getLValueAddress object in
      let* addr := memberAddress base (Expr_type object) member in
      memberLoad addr type
  | IndexExpr type object index =>
      let* _ := getLValueAddress object in
      let* _ := visitExpr object in
      let* arrayPtr := gets lastValue in
      let* addr :=
        match arrayPtr with
        | None => ret None
        | Some arrayPtr =>
            let* _ := visitExpr index in
            let* indexVal := gets lastValue in
            match indexVal with
            | None => ret None
            | Some indexVal =>
                indexAddress arrayPtr indexVal (Expr_type object)
            end
        end in
      indexLoad addr type
  | ArrayLiteralExpr type elements =>
      let size := Z.of_nat (length elements) in
      let* structs := gets structTypes in
      let elemType := literalElemType structs type in
      let* mallocFunc := getMalloc in
      let totalSize := (getTypeAllocSize elemType * size) mod 2 ^ 64 in
      let* arrayPtr := createCall mallocFunc [IR.ConstantInt 64 totalSize]
                         "malloccall" in
      let* _ :=
        (fix storeElements (i : Z) (elements : list Expr) : M unit :=
           match elements with
           | [] => ret tt
           | element :: elements' =>
               let* _ := visitExpr element in
               let* val := gets lastValue in
               let* gep := createGEP elemType arrayPtr [IR.ConstantInt 64 i]
                             "initidx" in
               match val with
               | None => throw
               | Some val =>
                   let* _ := createStore val gep in
                   storeElements (i + 1) elements'
               end
           end) 0 elements in
      setLastValue (Some arrayPtr)
  end

with getLValueAddress (e : Expr) : M (option IR.Value) :=
  match e with
  | VariableExpr _ name =>
      let* nv := gets namedValues in
      match nv !! name with
      | Some alloca => ret (option_map IR.AllocaInst_value alloca)
      | None => ret None
      end
  | MemberAccessExpr _ object member =>
      let* base := getLValueAddress object in
      memberAddress base (Expr_type object) member
  | IndexExpr _ object index =>
      let* _ := getLValueAddress object in
      let* _ := visitExpr object in
      let* arrayPtr := gets lastValue in
      match arrayPtr with
      | None => ret None
      | Some arrayPtr =>
          let* _ := visitExpr index in
          let* indexVal := gets lastValue in
          match indexVal with
          | None => ret None
          | Some indexVal => indexAddress arrayPtr indexVal (Expr_type object)
          end
      end
  | _ => ret None
  end.

(** The argument loop of [visit(CallExpr&)]: it stops at the first
    argument that leaves [lastValue] null. *)
Definition visitArgs : list Expr -> M (option (list IR.Value)) :=
  fix visitArgs (args : list Expr) : M (option (list IR.Value)) :=
    match args with
    | [] => ret (Some [])
    | arg :: args' =>
        let* _ := visitExpr arg in
        let* v := gets lastValue in
        match v with
        | None => ret None
        | Some v =>
            let* vs := visitArgs args' in
            ret (option_map (cons v) vs)
        end
    end.

(** The store loop of [visit(ArrayLiteralExpr&)]. *)
Definition storeElements (elemType : IR.Ty) (arrayPtr : IR.Value)
  : Z -> list Expr -> M unit :=
  fix storeElements (i : Z) (elements : list Expr) : M unit :=
    match elements with
    | [] => ret tt
    | element :: elements' =>
        let* _ := visitExpr element in
        let* val := gets lastValue in
        let* gep := createGEP elemType arrayPtr [IR.ConstantInt 64 i]
                      "initidx" in
        match val with
        | None => throw
        | Some val =>
            let* _ := createStore val gep in
            storeElements (i + 1) elements'
        end
    end.

(** The loop of [visit(FunctionStmt&)] over [func->args()]: a stack slot
    for each argument, the argument stored into it, the parameter's name
    bound to it. *)
Fixpoint bindArguments (func : nat) (idx : nat)
    (params : list (string * string)) (argTypes : list IR.Ty)
    {struct argTypes} : M unit :=
  match argTypes with
  | [] => ret tt
  | argType :: argTypes' =>
      match params with
      | [] => throw
      | param :: params' =>
          let argName := param.1 in
          let* alloca := createEntryBlockAlloca func argName argType in
          let* _ := createStore (IR.Argument func idx argType)
                      (IR.AllocaInst_value alloca) in
          let* _ := modify (fun cg =>
                      set_namedValues cg
                        (<[argName := Some alloca]> (namedValues cg))) in
          bindArguments func (S idx) params' argTypes'
      end
  end.

(** The return fabricated at the end of a function whose last block is not
    terminated. *)
Definition fabricatedReturn (returnTypeName : string) (retTy : IR.Ty)
  : IR.Instr :=
  if bool_decide (returnTypeName = "void") then IR.Ret None
  else if IR.isIntegerTy retTy
  then IR.Ret (Some (IR.ConstantInt (IR.getIntegerBitWidth retTy) 0))
  else IR.Ret (Some (IR.UndefValue retTy)).

(** What [visit(FunctionStmt&)] does once the body is lowered: the return
    if one is missing, then the insertion point and [namedValues] of before
    the function. *)
Definition finishFunction (returnTypeName : string) (retTy : IR.Ty)
    (oldBB : option nat) (oldNamedValues : gmap string (option IR.AllocaInst))
  : M unit :=
  let* open := unterminated in
  let* _ := (if open then emit (fabricatedReturn returnTypeName retTy)
             else ret tt) in
  let* _ := match oldBB with
            | Some b => setInsertPoint b
            | None => ret tt
            end in
  modify (fun cg => set_namedValues cg oldNamedValues).

(** [fieldIndices[field.first] = idx++] over the fields. *)
Fixpoint fieldIndices_from (idx : Z) (fields : list (string * string))
    (acc : gmap string Z) : gmap string Z :=
  match fields with
  | [] => acc
  | field :: fields' =>
      fieldIndices_from (idx + 1) fields' (<[field.1 := idx]> acc)
  end.

Definition visitStructDecl (name : string) (fields : list (string * string))
  : M unit :=
  let* structs := gets structTypes in
  match structs !! name with
  | Some _ => ret tt
  | None =>
      let fieldTypes :=
        map (fun field =>
               getType_rec (String.length field.2) structs field.2) fields in
      let fieldIndices := fieldIndices_from 0 fields ∅ in
      modify (fun cg =>
        set_structs cg (<[name := IR.StructTy name fieldTypes]> structs)
          (<[name := fieldIndices]> (structFieldIndices cg)))
  end.

(** The prototype of [visit(FunctionStmt&)] and the set-up of the body:
    the function, its entry block, the arguments in their slots. *)
Definition beginFunction (name : string) (params : list (string * string))
    (returnTypeName : string) : M (nat * IR.Ty) :=
  let* structs := gets structTypes in
  let argTypes :=
    map (fun p => getType_rec (String.length p.2) structs p.2) params in
  let* retType := getType returnTypeName in
  let* func := createFunction name retType argTypes in
  ret (func, retType).

Definition enterBody (func : nat) (params : list (string * string)) : M unit :=
  let* bb := createBlock "entry" (Some func) in
  let* _ := setInsertPoint bb in
  let* _ := modify (fun cg => set_namedValues cg ∅) in
  let* fs := gets functions in
  match fs !! func with
  | Some f => bindArguments func 0 params (IR.paramTypes f)
  | None => throw
  end.

Fixpoint visitStmt (s : Stmt) : M unit :=
  let visitBlock :=
    fix visitBlock (ss : list Stmt) : M unit :=
      match ss with
      | [] => ret tt
      | s :: ss' => let* _ := visitStmt s in visitBlock ss'
      end in
  match s with
  | ExprStmt expr => visitExpr expr
  | ReturnStmt (Some value) =>
      let* _ := visitExpr value in
      let* v := gets lastValue in
      emit (IR.Ret v)
  | ReturnStmt None => emit (IR.Ret None)
  | Block statements => visitBlock statements
  | IfStmt condition thenBranch elseBranch =>
      let* _ := visitExpr condition in
      let* condV := gets lastValue in
      match condV with
      | None => ret tt
      | Some condV =>
          let* condV := toBool condV "ifcond" in
          let* func := currentFunction in
          let* thenBB := createBlock "then" (Some func) in
          let* elseBB := createBlock "else" None in
          let* mergeBB := createBlock "ifcont" None in
          let hasElse := bool_decide (elseBranch <> None) in
          let* _ := emit (IR.CondBr condV thenBB
                            (if hasElse then elseBB else mergeBB)) in
          let* _ := setInsertPoint thenBB in
          let* _ := visitBlock thenBranch in
          let* open := unterminated in
          let* _ := (if open then emit (IR.Br mergeBB) else ret tt) in
          let* _ :=
            match elseBranch with
            | Some elseBlock =>
                let* _ := insertInto func elseBB in
                let* _ := setInsertPoint elseBB in
                let* _ := visitBlock elseBlock in
                let* open := unterminated in
                if open then emit (IR.Br mergeBB) else ret tt
            | None => ret tt
            end in
          let* _ := insertInto func mergeBB in
          setInsertPoint mergeBB
      end
  | WhileStmt condition body =>
      let* func := currentFunction in
      let* condBB := createBlock "whilecond" (Some func) in
      let* loopBB := createBlock "whilebody" None in
      let* afterBB := createBlock "afterwhile" None in
      let* _ := emit (IR.Br condBB) in
      let* _ := setInsertPoint condBB in
      let* _ := visitExpr condition in
      let* condV := gets lastValue in
      match condV with
      | None => ret tt
      | Some condV =>
          let* condV := toBool condV "loopcond" in
          let* _ := emit (IR.CondBr condV loopBB afterBB) in
          let* _ := insertInto func loopBB in
          let* _ := setInsertPoint loopBB in
          let* _ := visitBlock body in
          let* open := unterminated in
          let* _ := (if open then emit (IR.Br condBB) else ret tt) in
          let* _ := insertInto func afterBB in
          setInsertPoint afterBB
      end
  | VarDeclStmt name typeName initializer =>
      let* func := currentFunction in
      let* initVal :=
        match initializer with
        | Some init => let* _ := visitExpr init in gets lastValue
        | None => ret None
        end in
      let* varType :=
        if negb (bool_decide (typeName = EmptyString)) then
          let* ty := getType typeName in ret (Some ty)
        else ret (option_map IR.getType initVal) in
      match varType with
      | None => ret tt
      | Some varType =>
          let* alloca := createEntryBlockAlloca func name varType in
          let* _ :=
            createStore (default (IR.NullValue varType) initVal)
              (IR.AllocaInst_value alloca) in
          modify (fun cg =>
            set_namedValues cg (<[name := Some alloca]> (namedValues cg)))
      end
  | FunctionStmt name params returnTypeName body =>
      let* proto := beginFunction name params returnTypeName in
      let '(func, retType) := proto in
      match body with
      | None => ret tt
      | Some block =>
          let* oldBB := gets insertBlock in
          let* oldNamedValues := gets namedValues in
          let* _ := enterBody func params in
          let* _ := visitBlock block in
          finishFunction returnTypeName retType oldBB oldNamedValues
      end
  | StructDeclStmt name fields => visitStructDecl name fields
  end.

Definition visitBlock : list Stmt -> M unit :=
  fix visitBlock (ss : list Stmt) : M unit :=
    match ss with
    | [] => ret tt
    | s :: ss' => let* _ := visitStmt s in visitBlock ss'
    end.

Definition is_main (s : Stmt) : bool :=
  match s with
  | FunctionStmt name _ _ _ => bool_decide (name = "main")
  | _ => false
  end.

(** The scan of [generate] for a user-defined main. *)
Definition hasUserMain (stmts : list Stmt) : bool := existsb is_main stmts.

Definition entryName (stmts : list Stmt) : string :=
  if hasUserMain stmts then "__init" else "main".

(** [CodeGen::generate], on the generator [cg]. *)
Definition generate (stmts : list Stmt) : M unit :=
  let* entryFunc := createFunction (entryName stmts) (IR.IntegerTy 64) [] in
  let* bb := createBlock "entry" (Some entryFunc) in
  let* _ := setInsertPoint bb in
  let* _ := visitBlock stmts in
  let* open := unterminated in
  if open then emit (IR.Ret (Some (IR.ConstantInt 64 0))) else ret tt.

(** [visit(FunctionStmt&)] up to the end of the body: the function is
    created, its body lowered; what is left is [finishFunction].  The result
    carries the function, its IR return type, and the insertion point and
    [namedValues] saved on entry. *)
Definition lowerFunctionBody (name : string) (params : list (string * string))
    (returnTypeName : string) (block : list Stmt)
  : M (nat * IR.Ty * option nat * gmap string (option IR.AllocaInst)) :=
  let* proto := beginFunction name params returnTypeName in
  let* oldBB := gets insertBlock in
  let* oldNamedValues := gets namedValues in
  let* _ := enterBody proto.1 params in
  let* _ := visitBlock block in
  ret (proto.1, proto.2, oldBB, oldNamedValues).

End Visitors.

(** [extends cg cg']: the module of [cg'] has the functions of [cg], in
    place and unchanged, and maybe more after them; and a struct registered in
    [cg] is registered in [cg'] with the same IR type and field indices. *)
Definition extends (cg cg' : t) : Prop :=
  (exists fs, functions cg' = functions cg ++ fs) /\
  (forall n ty m, structTypes cg !! n = Some ty ->
     structFieldIndices cg !! n = Some m ->
     structTypes cg' !! n = Some ty /\ structFieldIndices cg' !! n = Some m).

Definition preserves {A} (m : M A) : Prop :=
  forall cg a cg', m cg = Some (a, cg') -> extends cg cg'.

End CodeGen.

(** The pipeline of the driver: lex and parse, check, generate.  [None]
    when the parser exits or a later stage does not complete. *)
Definition compile (stod_ok : string -> bool) (getTypeAllocSize : IR.Ty -> Z)
    (src : string) : option (list Stmt * Sema.t * CodeGen.t) :=
  match parse_module src with
  | Parser.Ok stmts =>
      match Sema.check stmts with
      | Some (stmts', tc) =>
          match CodeGen.generate stod_ok getTypeAllocSize stmts' CodeGen.new with
          | Some (_, cg) => Some (stmts', tc, cg)
          | None => None
          end
      | None => None
      end
  | _ => None
  end.

(** Stand-ins for the two library facts in worked examples: every float
    literal is accepted, every type takes eight bytes. *)
Definition any_float (_ : string) : bool := true.
Definition eight_bytes (_ : IR.Ty) : Z := 8.


(* ===================================================================== *)
(** * Reference notions for further properties *)
(* ===================================================================== *)

(** [toString(TokenKind)] of Token.h, the name the parser prints in its
    diagnostics.  The switch has no case for the two bracket kinds, which
    fall to the default. *)
Definition toString (kind : TokenKind.t) : string :=
  match kind with
  | TokenKind.EndOfFile => "EndOfFile"
  | TokenKind.Error => "Error"
  | TokenKind.Identifier => "Identifier"
  | TokenKind.Integer => "Integer"
  | TokenKind.Float => "Float"
  | TokenKind.String => "String"
  | TokenKind.Def => "Def"
  | TokenKind.End => "End"
  | TokenKind.If => "If"
  | TokenKind.Else => "Else"
  | TokenKind.Return => "Return"
  | TokenKind.Var => "Var"
  | TokenKind.Struct => "Struct"
  | TokenKind.Extern => "Extern"
  | TokenKind.While => "While"
  | TokenKind.True => "True"
  | TokenKind.False => "False"
  | TokenKind.Plus => "Plus"
  | TokenKind.Minus => "Minus"
  | TokenKind.Star => "Star"
  | TokenKind.Slash => "Slash"
  | TokenKind.Equal => "Equal"
  | TokenKind.EqualEqual => "EqualEqual"
  | TokenKind.NotEqual => "NotEqual"
  | TokenKind.Arrow => "Arrow"
  | TokenKind.LParen => "LParen"
  | TokenKind.RParen => "RParen"
  | TokenKind.Comma => "Comma"
  | TokenKind.Colon => "Colon"
  | TokenKind.Dot => "Dot"
  | TokenKind.LessThan => "LessThan"
  | TokenKind.GreaterThan => "GreaterThan"
  | _ => "Unknown"
  end.

Module LexerSpec.

(** The keyword map of [Lexer::identifier], in the order it is tried. *)
Definition keywords : list (String.string * TokenKind.t) :=
  [("def", TokenKind.Def); ("end", TokenKind.End); ("if", TokenKind.If);
   ("else", TokenKind.Else); ("return", TokenKind.Return);
   ("var", TokenKind.Var); ("struct", TokenKind.Struct);
   ("extern", TokenKind.Extern); ("while", TokenKind.While);
   ("true", TokenKind.True); ("false", TokenKind.False)].

(** The number of line feeds in a text. *)
Fixpoint newlines (s : list ascii) : Z :=
  match s with
  | [] => 0
  | c :: s' => (if Ascii.eqb c Lexer.NL then 1 else 0) + newlines s'
  end.

(** The column reached by reading a text that starts in column [col]. *)
Fixpoint column_after (col : Z) (s : list ascii) : Z :=
  match s with
  | [] => col
  | c :: s' => column_after (if Ascii.eqb c Lexer.NL then 1 else col + 1) s'
  end.

(** [advances l l']: [l'] is [l] after some calls of [advance]. *)
Definition advances (l l' : Lexer.t) : Prop :=
  exists k, l' = Nat.iter k Lexer.advance l.

(** [scanned l l' w]: going from [l] to [l'] read exactly [w], and the
    line and column counters moved as reading [w] makes them. *)
Definition scanned (l l' : Lexer.t) (w : list ascii) : Prop :=
  Lexer.consumed l l' w /\
  Lexer.line l' = Lexer.line l + newlines w /\
  Lexer.column l' = column_after (Lexer.column l) w.

(** The two-character operators and the token their first character gives
    when the second does not follow. *)
Definition two_char_operators
  : list (ascii * ascii * TokenKind.t * TokenKind.t) :=
  [("="%char, "="%char, TokenKind.EqualEqual, TokenKind.Equal);
   ("!"%char, "="%char, TokenKind.NotEqual, TokenKind.Error);
   ("-"%char, ">"%char, TokenKind.Arrow, TokenKind.Minus)].

End LexerSpec.

Module ParserSpec.

(** The name of the type "array of ... of [name]" with [n] pairs of
    brackets, as [parseTypeName] builds it. *)
Definition array_name (n : nat) (name : string) : string :=
  Nat.iter n (fun type => type +:+ "[]") name.

(** The tokens of [n] pairs of brackets. *)
Definition bracket_tokens (brackets : list (Token.t * Token.t))
  : list Token.t :=
  flat_map (fun p => [p.1; p.2]) brackets.

(** The kinds of token with which an expression can start. *)
Definition starts_expression (kind : TokenKind.t) : bool :=
  match kind with
  | TokenKind.Identifier | TokenKind.Integer | TokenKind.Float
  | TokenKind.True | TokenKind.False | TokenKind.String
  | TokenKind.LBracket | TokenKind.LParen => true
  | _ => false
  end.

(** An expression, a statement without array nodes: no [IndexExpr] and no
    [ArrayLiteralExpr] anywhere inside. *)
Fixpoint no_arrays (e : Expr) : bool :=
  match e with
  | LiteralExpr _ _ _ _ _ | VariableExpr _ _ => true
  | BinaryExpr _ _ l r => no_arrays l && no_arrays r
  | CallExpr _ _ args => forallb no_arrays args
  | MemberAccessExpr _ object _ => no_arrays object
  | IndexExpr _ _ _ | ArrayLiteralExpr _ _ => false
  end.

Fixpoint no_arrays_stmt (s : Stmt) : bool :=
  match s with
  | ExprStmt expr => no_arrays expr
  | ReturnStmt None => true
  | ReturnStmt (Some value) => no_arrays value
  | Block statements => forallb no_arrays_stmt statements
  | IfStmt condition thenBranch elseBranch =>
      no_arrays condition && forallb no_arrays_stmt thenBranch &&
      match elseBranch with
      | Some elseBlock => forallb no_arrays_stmt elseBlock
      | None => true
      end
  | WhileStmt condition body =>
      no_arrays condition && forallb no_arrays_stmt body
  | VarDeclStmt _ _ None => true
  | VarDeclStmt _ _ (Some init) => no_arrays init
  | FunctionStmt _ _ _ None => true
  | FunctionStmt _ _ _ (Some block) => forallb no_arrays_stmt block
  | StructDeclStmt _ _ => true
  end.

End ParserSpec.

Module SemaMoreSpec.

(** An expression, a statement with every type slot emptied: what the
    parser built, whatever the checker wrote into it since. *)
Fixpoint erase (e : Expr) : Expr :=
  match e with
  | LiteralExpr _ value isFloat isBool isString =>
      LiteralExpr None value isFloat isBool isString
  | VariableExpr _ name => VariableExpr None name
  | BinaryExpr _ op l r => BinaryExpr None op (erase l) (erase r)
  | CallExpr _ callee args => CallExpr None callee (map erase args)
  | MemberAccessExpr _ object member =>
      MemberAccessExpr None (erase object) member
  | IndexExpr _ object index => IndexExpr None (erase object) (erase index)
  | ArrayLiteralExpr _ elements => ArrayLiteralExpr None (map erase elements)
  end.

Fixpoint erase_stmt (s : Stmt) : Stmt :=
  match s with
  | ExprStmt expr => ExprStmt (erase expr)
  | ReturnStmt value => ReturnStmt (option_map erase value)
  | Block statements => Block (map erase_stmt statements)
  | IfStmt condition thenBranch elseBranch =>
      IfStmt (erase condition) (map erase_stmt thenBranch)
        (option_map (map erase_stmt) elseBranch)
  | WhileStmt condition body =>
      WhileStmt (erase condition) (map erase_stmt body)
  | VarDeclStmt name typeName initializer =>
      VarDeclStmt name typeName (option_map erase initializer)
  | FunctionStmt name params returnType body =>
      FunctionStmt name params returnType (option_map (map erase_stmt) body)
  | StructDeclStmt name fields => StructDeclStmt name fields
  end.

End SemaMoreSpec.

Module CodeGenSpec.

(** The value of a decimal numeral, digit by digit from the left. *)
Definition digit_value (c : ascii) : Z := Z.of_N (CType.code c - 48).

Fixpoint decimal_from (acc : Z) (s : string) : Z :=
  match s with
  | EmptyString => acc
  | String c s' => decimal_from (10 * acc + digit_value c) s'
  end.

Definition decimal (s : string) : Z := decimal_from 0 s.

Fixpoint all_digits (s : string) : bool :=
  match s with
  | EmptyString => true
  | String c s' => CType.isdigit c && all_digits s'
  end.

(** The five built-in type names. *)
Definition primitives : list string := ["int"; "float"; "bool"; "string"; "void"].

End CodeGenSpec.


(* ===================================================================== *)
(** * Properties *)
(* ===================================================================== *)

Module LexerFacts.
Import Lexer.

Lemma eqb_eq a b : TokenKind.eqb a b = true <-> a = b.
Proof. unfold TokenKind.eqb. rewrite bool_decide_eq_true. reflexivity. Qed.

Lemma nth_hd_drop (s : list ascii) (n : nat) (d : ascii) :
  nth n s d = hd d (drop n s).
Proof.
  revert s; induction n as [|n IH]; intros [|c s]; simpl; auto.
Qed.

Lemma peek_rest l : peek l = hd NUL (rest l).
Proof.
  unfold peek, rest.
  destruct (Nat.leb_spec (length (source l)) (position l)) as [H|H].
  - rewrite drop_ge by lia. reflexivity.
  - apply nth_hd_drop.
Qed.

Lemma length_rest l : length (rest l) = remaining l.
Proof. unfold rest, remaining. apply length_drop. Qed.

Lemma consumed_refl l : consumed l l [].
Proof. unfold consumed; simpl. repeat split; lia. Qed.

Lemma consumed_trans l l' l'' w w' :
  consumed l l' w -> consumed l' l'' w' -> consumed l l'' (w ++ w').
Proof.
  intros (Hs & Hst & Hr & Hp) (Hs' & Hst' & Hr' & Hp').
  unfold consumed. rewrite Hs', Hs, Hst', Hst, Hr, Hr', Hp', Hp.
  rewrite length_app, <- app_assoc. repeat split; lia.
Qed.

Lemma drop_S_tl (s : list ascii) n : drop (S n) s = tl (drop n s).
Proof.
  revert s; induction n as [|n IH]; intros [|c s]; simpl; auto.
Qed.

Lemma advance_cons l c r :
  rest l = c :: r -> consumed l (advance l) [c].
Proof.
  intros Hr. assert (Hlen : (position l < length (source l))%nat).
  { pose proof (length_rest l) as H. rewrite Hr in H. unfold remaining in H.
    simpl in H. lia. }
  unfold advance. destruct (Nat.ltb_spec (position l) (length (source l)));
    [|lia].
  unfold consumed, rest in *.
  destruct (Ascii.eqb _ NL); simpl; rewrite drop_S_tl, Hr; simpl;
    repeat split; lia.
Qed.

Lemma consumed_length l l' w :
  consumed l l' w -> length (rest l) = (length w + length (rest l'))%nat.
Proof. intros (_ & _ & Hr & _). rewrite Hr. apply length_app. Qed.

Lemma consumed_wf l l' w : consumed l l' w -> wf l -> wf l'.
Proof.
  intros Hc [H1 H2]. pose proof (consumed_length _ _ _ Hc) as Hl.
  destruct Hc as (Hs & Hst & Hr & Hp).
  rewrite !length_rest in Hl. unfold remaining in Hl. rewrite Hs in Hl.
  unfold wf. rewrite Hs, Hst, Hp. lia.
Qed.

(** The scanning loops: what they read satisfies the loop condition, and
    they stop in front of a character that does not. *)
Lemma advance_while_spec cond :
  cond NUL = false ->
  forall fuel l, (length (rest l) <= fuel)%nat ->
    exists w, consumed l (advance_while cond fuel l) w /\
              Forall (fun c => cond c = true) w /\
              cond (peek (advance_while cond fuel l)) = false.
Proof.
  intros Hnul. induction fuel as [|fuel IH]; intros l Hlen.
  - exists []. simpl. split; [apply consumed_refl|]. split; [constructor|].
    rewrite peek_rest. destruct (rest l); simpl in *; [assumption|lia].
  - simpl. destruct (cond (peek l)) eqn:Hc.
    + rewrite peek_rest in Hc. destruct (rest l) as [|c r] eqn:Hr.
      { simpl in Hc. congruence. }
      simpl in Hc. pose proof (advance_cons _ _ _ Hr) as Hadv.
      destruct (IH (advance l)) as (w & Hw & Hall & Hstop).
      { pose proof (consumed_length _ _ _ Hadv) as Hl. rewrite Hr in Hl.
        simpl in *. lia. }
      exists ([c] ++ w). split; [eapply consumed_trans; eassumption|].
      split; [constructor; assumption|assumption].
    + exists []. split; [apply consumed_refl|]. split; [constructor|assumption].
Qed.

Lemma advance_while_remaining cond l :
  cond NUL = false ->
  exists w, consumed l (advance_while cond (remaining l) l) w /\
            Forall (fun c => cond c = true) w /\
            cond (peek (advance_while cond (remaining l) l)) = false.
Proof.
  intros H. apply advance_while_spec; [assumption|].
  rewrite length_rest. lia.
Qed.

(** The text of a token is the slice between its start mark and the read
    position. *)
Lemma substr_consumed l l' w :
  (position l <= length (source l))%nat ->
  consumed l l' w ->
  substr (source l') (position l)
         (Z.of_nat (position l') - Z.of_nat (position l)) = w.
Proof.
  intros Hwf Hc. pose proof (consumed_length _ _ _ Hc) as Hl.
  destruct Hc as (Hs & Hst & Hr & Hp).
  rewrite length_rest in Hl. unfold remaining in Hl.
  unfold substr. rewrite Hs, Hp.
  replace (Z.of_nat (position l + length w) - Z.of_nat (position l))
    with (Z.of_nat (length w)) by lia.
  destruct (Z.ltb_spec (Z.of_nat (length w)) 0); [lia|].
  rewrite Z.min_l by lia. rewrite Nat2Z.id.
  unfold rest in Hr. rewrite Hr. rewrite take_app_length. reflexivity.
Qed.

(** ** Whitespace, comments and the reference [strip] *)

Ltac ascii_cases c :=
  destruct c as [[|] [|] [|] [|] [|] [|] [|] [|]]; vm_compute;
  try reflexivity; try discriminate; try tauto.

Lemma ident_char_significant c : ident_char c = true -> significant c = true.
Proof. ascii_cases c. Qed.

Lemma isdigit_significant c : CType.isdigit c = true -> significant c = true.
Proof. ascii_cases c. Qed.

Lemma isspace_not_eol c : CType.isspace c = true -> c <> NUL.
Proof. ascii_cases c. Qed.

Lemma not_eol_false c : not_eol c = false -> c = NL \/ c = NUL.
Proof.
  unfold not_eol. destruct (Ascii.eqb_spec c NL); [auto|].
  destruct (Ascii.eqb_spec c NUL); [auto|discriminate].
Qed.

Lemma not_eol_NL c : not_eol c = true -> Ascii.eqb c NL = false.
Proof. unfold not_eol. destruct (Ascii.eqb c NL); [discriminate|reflexivity]. Qed.

Lemma strip_app_significant w r :
  Forall (fun c => significant c = true) w -> strip (w ++ r) = w ++ strip r.
Proof.
  unfold strip. induction 1 as [|c w Hc _ IH]; simpl; [reflexivity|].
  unfold significant in Hc. destruct (CType.isspace c); [discriminate|].
  destruct (Ascii.eqb c HASH); [discriminate|]. simpl. now rewrite IH.
Qed.

Lemma strip_comment_app w r :
  Forall (fun c => not_eol c = true) w ->
  strip_from true (w ++ r) = strip_from true r.
Proof.
  induction 1 as [|c w Hc _ IH]; simpl; [reflexivity|].
  now rewrite (not_eol_NL _ Hc).
Qed.

Lemma peek_cons l c : peek l = c -> c <> NUL -> exists r, rest l = c :: r.
Proof.
  rewrite peek_rest. destruct (rest l) as [|c' r]; simpl; intros; subst;
    [congruence|eauto].
Qed.

Lemma clean_consumed l l' w : consumed l l' w -> clean (rest l) -> clean (rest l').
Proof.
  intros (_ & _ & Hr & _) H. unfold clean in *. rewrite Hr in H.
  apply Forall_app in H. tauto.
Qed.

Lemma skipWhitespace_loop_spec fuel :
  forall l, (length (rest l) < fuel)%nat -> clean (rest l) ->
    exists w, consumed l (skipWhitespace_loop fuel l) w /\
              strip (rest l) = strip (rest (skipWhitespace_loop fuel l)) /\
              significant (peek (skipWhitespace_loop fuel l)) = true.
Proof.
  induction fuel as [|fuel IH]; intros l Hlen Hclean; [lia|].
  simpl. destruct (CType.isspace (peek l)) eqn:Hsp.
  - destruct (peek_cons l _ eq_refl (isspace_not_eol _ Hsp)) as [r Hr].
    pose proof (advance_cons _ _ _ Hr) as Hadv.
    destruct (IH (advance l)) as (w & Hw & Hstrip & Hpk).
    { pose proof (consumed_length _ _ _ Hadv) as Hl. rewrite Hr in Hl, Hlen.
      simpl in *. lia. }
    { eapply clean_consumed; eassumption. }
    exists ([peek l] ++ w). split; [eapply consumed_trans; eassumption|].
    split; [|assumption]. rewrite <- Hstrip.
    destruct Hadv as (_ & _ & Hr' & _). rewrite Hr'. unfold strip. simpl.
    now rewrite Hsp.
  - destruct (Ascii.eqb_spec (peek l) HASH) as [Hh|Hh].
    + destruct (advance_while_remaining not_eol l eq_refl)
        as (w & Hw & Hall & Hstop).
      set (l1 := advance_while not_eol (remaining l) l) in *.
      destruct (peek_cons l HASH Hh) as [r Hr]; [discriminate|].
      assert (Hw' : exists w', w = HASH :: w').
      { destruct Hw as (_ & _ & Hrw & _). destruct w as [|c w'].
        - simpl in Hrw. rewrite peek_rest, <- Hrw, Hr in Hstop.
          simpl in Hstop. discriminate.
        - rewrite Hr in Hrw. simpl in Hrw. injection Hrw as Hc _. subst c. eauto. }
      destruct Hw' as [w' ->].
      pose proof (consumed_length _ _ _ Hw) as Hl. simpl in Hl.
      pose proof (clean_consumed _ _ _ Hw Hclean) as Hclean1.
      destruct (IH l1) as (w2 & Hw2 & Hstrip & Hpk); [lia|assumption|].
      exists ((HASH :: w') ++ w2).
      split; [eapply consumed_trans; eassumption|].
      split; [|assumption]. rewrite <- Hstrip.
      destruct Hw as (_ & _ & Hrw & _). rewrite Hrw. unfold strip. simpl.
      inversion Hall as [|? ? _ Hall']; subst.
      rewrite strip_comment_app by assumption.
      rewrite peek_rest in Hstop. destruct (rest l1) as [|c1 r1]; [reflexivity|].
      simpl in Hstop. inversion Hclean1 as [|? ? [Hn _] _]; subst.
      destruct (not_eol_false _ Hstop) as [-> | ->]; [reflexivity|congruence].
    + exists []. split; [apply consumed_refl|]. split; [reflexivity|].
      unfold significant. rewrite Hsp. simpl.
      destruct (Ascii.eqb_spec (peek l) HASH); [contradiction|reflexivity].
Qed.

Lemma skipWhitespace_spec l :
  clean (rest l) ->
  exists w, consumed l (skipWhitespace l) w /\
            strip (rest l) = strip (rest (skipWhitespace l)) /\
            significant (peek (skipWhitespace l)) = true.
Proof.
  intros H. apply skipWhitespace_loop_spec; [|assumption].
  rewrite length_rest. lia.
Qed.

(** ** One call of [nextToken] *)

Lemma atom_text l1 l' w k :
  (position l1 <= length (source l1))%nat ->
  startPosition l1 = position l1 ->
  consumed l1 l' w -> Token.text (atom l' k) = w.
Proof.
  intros Hwf Hst Hc. unfold atom; simpl.
  destruct Hc as (Hs & Hst' & Hr & Hp) eqn:E. rewrite Hst', Hst.
  apply substr_consumed; assumption.
Qed.

Lemma identifier_spec l :
  exists w k, consumed l (snd (identifier l)) w /\
    Forall (fun c => ident_char c = true) w /\
    fst (identifier l) = atom (snd (identifier l)) k /\
    k <> TokenKind.EndOfFile.
Proof.
  destruct (advance_while_remaining ident_char l eq_refl) as (w & Hw & Hall & _).
  unfold identifier.
  set (l' := advance_while ident_char (remaining l) l) in *.
  exists w.
  repeat (match goal with
          | |- context [if ?b then _ else _] => destruct b
          end;
          [eexists; simpl;
           split; [exact Hw|split; [exact Hall|split; [reflexivity|discriminate]]]|]).
  eexists; simpl.
  split; [exact Hw|split; [exact Hall|split; [reflexivity|discriminate]]].
Qed.

Lemma span_unique (p : ascii -> bool) d :
  forall w r1 ds r,
    Forall (fun c => p c = true) w -> p (hd d r1) = false ->
    Forall (fun c => p c = true) ds -> p (hd d r) = false ->
    w ++ r1 = ds ++ r -> w = ds /\ r1 = r.
Proof.
  induction w as [|c w IH]; intros r1 ds r Hw H1 Hds H2 E.
  - destruct ds as [|c' ds]; [auto|]. simpl in E. subst r1. simpl in H1.
    inversion Hds; congruence.
  - destruct ds as [|c' ds]; simpl in E.
    + subst r. simpl in H2. inversion Hw; congruence.
    + injection E as Hc E. subst c'. inversion Hw; inversion Hds; subst.
      destruct (IH r1 ds r) as [-> ->]; auto.
Qed.

(** [number] on a digit run [ds] followed by [r]. *)
Lemma number_digits l ds r :
  rest l = ds ++ r ->
  Forall (fun c => CType.isdigit c = true) ds ->
  CType.isdigit (hd NUL r) = false ->
  let l1 := advance_while CType.isdigit (remaining l) l in
  consumed l l1 ds /\ rest l1 = r.
Proof.
  intros Hr Hds Hstop l1.
  destruct (advance_while_remaining CType.isdigit l eq_refl)
    as (w & Hw & Hall & Hpk).
  fold l1 in Hw, Hpk. rewrite peek_rest in Hpk.
  assert (E : w ++ rest l1 = ds ++ r).
  { destruct Hw as (_ & _ & Hrw & _). congruence. }
  destruct (span_unique CType.isdigit NUL _ _ _ _ Hall Hpk Hds Hstop E)
    as [-> Hr1].
  split; assumption.
Qed.

Lemma number_spec l :
  exists w k, consumed l (snd (number l)) w /\
    Forall (fun c => significant c = true) w /\
    (CType.isdigit (peek l) = true -> w <> []) /\
    fst (number l) = atom (snd (number l)) k /\
    k <> TokenKind.EndOfFile.
Proof.
  destruct (advance_while_remaining CType.isdigit l eq_refl)
    as (w & Hw & Hall & Hpk).
  unfold number. set (l1 := advance_while CType.isdigit (remaining l) l) in *.
  assert (Hne : CType.isdigit (peek l) = true -> w <> []).
  { intros Hd ->. destruct Hw as (_ & _ & Hrw & _). simpl in Hrw.
    rewrite !peek_rest in *. congruence. }
  assert (Hsig : Forall (fun c => significant c = true) w).
  { eapply Forall_impl; [eassumption|]. apply isdigit_significant. }
  destruct (Ascii.eqb_spec (peek l1) "."%char) as [Hdot|Hdot].
  - destruct (peek_cons l1 _ Hdot) as [r Hr]; [discriminate|].
    pose proof (advance_cons _ _ _ Hr) as Hadv.
    destruct (advance_while_remaining CType.isdigit (advance l1) eq_refl)
      as (w2 & Hw2 & Hall2 & _).
    exists (w ++ ["."%char] ++ w2), TokenKind.Float. cbn [fst snd].
    split; [exact (consumed_trans _ _ _ _ _ Hw
                     (consumed_trans _ _ _ _ _ Hadv Hw2))|].
    split.
    { apply Forall_app; split; [assumption|].
      constructor; [reflexivity|].
      eapply Forall_impl; [eassumption|]. apply isdigit_significant. }
    split; [|split; [reflexivity|discriminate]].
    intros Hd E. apply app_eq_nil in E. destruct E; discriminate.
  - exists w, TokenKind.Integer. cbn [fst snd].
    split; [exact Hw|]. split; [exact Hsig|]. split; [exact Hne|].
    split; [reflexivity|discriminate].
Qed.

Lemma switch_spec c l :
  exists w k, consumed l (snd (nextToken_switch c l)) w /\
    Forall (fun c => significant c = true) w /\
    fst (nextToken_switch c l) = atom (snd (nextToken_switch c l)) k /\
    k <> TokenKind.EndOfFile.
Proof.
  assert (Hnone : forall k, k <> TokenKind.EndOfFile ->
    exists w k', consumed l l w /\
      Forall (fun c => significant c = true) w /\
      atom l k = atom l k' /\ k' <> TokenKind.EndOfFile).
  { intros k Hk. exists [], k. split; [apply consumed_refl|].
    split; [constructor|]. split; [reflexivity|assumption]. }
  assert (Hone : forall x k, Ascii.eqb (peek l) x = true ->
    x <> NUL -> significant x = true -> k <> TokenKind.EndOfFile ->
    exists w k', consumed l (advance l) w /\
      Forall (fun c => significant c = true) w /\
      atom (advance l) k = atom (advance l) k' /\ k' <> TokenKind.EndOfFile).
  { intros x k Hx Hn Hs Hk. apply Ascii.eqb_eq in Hx.
    destruct (peek_cons l x Hx Hn) as [r Hr].
    exists [x], k. split; [apply advance_cons with r; assumption|].
    split; [constructor; [assumption|constructor]|].
    split; [reflexivity|assumption]. }
  destruct c as [[|] [|] [|] [|] [|] [|] [|] [|]]; cbn [nextToken_switch];
    try (apply Hnone; discriminate);
    match goal with
    | |- context [Ascii.eqb (peek l) ?x] =>
        destruct (Ascii.eqb (peek l) x) eqn:Hx; cbn [fst snd];
        [apply (Hone x); [assumption|discriminate|reflexivity|discriminate]
        |apply Hnone; discriminate]
    end.
Qed.

Lemma rest_mark_start l : rest (mark_start l) = rest l.
Proof. reflexivity. Qed.

Lemma peek_mark_start l : peek (mark_start l) = peek l.
Proof. reflexivity. Qed.

Lemma substr_empty s p : substr s p 0 = [].
Proof.
  unfold substr. simpl.
  destruct (Z.min_spec 0 (Z.of_nat (length s) - Z.of_nat p)) as [[_ ->]|[H ->]];
    [reflexivity|].
  replace (Z.to_nat _) with 0%nat by lia. reflexivity.
Qed.

(** A token other than EndOfFile is the slice [w] of significant
    characters in front of the reader; EndOfFile means only whitespace and
    comments were left. *)
Lemma nextToken_step l :
  wf l -> clean (rest l) ->
  let tok := fst (nextToken l) in
  let l' := snd (nextToken l) in
  wf l' /\ clean (rest l') /\
  ((Token.kind tok = TokenKind.EndOfFile /\ Token.text tok = [] /\
    strip (rest l) = []) \/
   (Token.kind tok <> TokenKind.EndOfFile /\
    strip (rest l) = Token.text tok ++ strip (rest l') /\
    (length (rest l') < length (rest l))%nat)).
Proof.
  intros Hwf Hclean.
  destruct (skipWhitespace_spec l Hclean) as (w0 & Hc0 & Hstrip0 & Hsig0).
  pose proof (consumed_wf _ _ _ Hc0 Hwf) as Hwf0.
  pose proof (clean_consumed _ _ _ Hc0 Hclean) as Hclean0.
  pose proof (consumed_length _ _ _ Hc0) as Hlen0.
  unfold nextToken. set (l0 := skipWhitespace l) in *.
  set (l1 := mark_start l0).
  assert (Hwf1 : wf l1) by (destruct Hwf0; split; simpl; lia).
  assert (Hpos1 : (position l1 <= length (source l1))%nat) by apply Hwf1.
  assert (Hst1 : startPosition l1 = position l1) by reflexivity.
  change (peek l1) with (peek l0). change (rest l0) with (rest l1) in *.
  (* every token but EndOfFile ends in the same way *)
  assert (Hfin : forall w k l', consumed l1 l' w -> w <> [] ->
    Forall (fun c => significant c = true) w -> k <> TokenKind.EndOfFile ->
    wf l' /\ clean (rest l') /\
    ((Token.kind (atom l' k) = TokenKind.EndOfFile /\
      Token.text (atom l' k) = [] /\ strip (rest l) = []) \/
     (Token.kind (atom l' k) <> TokenKind.EndOfFile /\
      strip (rest l) = Token.text (atom l' k) ++ strip (rest l') /\
      (length (rest l') < length (rest l))%nat))).
  { intros w k l' Hc Hne Hsig Hk.
    split; [eapply consumed_wf; eassumption|].
    split; [eapply clean_consumed; eassumption|]. right.
    split; [exact Hk|].
    rewrite (atom_text l1 l' w k Hpos1 Hst1 Hc).
    pose proof (consumed_length _ _ _ Hc) as Hl.
    split; [|destruct w; [congruence|simpl in Hl; lia]].
    rewrite Hstrip0. destruct Hc as (_ & _ & -> & _).
    apply strip_app_significant; assumption. }
  destruct (Ascii.eqb_spec (peek l0) NUL) as [Hnul|Hnul].
  - cbn [fst snd]. split; [assumption|]. split; [assumption|]. left.
    assert (Hr : rest l1 = []).
    { rewrite peek_rest in Hnul. change (rest l0) with (rest l1) in Hnul.
      destruct (rest l1) as [|c r]; [reflexivity|].
      simpl in Hnul. inversion Hclean0 as [|? ? [Hn _] _]; congruence. }
    split; [reflexivity|]. split.
    + unfold atom; simpl. rewrite Z.sub_diag. apply substr_empty.
    + rewrite Hstrip0, Hr. reflexivity.
  - destruct (peek_cons l1 _ eq_refl Hnul) as [r Hr].
    change (peek l1) with (peek l0) in Hr.
    pose proof (advance_cons _ _ _ Hr) as Hadv.
    destruct (CType.isalpha (peek l0) || Ascii.eqb (peek l0) "_"%char) eqn:Hid.
    { destruct (identifier_spec (advance l1)) as (w & k & Hw & Hall & -> & Hk).
      apply (Hfin ([peek l0] ++ w)); [|discriminate| |assumption].
      - eapply consumed_trans; eassumption.
      - constructor; [assumption|].
        eapply Forall_impl; [eassumption|]. apply ident_char_significant. }
    destruct (CType.isdigit (peek l0)) eqn:Hdig.
    { destruct (number_spec l1) as (w & k & Hw & Hall & Hne & -> & Hk).
      apply (Hfin w); auto. }
    destruct (Ascii.eqb_spec (peek l0) DQUOTE) as [Hq|Hq].
    { exfalso. rewrite Hr in Hclean0.
      inversion Hclean0 as [|? ? [_ Hn] _]; congruence. }
    destruct (switch_spec (peek l0) (advance l1)) as (w & k & Hw & Hall & -> & Hk).
    apply (Hfin ([peek l0] ++ w)); [|discriminate| |assumption].
    + eapply consumed_trans; eassumption.
    + constructor; assumption.
Qed.

Lemma wf_new src : wf (new src).
Proof. unfold wf, new; simpl. lia. Qed.

(** Lexing to exhaustion ends with EndOfFile, and the token texts put
    together are the significant characters of what was left to read. *)
Lemma tokens_from_strip fuel :
  forall l, (length (rest l) < fuel)%nat -> wf l -> clean (rest l) ->
    concat (map Token.text (tokens_from fuel l)) = strip (rest l) /\
    (exists toks eof, tokens_from fuel l = toks ++ [eof] /\
       Token.kind eof = TokenKind.EndOfFile /\
       Forall (fun tk => Token.kind tk <> TokenKind.EndOfFile) toks).
Proof.
  induction fuel as [|fuel IH]; intros l Hlen Hwf Hclean; [lia|].
  pose proof (nextToken_step l Hwf Hclean) as Hstep.
  cbn zeta in Hstep. simpl. destruct (nextToken l) as [tok l'].
  cbn [fst snd] in Hstep.
  destruct Hstep as (Hwf' & Hclean' & [(Hk & Ht & Hs)|(Hk & Hs & Hl)]).
  - rewrite Hk. simpl. rewrite Ht, Hs. split; [reflexivity|].
    exists [], tok. repeat split; [assumption|constructor].
  - destruct (TokenKind.eqb (Token.kind tok) TokenKind.EndOfFile) eqn:E.
    { apply eqb_eq in E. contradiction. }
    destruct (IH l') as (Hcat & toks & eof & Htoks & Heof & Hall);
      [lia|assumption|assumption|].
    simpl. rewrite Hcat, Hs. split; [reflexivity|].
    exists (tok :: toks), eof. rewrite Htoks.
    repeat split; [assumption|constructor; assumption].
Qed.

End LexerFacts.

(* ===================================================================== *)
(** * Lexer claims *)
(* ===================================================================== *)

(** C1 (the code departs from the claim).  [Lexer::nextToken] has no case
    for the brackets: whenever the next significant character is an opening
    or a closing bracket, the token returned has kind Error, with the
    bracket as its text -- never LBracket or RBracket. *)
Theorem nextToken_bracket_is_error (l : Lexer.t) (c : ascii) :
  Lexer.peek (Lexer.skipWhitespace l) = c ->
  c = "["%char \/ c = "]"%char ->
  Token.kind (fst (Lexer.nextToken l)) = TokenKind.Error.
Proof.
  intros Hpk Hc. unfold Lexer.nextToken.
  change (Lexer.peek (Lexer.mark_start (Lexer.skipWhitespace l)))
    with (Lexer.peek (Lexer.skipWhitespace l)).
  rewrite Hpk. destruct Hc as [-> | ->]; reflexivity.
Qed.

Lemma nextToken_bracket_is_error_witness :
  Token.kind (fst (Lexer.nextToken (Lexer.new (Lexer.str "  [1]")))) =
    TokenKind.Error /\
  kinds_of "a[0]" =
    [TokenKind.Identifier; TokenKind.Error; TokenKind.Integer;
     TokenKind.Error; TokenKind.EndOfFile].
Proof.
  split.
  - apply (nextToken_bracket_is_error _ "["%char); [reflexivity|left; reflexivity].
  - reflexivity.
Defined.

(** C8 (claim as stated fails): the digit run 1 followed by a dot and
    nothing else is scanned as one Float token with text "1.", not as an
    Integer. *)
Lemma number_trailing_dot_counterexample :
  let tok := fst (Lexer.nextToken (Lexer.new (Lexer.str "1."))) in
  Token.kind tok = TokenKind.Float /\
  Token.text tok = Lexer.str "1." /\
  Token.kind tok <> TokenKind.Integer.
Proof.
  cbv zeta. split; [reflexivity|]. split; [reflexivity|].
  vm_compute. discriminate.
Qed.

(** C8 (amended).  [Lexer::number], started on a digit run [ds] followed by
    [r]: the token is Float exactly when a dot follows the digit run,
    whether or not a digit comes after the dot, and Integer exactly when no
    dot follows; a digit run followed by a dot with no digit after it gives
    the token text [ds] with the dot. *)
Theorem number_float_iff_dot (l : Lexer.t) (ds r : list ascii) :
  Lexer.wf l ->
  Lexer.startPosition l = Lexer.position l ->
  Lexer.rest l = ds ++ r ->
  Forall (fun c => CType.isdigit c = true) ds ->
  CType.isdigit (hd Lexer.NUL r) = false ->
  let tok := fst (Lexer.number l) in
  (Token.kind tok = TokenKind.Float <-> hd Lexer.NUL r = "."%char) /\
  (Token.kind tok = TokenKind.Integer <-> hd Lexer.NUL r <> "."%char) /\
  (hd Lexer.NUL r <> "."%char -> Token.text tok = ds) /\
  (forall r', r = "."%char :: r' -> CType.isdigit (hd Lexer.NUL r') = false ->
     Token.text tok = ds ++ ["."%char]).
Proof.
  intros Hwf Hst Hr Hds Hstop.
  destruct (LexerFacts.number_digits l ds r Hr Hds Hstop) as [Hc Hr1].
  unfold Lexer.number.
  set (l1 := Lexer.advance_while CType.isdigit (Lexer.remaining l) l) in *.
  rewrite (LexerFacts.peek_rest l1), Hr1.
  assert (Hpos : (Lexer.position l <= length (Lexer.source l))%nat) by apply Hwf.
  destruct (Ascii.eqb_spec (hd Lexer.NUL r) "."%char) as [Hdot|Hdot];
    cbn [fst snd].
  - split; [tauto|]. split; [split; [discriminate|congruence]|].
    split; [congruence|].
    intros r' -> Hstop'.
    assert (Hadv : Lexer.consumed l1 (Lexer.advance l1) ["."%char])
      by (apply LexerFacts.advance_cons with r'; assumption).
    destruct (LexerFacts.number_digits (Lexer.advance l1) [] r') as [Hc2 _].
    { destruct Hadv as (_ & _ & Hra & _). rewrite Hr1 in Hra.
      simpl in Hra. injection Hra as Hra. simpl. symmetry. exact Hra. }
    { constructor. }
    { assumption. }
    cbn zeta in Hc2.
    pose proof (LexerFacts.consumed_trans _ _ _ _ _ Hc
                  (LexerFacts.consumed_trans _ _ _ _ _ Hadv Hc2)) as Hall.
    rewrite (LexerFacts.atom_text l _ _ TokenKind.Float Hpos Hst Hall).
    reflexivity.
  - split; [split; [discriminate|congruence]|]. split; [tauto|].
    split; [|intros r' ->; simpl in Hdot; congruence].
    intros _. apply (LexerFacts.atom_text l l1 ds _ Hpos Hst Hc).
Qed.

Lemma number_float_iff_dot_witness :
  let tok := fst (Lexer.number (Lexer.new (Lexer.str "42.+x"))) in
  (Token.kind tok = TokenKind.Float <-> "."%char = "."%char) /\
  Token.text tok = Lexer.str "42.".
Proof.
  pose proof (number_float_iff_dot (Lexer.new (Lexer.str "42.+x"))
                (Lexer.str "42") (Lexer.str ".+x")) as H.
  destruct H as (H1 & _ & _ & H4).
  - apply LexerFacts.wf_new.
  - reflexivity.
  - reflexivity.
  - repeat constructor.
  - reflexivity.
  - split; [exact H1|]. apply (H4 (Lexer.str "+x")); reflexivity.
Defined.

(** C9 (claim as stated fails): for the source made of the string literal
    "a" between double quotes, the token texts put together give a alone;
    the quotes of the source are lost. *)
Lemma token_texts_string_counterexample :
  let src := [Lexer.DQUOTE; "a"%char; Lexer.DQUOTE] in
  map Token.kind (Lexer.tokenize src) =
    [TokenKind.String; TokenKind.EndOfFile] /\
  token_texts src = ["a"%char] /\
  token_texts src <> strip src.
Proof.
  cbv zeta. split; [reflexivity|]. split; [reflexivity|].
  vm_compute. discriminate.
Qed.

(** C9 (amended).  For every source text with no double quote (no string
    literal) and no NUL character, lexing to exhaustion ends with the
    EndOfFile token, and the token texts concatenated in production order
    are the source without its whitespace and comments. *)
Theorem token_texts_strip (src : list ascii) :
  Forall (fun c => c <> Lexer.NUL /\ c <> Lexer.DQUOTE) src ->
  token_texts src = strip src /\
  exists toks eof, Lexer.tokenize src = toks ++ [eof] /\
    Token.kind eof = TokenKind.EndOfFile /\
    Forall (fun tk => Token.kind tk <> TokenKind.EndOfFile) toks.
Proof.
  intros Hclean. unfold token_texts, Lexer.tokenize.
  apply (LexerFacts.tokens_from_strip (S (length src)) (Lexer.new src)).
  - rewrite LexerFacts.length_rest. unfold Lexer.remaining. simpl. lia.
  - apply LexerFacts.wf_new.
  - exact Hclean.
Qed.

Lemma token_texts_strip_witness :
  token_texts (Lexer.str "x = y+1 # note
  f(x)") = Lexer.str "x=y+1f(x)".
Proof.
  refine (proj1 (token_texts_strip _ _)).
  repeat (constructor; [split; discriminate|]). constructor.
Defined.

(* ===================================================================== *)
(** * Parser: binary operators *)
(* ===================================================================== *)

Module ParserFacts.
Import Parser.

Section WithLexer.
Context {L : Type} (next : L -> Token.t * L).

Lemma eqb_neq (k k' : TokenKind.t) : k <> k' -> TokenKind.eqb k k' = false.
Proof. intros H. unfold TokenKind.eqb. now apply bool_decide_eq_false. Qed.

(** An identifier that no call parenthesis, dot or bracket follows is a
    Variable; the token after it becomes the current one. *)
Lemma parsePrimary_variable fuel (l l' : L) (tok tok' : Token.t) :
  Token.kind tok = TokenKind.Identifier ->
  next l = (tok', l') ->
  ends_operand (Token.kind tok') ->
  parsePrimary next (S (S fuel)) (mk l tok) =
    Ok (VariableExpr None (text_string tok), mk l' tok').
Proof.
  intros Hk Hn (H1 & H2 & H3).
  cbn [parsePrimary]. unfold bind at 1. cbn [current currentToken].
  rewrite Hk. unfold bind at 1. unfold bind at 1.
  unfold advance at 1. cbn [lexer]. rewrite Hn.
  unfold bind at 1. unfold match_ at 1. unfold bind at 1.
  unfold kind_is at 1. cbn [currentToken]. rewrite (eqb_neq _ _ H1).
  cbn [ret]. cbn [parsePostfix]. unfold bind at 1.
  unfold match_ at 1. unfold bind at 1. unfold kind_is at 1.
  cbn [currentToken]. rewrite (eqb_neq _ _ H2). cbn [ret].
  unfold match_ at 1. unfold bind at 1. unfold bind at 1.
  unfold kind_is at 1.
  cbn [currentToken]. rewrite (eqb_neq _ _ H3). reflexivity.
Qed.

Lemma parseExpression_eq fuel :
  parseExpression next (S fuel) =
    bind (parsePrimary next fuel) (fun lhs => parseBinary next fuel 0 lhs).
Proof. reflexivity. Qed.

Lemma parseBinary_eq fuel exprPrec lhs :
  parseBinary next (S fuel) exprPrec lhs =
    bind current (fun opToken =>
      let rangePrec := getPrecedence (Token.kind opToken) in
      if rangePrec <? exprPrec then ret lhs
      else
        bind (advance next) (fun _ =>
        bind (parsePrimary next fuel) (fun rhs =>
        bind current (fun tok =>
          let nextPrec := getPrecedence (Token.kind tok) in
          bind (if rangePrec <? nextPrec
                then parseBinary next fuel (rangePrec + 1) rhs
                else ret rhs) (fun rhs =>
          parseBinary next fuel exprPrec
            (BinaryExpr None (text_string opToken) lhs rhs)))))).
Proof. reflexivity. Qed.

Lemma parseBinary_stop fuel exprPrec lhs (l : L) (tok : Token.t) :
  getPrecedence (Token.kind tok) < exprPrec ->
  parseBinary next (S fuel) exprPrec lhs (mk l tok) = Ok (lhs, mk l tok).
Proof.
  intros H. rewrite parseBinary_eq. unfold bind at 1.
  cbn [current currentToken]. cbv zeta.
  apply Z.ltb_lt in H. rewrite H. reflexivity.
Qed.

(** One turn of the loop of [parseBinary]: the operator [op] is current,
    its right operand is the variable [rhs], and the token after it binds
    no tighter than [op].  The loop then folds [lhs op rhs] at once and
    goes on with it as the new left operand. *)
Lemma parseBinary_fold_left fuel exprPrec lhs (l l1 l2 : L)
      (op rhs nxt : Token.t) :
  exprPrec <= getPrecedence (Token.kind op) ->
  next l = (rhs, l1) ->
  Token.kind rhs = TokenKind.Identifier ->
  next l1 = (nxt, l2) ->
  ends_operand (Token.kind nxt) ->
  getPrecedence (Token.kind nxt) <= getPrecedence (Token.kind op) ->
  parseBinary next (S (S (S fuel))) exprPrec lhs (mk l op) =
    parseBinary next (S (S fuel)) exprPrec
      (BinaryExpr None (text_string op) lhs
         (VariableExpr None (text_string rhs)))
      (mk l2 nxt).
Proof.
  intros Hprec Hn Hk Hn1 Hends Hnext.
  rewrite parseBinary_eq. unfold bind at 1. cbn [current currentToken].
  cbv zeta. apply Z.ltb_ge in Hprec. rewrite Hprec.
  unfold bind at 1. unfold advance at 1. cbn [lexer]. rewrite Hn.
  unfold bind at 1.
  rewrite (parsePrimary_variable fuel l1 l2 rhs nxt Hk Hn1 Hends).
  unfold bind at 1. cbn [current currentToken].
  apply Z.ltb_ge in Hnext. rewrite Hnext.
  unfold bind at 1. cbn [ret]. reflexivity.
Qed.

End WithLexer.
End ParserFacts.

(** C3 (claim as stated fails): the source a = b = c parses to
    (a = b) = c, which is not the right-nested a = (b = c). *)
Lemma assignment_chain_counterexample :
  parse_expression "a = b = c" =
    Parser.Ok (BinaryExpr None "="
                 (BinaryExpr None "=" (VariableExpr None "a")
                    (VariableExpr None "b"))
                 (VariableExpr None "c")) /\
  parse_expression "a = b = c" <>
    Parser.Ok (BinaryExpr None "=" (VariableExpr None "a")
                 (BinaryExpr None "=" (VariableExpr None "b")
                    (VariableExpr None "c"))).
Proof. split; [reflexivity|]. vm_compute. discriminate. Qed.

(** C3 (amended).  Assignment has the lowest precedence of the binary
    operators, and it is folded to the left like all of them: for every
    chained assignment a = b = c of three identifiers, followed by a token
    that continues neither the operand nor the expression, [parseExpression]
    produces (a = b) = c and stops in front of that token. *)
Theorem assignment_chain_left_assoc {L : Type} (next : L -> Token.t * L)
    (l0 l5 : L) (a eq1 b eq2 c t : Token.t) (fuel : nat) :
  Token.kind a = TokenKind.Identifier ->
  Token.kind eq1 = TokenKind.Equal ->
  Token.kind b = TokenKind.Identifier ->
  Token.kind eq2 = TokenKind.Equal ->
  Token.kind c = TokenKind.Identifier ->
  Parser.reads next l0 [eq1; b; eq2; c; t] l5 ->
  Parser.getPrecedence (Token.kind t) = -1 ->
  Parser.ends_operand (Token.kind t) ->
  (6 <= fuel)%nat ->
  Parser.parseExpression next fuel (Parser.mk l0 a) =
    Parser.Ok
      (BinaryExpr None (Parser.text_string eq2)
         (BinaryExpr None (Parser.text_string eq1)
            (VariableExpr None (Parser.text_string a))
            (VariableExpr None (Parser.text_string b)))
         (VariableExpr None (Parser.text_string c)),
       Parser.mk l5 t) /\
  (forall k, Parser.getPrecedence k <> -1 -> k <> TokenKind.Equal ->
     Parser.getPrecedence TokenKind.Equal < Parser.getPrecedence k).
Proof.
  intros Ha He1 Hb He2 Hc Hreads Ht Hends Hfuel.
  split; [|intros k; destruct k; simpl; intros; try lia; congruence].
  destruct Hreads as (l1 & H0 & l2 & H1 & l3 & H2 & l4 & H3 & l5' & H4 & <-).
  do 6 (destruct fuel as [|fuel]; [lia|]).
  assert (Hop : Parser.ends_operand TokenKind.Equal)
    by (repeat split; discriminate).
  rewrite ParserFacts.parseExpression_eq. unfold Parser.bind at 1.
  rewrite (ParserFacts.parsePrimary_variable next _ l0 l1 a eq1 Ha H0)
    by (rewrite He1; exact Hop).
  rewrite (ParserFacts.parseBinary_fold_left next _ 0 _ l1 l2 l3 eq1 b eq2);
    [ | rewrite He1; simpl; lia | assumption | assumption | assumption
      | rewrite He2; exact Hop | rewrite He1, He2; simpl; lia ].
  rewrite (ParserFacts.parseBinary_fold_left next _ 0 _ l3 l4 l5' eq2 c t);
    [ | rewrite He2; simpl; lia | assumption | assumption | assumption
      | assumption | rewrite He2, Ht; simpl; lia ].
  apply ParserFacts.parseBinary_stop. lia.
Qed.

Lemma assignment_chain_left_assoc_witness :
  Parser.parseExpression Lexer.nextToken 6
      (Parser.new Lexer.nextToken (Lexer.new (Lexer.str "x = y = z"))) =
    Parser.Ok
      (BinaryExpr None "="
         (BinaryExpr None "=" (VariableExpr None "x") (VariableExpr None "y"))
         (VariableExpr None "z"),
       Parser.new Lexer.nextToken
         (Lexer.mk (Lexer.str "x = y = z") 9 1 10 8)).
Proof.
  refine (proj1 (assignment_chain_left_assoc Lexer.nextToken
            (Lexer.mk (Lexer.str "x = y = z") 1 1 2 0)
            (Lexer.mk (Lexer.str "x = y = z") 9 1 10 9)
            (Token.mk TokenKind.Identifier (Lexer.str "x") 1 1)
            (Token.mk TokenKind.Equal (Lexer.str "=") 1 3)
            (Token.mk TokenKind.Identifier (Lexer.str "y") 1 5)
            (Token.mk TokenKind.Equal (Lexer.str "=") 1 7)
            (Token.mk TokenKind.Identifier (Lexer.str "z") 1 9)
            (Token.mk TokenKind.EndOfFile [] 1 10)
            6 eq_refl eq_refl eq_refl eq_refl eq_refl _ eq_refl _ _)).
  - simpl. repeat (eexists; split; [vm_compute; reflexivity|]). reflexivity.
  - repeat split; discriminate.
  - lia.
Defined.

(* ===================================================================== *)
(** * Semantic analysis: type slots and the symbol table *)
(* ===================================================================== *)

Module SemaFacts.
Import Sema SemaSpec.

Lemma Expr_ind_nested (P : Expr -> Prop) :
  (forall t v f b s, P (LiteralExpr t v f b s)) ->
  (forall t name, P (VariableExpr t name)) ->
  (forall t op l r, P l -> P r -> P (BinaryExpr t op l r)) ->
  (forall t callee args, Forall P args -> P (CallExpr t callee args)) ->
  (forall t object member, P object -> P (MemberAccessExpr t object member)) ->
  (forall t object index, P object -> P index -> P (IndexExpr t object index)) ->
  (forall t elements, Forall P elements -> P (ArrayLiteralExpr t elements)) ->
  forall e, P e.
Proof.
  intros HL HV HB HC HM HI HA. fix IH 1. intros e.
  assert (Hlist : forall es : list Expr, Forall P es).
  { fix IHl 1. intros [|x es]; [constructor|].
    constructor; [apply IH|apply IHl]. }
  destruct e as [t v f b s|t name|t op l r|t callee args|t object member
                |t object index|t elements].
  - apply HL.
  - apply HV.
  - apply HB; apply IH.
  - apply HC, Hlist.
  - apply HM, IH.
  - apply HI; apply IH.
  - apply HA, Hlist.
Qed.

Lemma ptr_complete_typed e : ptr_complete (Expr_type e) -> typed e.
Proof. intros (ty & H & _). unfold typed. congruence. Qed.

Lemma visitExpr_Call tbl t callee args :
  visitExpr tbl (CallExpr t callee args) =
    match visitAll tbl args with
    | Some args' =>
        match tbl !! callee with
        | Some (Some (FunctionType returnType _)) =>
            Some (CallExpr returnType callee args')
        | _ => Some (CallExpr (Some VoidType) callee args')
        end
    | None => None
    end.
Proof. reflexivity. Qed.

Lemma visitExpr_ArrayLiteral tbl t elements :
  visitExpr tbl (ArrayLiteralExpr t elements) =
    match elements with
    | [] => Some (ArrayLiteralExpr (Some (ArrayType (Some IntType))) [])
    | _ =>
        match visitAll tbl elements with
        | Some elements' =>
            Some (ArrayLiteralExpr
                    (Some (ArrayType
                             (match elements' with
                              | first :: _ => Expr_type first
                              | [] => None
                              end)))
                    elements')
        | None => None
        end
    end.
Proof. destruct elements; reflexivity. Qed.

Lemma complete_Void_ptr : ptr_complete (Some VoidType).
Proof. exists VoidType. split; [reflexivity|constructor]. Qed.

Lemma complete_Int_ptr : ptr_complete (Some IntType).
Proof. exists IntType. split; [reflexivity|constructor]. Qed.

Lemma getMemberType_complete fields member ty :
  Forall (fun f : string * option Ty =>
            exists ty, f.2 = Some ty /\ Ty_complete ty) fields ->
  getMemberType fields member = Some ty -> Ty_complete ty.
Proof.
  induction 1 as [|f fields (ty' & Hf & Hty) _ IH]; simpl; [discriminate|].
  destruct (bool_decide (f.1 = member)); [|exact IH].
  intros H. rewrite Hf in H. congruence.
Qed.

(** The operand lists of calls and array literals. *)
Lemma visitAll_ok tbl es :
  Forall (fun e => exists e', visitExpr tbl e = Some e' /\ expr_ok e e') es ->
  exists es', visitAll tbl es = Some es' /\
    length es' = length es /\
    Forall (fun e' => ptr_complete (Expr_type e')) es' /\
    Forall typed (flat_map nodes_outside es') /\
    (Forall (fun n => assigns_non_lvalue n = false) (flat_map nodes es) ->
     Forall typed (flat_map nodes es')).
Proof.
  induction 1 as [|e es (e' & He & Hroot & Hout & Hall) _
                    (es' & Hes & Hlen & Hroots & Houts & Halls)].
  - exists []. simpl. repeat split; constructor.
  - exists (e' :: es'). simpl. rewrite He, Hes.
    split; [reflexivity|]. split; [congruence|].
    split; [constructor; assumption|].
    split; [apply Forall_app; split; assumption|].
    intros H. apply Forall_app in H. destruct H as [H1 H2].
    apply Forall_app; split; auto.
Qed.

Lemma visitExpr_Binary tbl t op l r :
  visitExpr tbl (BinaryExpr t op l r) =
    if bool_decide (op = "=") then
      if isValidLHS l then
        match visitExpr tbl l with
        | Some l' =>
            match visitExpr tbl r with
            | Some r' => Some (BinaryExpr (Expr_type r') op l' r')
            | None => None
            end
        | None => None
        end
      else Some (BinaryExpr (Some VoidType) op l r)
    else
      match visitExpr tbl l with
      | Some l' =>
          match visitExpr tbl r with
          | Some r' =>
              match kind_is_Int (Expr_type l') with
              | Some true =>
                  match kind_is_Int (Expr_type r') with
                  | Some true => Some (BinaryExpr (Some IntType) op l' r')
                  | Some false => Some (BinaryExpr (Expr_type l') op l' r')
                  | None => None
                  end
              | Some false => Some (BinaryExpr (Expr_type l') op l' r')
              | None => None
              end
          | None => None
          end
      | None => None
      end.
Proof. reflexivity. Qed.

Lemma kind_is_Int_complete p : ptr_complete p -> exists b, kind_is_Int p = Some b.
Proof. intros (ty & -> & _). simpl. eauto. Qed.

(** The result of a visit whose operands [l'], [r'] are in order. *)
Lemma binary_ok t op l r ty l' r' :
  ptr_complete ty -> expr_ok l l' -> expr_ok r r' ->
  (bool_decide (op = "=") = true -> isValidLHS l = true) ->
  expr_ok (BinaryExpr t op l r) (BinaryExpr ty op l' r').
Proof.
  intros Hty (Hlr & Hlo & Hla) (Hrr & Hro & Hra) Hvalid.
  assert (Htyped : typed (BinaryExpr ty op l' r'))
    by (apply ptr_complete_typed; exact Hty).
  split; [exact Hty|]. split.
  - cbn [nodes_outside]. constructor; [exact Htyped|].
    destruct (assigns_non_lvalue _); [constructor|].
    apply Forall_app; split; assumption.
  - cbn [nodes]. intros H. inversion H as [|? ? _ Hrest]; subst.
    apply Forall_app in Hrest. destruct Hrest as [H1 H2].
    constructor; [exact Htyped|]. apply Forall_app; split; auto.
Qed.

(** Every visit completes and leaves its tree in order, provided the symbol
    table holds complete types. *)
Lemma visitExpr_ok tbl :
  map_Forall (fun _ p => ptr_complete p) tbl ->
  forall e, exists e', visitExpr tbl e = Some e' /\ expr_ok e e'.
Proof.
  intros Htbl.
  apply Expr_ind_nested;
    [intros t v f b s|intros t name|intros t op l r IHl IHr
    |intros t callee args IH|intros t object member IH
    |intros t object index IHo IHi|intros t elements IH].
  - eexists. split; [reflexivity|].
    assert (Hc : ptr_complete (Some (literal_type f b s))).
    { eexists. split; [reflexivity|].
      unfold literal_type. destruct b, s, f; constructor. }
    split; [exact Hc|].
    split; [|intros _]; repeat constructor;
      apply (ptr_complete_typed (LiteralExpr _ v f b s)); exact Hc.
  - simpl. destruct (tbl !! name) as [p|] eqn:E.
    + pose proof (Htbl name p E) as Hc. eexists. split; [reflexivity|].
      split; [exact Hc|].
      split; [|intros _]; repeat constructor;
        apply (ptr_complete_typed (VariableExpr _ name)); exact Hc.
    + eexists. split; [reflexivity|].
      split; [exact complete_Void_ptr|].
      split; [|intros _]; repeat constructor; discriminate.
  - destruct IHl as (l' & Hl & Hlok), IHr as (r' & Hr & Hrok).
    rewrite visitExpr_Binary.
    destruct (bool_decide (op = "=")) eqn:Hop.
    + destruct (isValidLHS l) eqn:Hv.
      * rewrite Hl, Hr. eexists. split; [reflexivity|].
        apply binary_ok; [exact (proj1 Hrok)|assumption|assumption|auto].
      * eexists. split; [reflexivity|].
        split; [exact complete_Void_ptr|]. split.
        -- cbn [nodes_outside assigns_non_lvalue]. rewrite Hop, Hv. simpl.
           repeat constructor. discriminate.
        -- cbn [nodes]. intros H. inversion H as [|? ? Hhd _]; subst.
           cbn [assigns_non_lvalue] in Hhd. rewrite Hop, Hv in Hhd.
           discriminate.
    + rewrite Hl, Hr.
      destruct (kind_is_Int_complete _ (proj1 Hlok)) as [bl ->].
      destruct (kind_is_Int_complete _ (proj1 Hrok)) as [br ->].
      destruct bl; [destruct br|]; eexists; (split; [reflexivity|]);
        (apply binary_ok;
         [first [exact complete_Int_ptr | exact (proj1 Hlok)]
         |assumption|assumption|rewrite Hop; discriminate]).
  - destruct (visitAll_ok tbl args IH)
      as (args' & Hargs & _ & _ & Hout & Hall).
    rewrite visitExpr_Call, Hargs.
    assert (Hfin : forall ty, ptr_complete ty ->
      expr_ok (CallExpr t callee args) (CallExpr ty callee args')).
    { intros ty Hty.
      assert (Htyped : typed (CallExpr ty callee args'))
        by (apply ptr_complete_typed; exact Hty).
      split; [exact Hty|]. split.
      - cbn [nodes_outside]. constructor; assumption.
      - cbn [nodes]. intros H. inversion H; subst.
        constructor; [exact Htyped|auto]. }
    destruct (tbl !! callee) as [[[]|]|] eqn:E;
      eexists; (split; [reflexivity|]); apply Hfin;
      try exact complete_Void_ptr.
    pose proof (Htbl callee _ E) as (ty & Hty & Hc).
    injection Hty as <-. inversion Hc; assumption.
  - destruct IH as (object' & Ho & Horoot & Hoout & Hoall).
    simpl. rewrite Ho.
    assert (Hfin : forall ty, ptr_complete ty ->
      expr_ok (MemberAccessExpr t object member)
              (MemberAccessExpr ty object' member)).
    { intros ty Hty.
      assert (Htyped : typed (MemberAccessExpr ty object' member))
        by (apply ptr_complete_typed; exact Hty).
      split; [exact Hty|]. split.
      - cbn [nodes_outside]. constructor; assumption.
      - cbn [nodes]. intros H. inversion H; subst.
        constructor; [exact Htyped|auto]. }
    destruct Horoot as (oty & Hoty & Hoc). rewrite Hoty.
    destruct oty; try (eexists; split; [reflexivity|];
                       apply Hfin; exact complete_Void_ptr).
    destruct (getMemberType fields member) as [memberType|] eqn:Hm;
      eexists; (split; [reflexivity|]); apply Hfin;
      try exact complete_Void_ptr.
    exists memberType. split; [reflexivity|]. inversion Hoc; subst.
    eapply getMemberType_complete; eassumption.
  - destruct IHo as (object' & Ho & Horoot & Hoout & Hoall).
    destruct IHi as (index' & Hi & Hiroot & Hiout & Hiall).
    simpl. rewrite Ho, Hi.
    assert (Hfin : forall ty, ptr_complete ty ->
      expr_ok (IndexExpr t object index) (IndexExpr ty object' index')).
    { intros ty Hty.
      assert (Htyped : typed (IndexExpr ty object' index'))
        by (apply ptr_complete_typed; exact Hty).
      split; [exact Hty|]. split.
      - cbn [nodes_outside]. constructor; [exact Htyped|].
        apply Forall_app; split; assumption.
      - cbn [nodes]. intros H. inversion H as [|? ? _ Hrest]; subst.
        apply Forall_app in Hrest. destruct Hrest.
        constructor; [exact Htyped|]. apply Forall_app; split; auto. }
    destruct Horoot as (oty & Hoty & Hoc). rewrite Hoty.
    destruct oty; try (eexists; split; [reflexivity|];
                       apply Hfin; exact complete_Void_ptr).
    destruct (kind_is_Int_complete _ Hiroot) as [bi ->].
    eexists. split; [reflexivity|]. apply Hfin.
    inversion Hoc; assumption.
  - destruct (visitAll_ok tbl elements IH)
      as (elements' & Hes & Hlen & Hroots & Hout & Hall).
    rewrite visitExpr_ArrayLiteral.
    assert (Hfin : forall ty, ptr_complete ty ->
      expr_ok (ArrayLiteralExpr t elements) (ArrayLiteralExpr ty elements')).
    { intros ty Hty.
      assert (Htyped : typed (ArrayLiteralExpr ty elements'))
        by (apply ptr_complete_typed; exact Hty).
      split; [exact Hty|]. split.
      - cbn [nodes_outside]. constructor; assumption.
      - cbn [nodes]. intros H. inversion H; subst.
        constructor; [exact Htyped|auto]. }
    destruct elements as [|e0 elements].
    + destruct elements'; [|discriminate].
      eexists. split; [reflexivity|]. apply Hfin.
      eexists. split; [reflexivity|]. constructor. exact complete_Int_ptr.
    + rewrite Hes. eexists. split; [reflexivity|]. apply Hfin.
      eexists. split; [reflexivity|]. constructor.
      destruct elements' as [|first rest]; [discriminate|].
      inversion Hroots; assumption.
Qed.

(** ** Type names *)

Lemma length_substring_le m : forall s, (String.length (substring 0 m s) <= m)%nat.
Proof.
  induction m as [|m IH]; intros [|c s]; simpl; try lia.
  specialize (IH s). lia.
Qed.

Lemma array_element_name_shorter name elem :
  array_element_name name = Some elem ->
  (String.length elem < String.length name)%nat.
Proof.
  unfold array_element_name.
  destruct (Nat.ltb_spec 2 (String.length name)); simpl; [|discriminate].
  destruct (bool_decide _); [|discriminate].
  intros [= <-]. pose proof (length_substring_le (String.length name - 2) name).
  lia.
Qed.

Lemma resolveType_rec_complete defs :
  map_Forall (fun _ (d : string * list (string * option Ty)) =>
                Ty_complete (StructType d.1 d.2)) defs ->
  forall fuel name, (String.length name <= fuel)%nat ->
    ptr_complete (resolveType_rec fuel defs name).
Proof.
  intros Hdefs. induction fuel as [|fuel IH]; intros name Hlen;
    cbn [resolveType_rec];
    repeat (destruct (bool_decide _);
            [eexists; split; [reflexivity|constructor]|]);
    (destruct (defs !! name) as [[sname sfields]|] eqn:E;
     [eexists; split; [reflexivity|exact (Hdefs name _ E)]|]);
    (destruct (array_element_name name) as [elem|] eqn:Ha;
     [pose proof (array_element_name_shorter _ _ Ha) as Hshort
     |eexists; split; [reflexivity|constructor]]).
  - lia.
  - eexists. split; [reflexivity|]. constructor. apply IH. lia.
Qed.

Lemma resolveType_complete tc name :
  state_complete tc -> ptr_complete (resolveType tc name).
Proof. intros [_ H]. apply resolveType_rec_complete; [exact H|lia]. Qed.

Lemma function_type_complete tc params returnTypeName :
  state_complete tc -> ptr_complete (function_type tc params returnTypeName).
Proof.
  intros Hc. eexists. split; [reflexivity|]. constructor.
  - apply resolveType_complete, Hc.
  - apply Forall_map, Forall_forall. intros p _.
    apply resolveType_complete, Hc.
Qed.

Lemma bind_params_complete params : forall tbl paramTypes,
  map_Forall (fun _ p => ptr_complete p) tbl ->
  Forall ptr_complete paramTypes ->
  map_Forall (fun _ p => ptr_complete p) (bind_params tbl params paramTypes).
Proof.
  induction params as [|p params IH]; intros tbl [|ty tys] Htbl Htys;
    simpl; auto.
  inversion Htys; subst. apply IH; [|assumption].
  apply map_Forall_insert_2; assumption.
Qed.

(** ** Statements *)

Lemma Stmt_ind_nested (P : Stmt -> Prop) :
  (forall e, P (ExprStmt e)) ->
  (forall v, P (ReturnStmt v)) ->
  (forall ss, Forall P ss -> P (Block ss)) ->
  (forall c thenB elseB, Forall P thenB ->
     match elseB with Some b => Forall P b | None => True end ->
     P (IfStmt c thenB elseB)) ->
  (forall c body, Forall P body -> P (WhileStmt c body)) ->
  (forall name ty init, P (VarDeclStmt name ty init)) ->
  (forall name params ret body,
     match body with Some b => Forall P b | None => True end ->
     P (FunctionStmt name params ret body)) ->
  (forall name fields, P (StructDeclStmt name fields)) ->
  forall s, P s.
Proof.
  intros HE HR HB HI HW HV HF HS. fix IH 1. intros s.
  assert (Hlist : forall ss : list Stmt, Forall P ss).
  { fix IHl 1. intros [|x ss]; [constructor|].
    constructor; [apply IH|apply IHl]. }
  destruct s as [e|v|ss|c thenB elseB|c body|name ty init
                |name params ret body|name fields].
  - apply HE.
  - apply HR.
  - apply HB, Hlist.
  - apply HI; [apply Hlist|destruct elseB; [apply Hlist|exact I]].
  - apply HW, Hlist.
  - apply HV.
  - apply HF. destruct body; [apply Hlist|exact I].
  - apply HS.
Qed.

Lemma exprs_ok_nil : exprs_ok [] [].
Proof. split; [constructor|intros _; constructor]. Qed.

Lemma exprs_ok_app es1 es1' es2 es2' :
  exprs_ok es1 es1' -> exprs_ok es2 es2' ->
  exprs_ok (es1 ++ es2) (es1' ++ es2').
Proof.
  intros [H1 H1'] [H2 H2']. unfold exprs_ok. rewrite !flat_map_app.
  split; [apply Forall_app; split; assumption|].
  intros H. apply Forall_app in H. destruct H.
  apply Forall_app; split; auto.
Qed.

Lemma exprs_ok_one e e' : expr_ok e e' -> exprs_ok [e] [e'].
Proof.
  intros (_ & H1 & H2). unfold exprs_ok. simpl. rewrite !app_nil_r.
  split; assumption.
Qed.

Lemma exprs_ok_cons e e' es es' :
  expr_ok e e' -> exprs_ok es es' -> exprs_ok (e :: es) (e' :: es').
Proof.
  intros H1 H2. apply (exprs_ok_app [e] [e']); [apply exprs_ok_one|]; assumption.
Qed.

Lemma visitStmt_Block tc ss :
  visitStmt tc (Block ss) =
    match visitBlock tc ss with
    | Some (ss', tc') => Some (Block ss', tc')
    | None => None
    end.
Proof. reflexivity. Qed.

Lemma visitStmt_If tc c thenB elseB :
  visitStmt tc (IfStmt c thenB elseB) =
    match visitExpr (symbolTable tc) c with
    | Some c' =>
        match visitBlock tc thenB with
        | Some (thenB', tc1) =>
            match elseB with
            | Some elseBlock =>
                match visitBlock tc1 elseBlock with
                | Some (elseBlock', tc2) =>
                    Some (IfStmt c' thenB' (Some elseBlock'), tc2)
                | None => None
                end
            | None => Some (IfStmt c' thenB' None, tc1)
            end
        | None => None
        end
    | None => None
    end.
Proof. reflexivity. Qed.

Lemma visitStmt_While tc c body :
  visitStmt tc (WhileStmt c body) =
    match visitExpr (symbolTable tc) c with
    | Some c' =>
        match visitBlock tc body with
        | Some (body', tc1) => Some (WhileStmt c' body', tc1)
        | None => None
        end
    | None => None
    end.
Proof. reflexivity. Qed.

Lemma visitStmt_Function tc name params ret block :
  visitStmt tc (FunctionStmt name params ret (Some block)) =
    match visitBlock (body_state tc name params ret) block with
    | Some (block', tc4) =>
        Some (FunctionStmt name params ret (Some block'),
              set_symbolTable tc4
                (<[name := function_type tc params ret]> (symbolTable tc)))
    | None => None
    end.
Proof. reflexivity. Qed.

Lemma visitBlock_ok ss :
  Forall stmt_visit_ok ss ->
  forall tc, state_complete tc ->
    exists ss' tc', visitBlock tc ss = Some (ss', tc') /\ state_complete tc' /\
      exprs_ok (flat_map Stmt_exprs ss) (flat_map Stmt_exprs ss').
Proof.
  induction 1 as [|s ss Hs _ IH]; intros tc Hc.
  - exists [], tc. split; [reflexivity|]. split; [assumption|apply exprs_ok_nil].
  - destruct (Hs tc Hc) as (s' & tc1 & Hv & Hc1 & Hok).
    destruct (IH tc1 Hc1) as (ss' & tc2 & Hvs & Hc2 & Hoks).
    exists (s' :: ss'), tc2. simpl. rewrite Hv, Hvs.
    split; [reflexivity|]. split; [assumption|].
    apply exprs_ok_app; assumption.
Qed.

Lemma state_complete_insert tc name ty :
  state_complete tc -> ptr_complete ty ->
  state_complete (set_symbolTable tc (<[name := ty]> (symbolTable tc))).
Proof.
  intros [H1 H2] Hty. split; [|exact H2]. simpl.
  apply map_Forall_insert_2; assumption.
Qed.

Lemma body_state_complete tc name params ret :
  state_complete tc -> state_complete (body_state tc name params ret).
Proof.
  intros Hc. split; [|apply Hc]. simpl. apply bind_params_complete.
  - apply map_Forall_insert_2; [|apply Hc].
    apply function_type_complete, Hc.
  - apply Forall_map, Forall_forall. intros p _.
    apply resolveType_complete, Hc.
Qed.

(** Every statement visit completes, keeps the tables complete and leaves
    the statement's expressions in order. *)
Lemma visitStmt_ok : forall s, stmt_visit_ok s.
Proof.
  apply Stmt_ind_nested; unfold stmt_visit_ok.
  - intros e tc Hc.
    destruct (visitExpr_ok _ (proj1 Hc) e) as (e' & He & Hok).
    exists (ExprStmt e'), tc. simpl. rewrite He.
    split; [reflexivity|]. split; [assumption|apply exprs_ok_one, Hok].
  - intros [e|] tc Hc.
    + destruct (visitExpr_ok _ (proj1 Hc) e) as (e' & He & Hok).
      exists (ReturnStmt (Some e')), tc. simpl. rewrite He.
      split; [reflexivity|]. split; [assumption|apply exprs_ok_one, Hok].
    + exists (ReturnStmt None), tc.
      split; [reflexivity|]. split; [assumption|apply exprs_ok_nil].
  - intros ss IH tc Hc.
    destruct (visitBlock_ok ss IH tc Hc) as (ss' & tc' & Hv & Hc' & Hok).
    exists (Block ss'), tc'. rewrite visitStmt_Block, Hv.
    split; [reflexivity|]. split; assumption.
  - intros c thenB elseB IHt IHe tc Hc.
    destruct (visitExpr_ok _ (proj1 Hc) c) as (c' & Hcv & Hcok).
    destruct (visitBlock_ok thenB IHt tc Hc) as (thenB' & tc1 & Ht & Hc1 & Htok).
    rewrite visitStmt_If, Hcv, Ht. destruct elseB as [elseBlock|].
    + destruct (visitBlock_ok elseBlock IHe tc1 Hc1)
        as (elseBlock' & tc2 & He & Hc2 & Heok).
      rewrite He. eexists _, _. split; [reflexivity|]. split; [assumption|].
      cbn [Stmt_exprs]. apply exprs_ok_cons; [assumption|].
      apply exprs_ok_app; assumption.
    + eexists _, _. split; [reflexivity|]. split; [assumption|].
      cbn [Stmt_exprs]. apply exprs_ok_cons; [assumption|].
      apply exprs_ok_app; [assumption|apply exprs_ok_nil].
  - intros c body IH tc Hc.
    destruct (visitExpr_ok _ (proj1 Hc) c) as (c' & Hcv & Hcok).
    destruct (visitBlock_ok body IH tc Hc) as (body' & tc1 & Hb & Hc1 & Hbok).
    rewrite visitStmt_While, Hcv, Hb.
    eexists _, _. split; [reflexivity|]. split; [assumption|].
    cbn [Stmt_exprs]. apply exprs_ok_cons; assumption.
  - intros name ty [init|] tc Hc.
    + destruct (visitExpr_ok _ (proj1 Hc) init) as (init' & Hi & Hiok).
      simpl. rewrite Hi. eexists _, _. split; [reflexivity|]. split.
      * apply state_complete_insert; [assumption|].
        destruct (bool_decide _); [apply Hiok|].
        apply resolveType_complete, Hc.
      * apply exprs_ok_one, Hiok.
    + eexists _, _. split; [reflexivity|]. split; [|apply exprs_ok_nil].
      apply state_complete_insert; [assumption|].
      destruct (bool_decide _); [exact complete_Void_ptr|].
      apply resolveType_complete, Hc.
  - intros name params ret [block|] IH tc Hc.
    + destruct (visitBlock_ok block IH _ (body_state_complete tc name params ret Hc))
        as (block' & tc4 & Hb & Hc4 & Hbok).
      rewrite visitStmt_Function, Hb.
      eexists _, _. split; [reflexivity|]. split; [|exact Hbok].
      split; [|apply Hc4]. simpl.
      apply map_Forall_insert_2; [|apply Hc].
      apply function_type_complete, Hc.
    + eexists _, _. split; [reflexivity|]. split; [|apply exprs_ok_nil].
      apply state_complete_insert; [assumption|].
      apply (function_type_complete tc params ret Hc).
  - intros name fields tc Hc.
    eexists _, _. split; [reflexivity|]. split; [|apply exprs_ok_nil].
    split; [apply Hc|]. simpl.
    apply map_Forall_insert_2; [|apply Hc]. simpl. constructor.
    apply Forall_map, Forall_forall. intros f _. simpl.
    apply resolveType_complete, Hc.
Qed.

Lemma state_complete_new : state_complete new.
Proof. split; apply map_Forall_empty. Qed.

End SemaFacts.

(** C2 (claim as stated fails): the module 1 = 2 parses to one assignment
    whose left side is a literal.  The checker gives the assignment the
    type void and returns without visiting its operands, so the two
    literal nodes keep their null slots. *)
Lemma sema_non_lvalue_counterexample :
  let stmts :=
    [ExprStmt (BinaryExpr None "=" (LiteralExpr None "1" false false false)
                 (LiteralExpr None "2" false false false))] in
  parse_module "1 = 2" = Parser.Ok stmts /\
  exists stmts' tc', Sema.check stmts = Some (stmts', tc') /\
    stmts' =
      [ExprStmt (BinaryExpr (Some VoidType) "="
                   (LiteralExpr None "1" false false false)
                   (LiteralExpr None "2" false false false))] /\
    ~ Forall SemaSpec.typed (SemaSpec.module_nodes stmts').
Proof.
  cbv zeta. split; [reflexivity|].
  eexists _, _. split; [reflexivity|]. split; [reflexivity|].
  intros H. unfold SemaSpec.module_nodes in H. simpl in H.
  inversion H as [|? ? _ H1]; subst. inversion H1 as [|? ? H2 _]; subst.
  apply H2. reflexivity.
Qed.

(** C2 (amended).  Sema completes on every module, and afterwards every
    reachable expression node that does not lie beneath an assignment to a
    non-lvalue has a non-null type slot; in a module without such an
    assignment that is every reachable expression node.  An assignment whose
    left side is not a Variable, MemberAccess or Index expression gets the
    type void itself, and its operands are left unvisited. *)
Theorem sema_types_visited_nodes (stmts : list Stmt) :
  (exists stmts' tc', Sema.check stmts = Some (stmts', tc') /\
     Forall SemaSpec.typed (SemaSpec.module_nodes_outside stmts') /\
     (Forall (fun n => SemaSpec.assigns_non_lvalue n = false)
             (SemaSpec.module_nodes stmts) ->
      Forall SemaSpec.typed (SemaSpec.module_nodes stmts'))) /\
  (forall symbols t l r, Sema.isValidLHS l = false ->
     Sema.visitExpr symbols (BinaryExpr t "=" l r) =
       Some (BinaryExpr (Some VoidType) "=" l r)).
Proof.
  split.
  - destruct (SemaFacts.visitBlock_ok stmts) with (tc := Sema.new)
      as (stmts' & tc' & Hv & _ & Hout & Hall).
    + apply Forall_forall. intros s _. apply SemaFacts.visitStmt_ok.
    + apply SemaFacts.state_complete_new.
    + exists stmts', tc'. split; [exact Hv|]. split; assumption.
  - intros symbols t l r Hl. rewrite SemaFacts.visitExpr_Binary.
    simpl. rewrite Hl. reflexivity.
Qed.

Lemma sema_types_visited_nodes_witness :
  let stmts :=
    [VarDeclStmt "x" "int" (Some (LiteralExpr None "1" false false false));
     ExprStmt (BinaryExpr None "=" (VariableExpr None "x")
                 (BinaryExpr None "+" (VariableExpr None "x")
                    (LiteralExpr None "2" false false false)))] in
  parse_module "var x: int = 1  x = x + 2" = Parser.Ok stmts /\
  exists stmts' tc', Sema.check stmts = Some (stmts', tc') /\
    Forall SemaSpec.typed (SemaSpec.module_nodes stmts').
Proof.
  cbv zeta. split; [reflexivity|].
  destruct (proj1 (sema_types_visited_nodes
    [VarDeclStmt "x" "int" (Some (LiteralExpr None "1" false false false));
     ExprStmt (BinaryExpr None "=" (VariableExpr None "x")
                 (BinaryExpr None "+" (VariableExpr None "x")
                    (LiteralExpr None "2" false false false)))]))
    as (stmts' & tc' & Hv & _ & Hall).
  exists stmts', tc'. split; [exact Hv|]. apply Hall.
  repeat constructor.
Defined.

(** C7.  For every function declaration with a body: whenever Sema's visit
    of it finishes, the symbol table is the table from before the visit with
    the function's own binding added -- the snapshot taken before the
    parameters were inserted is back, so no parameter binding and no binding
    made inside the body remains, and every other name is bound as before.
    The visit does finish in every checker whose tables hold complete types
    (as they do throughout a run of [check]), and it walks the body with
    the function and its parameters bound. *)
Theorem function_scope_restored (tc : Sema.t) (name : string)
    (params : list (string * string)) (returnTypeName : string)
    (block : list Stmt) :
  (forall s' tc',
     Sema.visitStmt tc (FunctionStmt name params returnTypeName (Some block)) =
       Some (s', tc') ->
     Sema.symbolTable tc' =
       <[name := SemaSpec.function_type tc params returnTypeName]>
         (Sema.symbolTable tc) /\
     (forall x, x <> name ->
        Sema.symbolTable tc' !! x = Sema.symbolTable tc !! x)) /\
  (SemaSpec.state_complete tc ->
   exists block' tc4 tc',
     Sema.visitBlock (SemaSpec.body_state tc name params returnTypeName) block =
       Some (block', tc4) /\
     Sema.visitStmt tc (FunctionStmt name params returnTypeName (Some block)) =
       Some (FunctionStmt name params returnTypeName (Some block'), tc')).
Proof.
  split.
  - intros s' tc' H. rewrite SemaFacts.visitStmt_Function in H.
    destruct (Sema.visitBlock _ block) as [[block' tc4]|]; [|discriminate].
    injection H as _ <-. split; [reflexivity|].
    intros x Hx. simpl. apply lookup_insert_ne. congruence.
  - intros Hc.
    destruct (SemaFacts.visitBlock_ok block) with
      (tc := SemaSpec.body_state tc name params returnTypeName)
      as (block' & tc4 & Hb & _ & _).
    + apply Forall_forall. intros s _. apply SemaFacts.visitStmt_ok.
    + apply SemaFacts.body_state_complete, Hc.
    + eexists block', tc4, _. split; [exact Hb|].
      rewrite SemaFacts.visitStmt_Function, Hb. reflexivity.
Qed.

Lemma function_scope_restored_witness :
  exists block' tc',
    Sema.visitStmt Sema.new
      (FunctionStmt "f" [("a", "int")] "int"
         (Some [VarDeclStmt "y" "int" (Some (VariableExpr None "a"));
                ReturnStmt (Some (VariableExpr None "y"))])) =
      Some (FunctionStmt "f" [("a", "int")] "int" (Some block'), tc') /\
    Sema.symbolTable tc' !! "a" = None /\
    Sema.symbolTable tc' !! "y" = None /\
    Sema.symbolTable tc' !! "f" =
      Some (Some (FunctionType (Some IntType) [Some IntType])).
Proof.
  destruct (function_scope_restored Sema.new "f" [("a", "int")] "int"
              [VarDeclStmt "y" "int" (Some (VariableExpr None "a"));
               ReturnStmt (Some (VariableExpr None "y"))])
    as (Hrestored & Hfinishes).
  destruct (Hfinishes SemaFacts.state_complete_new)
    as (block' & tc4 & tc' & _ & Hv).
  destruct (Hrestored _ _ Hv) as (Htbl & Hother).
  exists block', tc'. split; [exact Hv|].
  split; [rewrite Hother; [reflexivity|discriminate]|].
  split; [rewrite Hother; [reflexivity|discriminate]|].
  rewrite Htbl. apply lookup_insert_eq.
Defined.

(* ===================================================================== *)
(** * Code generation: what a run never undoes *)
(* ===================================================================== *)

Module CodeGenFacts.
Import CodeGen.

Lemma extends_refl cg : extends cg cg.
Proof. split; [exists []; symmetry; apply app_nil_r|auto]. Qed.

Lemma extends_trans cg1 cg2 cg3 :
  extends cg1 cg2 -> extends cg2 cg3 -> extends cg1 cg3.
Proof.
  intros [[fs1 H1] S1] [[fs2 H2] S2]. split.
  - exists (fs1 ++ fs2). rewrite H2, H1. symmetry. apply app_assoc.
  - intros n ty m Ht Hm. destruct (S1 n ty m Ht Hm) as [Ht' Hm']. auto.
Qed.

Lemma extends_same cg cg' :
  functions cg' = functions cg -> structTypes cg' = structTypes cg ->
  structFieldIndices cg' = structFieldIndices cg -> extends cg cg'.
Proof.
  intros Hf Ht Hm. split.
  - exists []. rewrite Hf. symmetry. apply app_nil_r.
  - intros n ty m. rewrite Ht, Hm. auto.
Qed.

Lemma preserves_ret {A} (a : A) : preserves (ret a).
Proof. intros cg a' cg' [= _ <-]. apply extends_refl. Qed.

Lemma preserves_throw {A} : preserves (@throw A).
Proof. intros cg a cg' H. discriminate. Qed.

Lemma preserves_gets {A} (f : t -> A) : preserves (gets f).
Proof. intros cg a cg' [= _ <-]. apply extends_refl. Qed.

Lemma preserves_bind {A B} (m : M A) (k : A -> M B) :
  preserves m -> (forall a, preserves (k a)) -> preserves (bind m k).
Proof.
  intros Hm Hk cg b cg' H. unfold bind in H.
  destruct (m cg) as [[a cg1]|] eqn:E; [|discriminate].
  eapply extends_trans; [eapply Hm|eapply Hk]; eassumption.
Qed.

Lemma preserves_modify (f : t -> t) :
  (forall cg, extends cg (f cg)) -> preserves (modify f).
Proof. intros Hf cg a cg' [= _ <-]. apply Hf. Qed.

Create HintDb pres discriminated.

Ltac pres_same :=
  apply preserves_modify; intros ?; apply extends_same; reflexivity.

Ltac pres_step :=
  match goal with
  | |- preserves (ret _) => apply preserves_ret
  | |- preserves throw => apply preserves_throw
  | |- preserves (gets _) => apply preserves_gets
  | |- preserves (bind _ _) => apply preserves_bind; [|intros ?]
  | |- preserves (modify _) => pres_same
  | |- preserves (let _ := _ in _) => cbv zeta
  | |- preserves (match ?x with _ => _ end) => destruct x
  | |- preserves _ => solve [auto with pres]
  end.

Ltac pres := repeat pres_step.

(** Actions given as raw state functions that change neither the module
    nor the struct maps. *)
Ltac pres_raw :=
  intros cg a cg' H;
  repeat match type of H with
         | context [match ?x with _ => _ end] => destruct x eqn:?
         end;
  try discriminate; injection H as _ <-; apply extends_same; reflexivity.

Lemma preserves_setLastValue v : preserves (setLastValue v).
Proof. unfold setLastValue. pres. Qed.

Lemma preserves_freshId : preserves freshId.
Proof. unfold freshId. pres_raw. Qed.

Lemma preserves_createBlock name parent : preserves (createBlock name parent).
Proof. unfold createBlock. pres_raw. Qed.

Lemma preserves_insertInto func b : preserves (insertInto func b).
Proof.
  unfold insertInto. apply preserves_modify. intros cg.
  destruct (blocks cg !! b); [apply extends_same; reflexivity|apply extends_refl].
Qed.

Lemma preserves_setInsertPoint b : preserves (setInsertPoint b).
Proof. unfold setInsertPoint. pres. Qed.

Lemma preserves_currentBlock : preserves currentBlock.
Proof. unfold currentBlock. pres_raw. Qed.

#[global] Hint Resolve preserves_setLastValue preserves_freshId
  preserves_createBlock preserves_insertInto preserves_setInsertPoint
  preserves_currentBlock : pres.

Lemma preserves_unterminated : preserves unterminated.
Proof. unfold unterminated. pres. Qed.

Lemma preserves_currentFunction : preserves currentFunction.
Proof. unfold currentFunction. pres. Qed.

Lemma preserves_emit i : preserves (emit i).
Proof.
  unfold emit. apply preserves_modify. intros cg.
  destruct (insertBlock cg); [apply extends_same; reflexivity|apply extends_refl].
Qed.

#[global] Hint Resolve preserves_unterminated preserves_currentFunction
  preserves_emit : pres.

Lemma preserves_createEntryBlockAlloca func varName type :
  preserves (createEntryBlockAlloca func varName type).
Proof.
  unfold createEntryBlockAlloca. apply preserves_bind; [auto with pres|].
  intros id. pres_raw.
Qed.

Lemma preserves_createLoad ty ptr name : preserves (createLoad ty ptr name).
Proof. unfold createLoad. pres. Qed.

Lemma preserves_createStore val ptr : preserves (createStore val ptr).
Proof. unfold createStore. pres. Qed.

Lemma preserves_createBinary op l r name : preserves (createBinary op l r name).
Proof. unfold createBinary. pres. Qed.

Lemma preserves_createICmp pred l r name : preserves (createICmp pred l r name).
Proof. unfold createICmp. pres. Qed.

Lemma preserves_createGEP ty base indices name :
  preserves (createGEP ty base indices name).
Proof. unfold createGEP. pres. Qed.

Lemma preserves_createCall callee args name :
  preserves (createCall callee args name).
Proof. unfold createCall. pres. Qed.

#[global] Hint Resolve preserves_createEntryBlockAlloca preserves_createLoad
  preserves_createStore preserves_createBinary preserves_createICmp
  preserves_createGEP preserves_createCall : pres.

Lemma preserves_toBool condV name : preserves (toBool condV name).
Proof. unfold toBool. pres. Qed.

Lemma preserves_getType typeName : preserves (getType typeName).
Proof. unfold getType. pres. Qed.

Lemma preserves_getFunction name : preserves (getFunction name).
Proof. unfold getFunction. pres. Qed.

(** A new function goes to the end of the module. *)
Lemma createFunction_spec name returnType paramTypes cg :
  exists name' counter,
    createFunction name returnType paramTypes cg =
      Some (length (functions cg),
            set_functions cg
              (functions cg ++ [IR.mkFunction name' returnType paramTypes])
              counter) /\
    (name_taken (functions cg) name = false -> name' = name).
Proof.
  unfold createFunction. destruct (name_taken (functions cg) name).
  - destruct (makeUniqueName _ _ _ _) as [name' counter].
    exists name', counter. split; [reflexivity|discriminate].
  - exists name, (lastUnique cg). split; [reflexivity|auto].
Qed.

Lemma preserves_createFunction name returnType paramTypes :
  preserves (createFunction name returnType paramTypes).
Proof.
  intros cg a cg' H.
  destruct (createFunction_spec name returnType paramTypes cg)
    as (name' & counter & E & _).
  rewrite E in H. injection H as _ <-. split; [eexists; reflexivity|auto].
Qed.

#[global] Hint Resolve preserves_toBool preserves_getType
  preserves_getFunction preserves_createFunction : pres.

Lemma preserves_getMalloc : preserves getMalloc.
Proof. unfold getMalloc. pres. Qed.

#[global] Hint Resolve preserves_getMalloc : pres.

Section Visitors.
Context (stod_ok : string -> bool) (getTypeAllocSize : IR.Ty -> Z).

Lemma preserves_visitLiteral value isFloat isBool isString :
  preserves (visitLiteral stod_ok value isFloat isBool isString).
Proof. unfold visitLiteral. pres. Qed.

Lemma preserves_visitVariable name : preserves (visitVariable name).
Proof. unfold visitVariable. pres. Qed.

Lemma preserves_binaryOp op l r : preserves (binaryOp op l r).
Proof. unfold binaryOp. pres. Qed.

(** Reading a field index re-enters the struct's index map under its own
    name; for a registered struct that changes nothing. *)
Lemma extends_reenter cg name :
  extends cg
    (set_structs cg (structTypes cg)
       (<[name := default ∅ (structFieldIndices cg !! name)]>
          (structFieldIndices cg))).
Proof.
  split; [exists []; symmetry; apply app_nil_r|].
  intros n ty m Ht Hm. split; [exact Ht|]. simpl.
  destruct (decide (name = n)) as [->|Hne].
  - rewrite Hm. simpl. apply lookup_insert_eq.
  - rewrite lookup_insert_ne by assumption. exact Hm.
Qed.

Lemma preserves_memberAddress base objectType member :
  preserves (memberAddress base objectType member).
Proof.
  unfold memberAddress. destruct base as [base|]; [|pres].
  destruct objectType as [[| | | | |structName fields| |]|];
    try solve [pres].
  intros cg r cg' H. unfold bind at 1, gets at 1 in H.
  destruct (structTypes cg !! structName) as [st|] eqn:Hst.
  - unfold bind at 1, gets at 1 in H. unfold bind at 1, modify at 1 in H.
    eapply extends_trans; [apply (extends_reenter cg structName)|].
    destruct (default ∅ (structFieldIndices cg !! structName) !! member)
      as [idx|].
    + revert H. apply preserves_bind; [auto with pres|].
      intros addr. apply preserves_ret.
    + injection H as _ <-. apply extends_refl.
  - injection H as _ <-. apply extends_refl.
Qed.

Lemma preserves_indexAddress arrayPtr indexVal objectType :
  preserves (indexAddress arrayPtr indexVal objectType).
Proof. unfold indexAddress. pres. Qed.

Lemma preserves_memberLoad addr type : preserves (memberLoad addr type).
Proof. unfold memberLoad. pres. Qed.

Lemma preserves_indexLoad addr type : preserves (indexLoad addr type).
Proof. unfold indexLoad. pres. Qed.

End Visitors.

#[global] Hint Resolve preserves_visitLiteral preserves_visitVariable
  preserves_binaryOp preserves_memberAddress preserves_indexAddress
  preserves_memberLoad preserves_indexLoad : pres.

Section Visitors.
Context (stod_ok : string -> bool) (getTypeAllocSize : IR.Ty -> Z).

#[local] Abbreviation visitExpr := (visitExpr stod_ok getTypeAllocSize).
#[local] Abbreviation getLValueAddress := (getLValueAddress stod_ok getTypeAllocSize).
#[local] Abbreviation visitArgs := (visitArgs stod_ok getTypeAllocSize).
#[local] Abbreviation storeElements := (storeElements stod_ok getTypeAllocSize).

Lemma lower_Call t calleeName args :
  visitExpr (CallExpr t calleeName args) =
    bind (getFunction calleeName) (fun callee =>
      match callee with
      | None => setLastValue None
      | Some callee =>
          bind (gets functions) (fun fs =>
            match fs !! callee with
            | None => throw
            | Some f =>
                if bool_decide (length (IR.paramTypes f) = length args) then
                  bind (visitArgs args) (fun argsV =>
                    match argsV with
                    | None => ret tt
                    | Some argsV =>
                        bind (createCall callee argsV "calltmp") (fun v =>
                          setLastValue (Some v))
                    end)
                else setLastValue None
            end)
      end).
Proof. reflexivity. Qed.

Lemma lower_ArrayLiteral type elements :
  visitExpr (ArrayLiteralExpr type elements) =
    bind (gets structTypes) (fun structs =>
      let elemType := literalElemType structs type in
      bind getMalloc (fun mallocFunc =>
        bind (createCall mallocFunc
                [IR.ConstantInt 64
                   ((getTypeAllocSize elemType * Z.of_nat (length elements))
                    mod 2 ^ 64)] "malloccall") (fun arrayPtr =>
          bind (storeElements elemType arrayPtr 0 elements) (fun _ =>
            setLastValue (Some arrayPtr))))).
Proof. reflexivity. Qed.

Lemma preserves_visitArgs args :
  Forall (fun e => preserves (visitExpr e)) args -> preserves (visitArgs args).
Proof.
  induction 1 as [|arg args Harg _ IH]; cbn [CodeGen.visitArgs];
    [apply preserves_ret|].
  fold visitArgs. pres; try assumption.
Qed.

Lemma preserves_storeElements elemType arrayPtr elements :
  Forall (fun e => preserves (visitExpr e)) elements ->
  forall i, preserves (storeElements elemType arrayPtr i elements).
Proof.
  induction 1 as [|e elements He _ IH]; intros i; cbn [CodeGen.storeElements];
    [apply preserves_ret|].
  pres; try assumption; apply IH.
Qed.

(** Lowering an expression, as a value or as an address. *)
Lemma preserves_expr :
  forall e, preserves (visitExpr e) /\ preserves (getLValueAddress e).
Proof.
  apply SemaFacts.Expr_ind_nested.
  - intros t v f b s. split; cbn; pres.
  - intros t name. split; cbn; pres.
  - intros t op l r [Hl Hla] [Hr Hra]. split; cbn; pres; try assumption.
  - intros t callee args IH. split; [|cbn; pres].
    rewrite lower_Call. pres. apply preserves_visitArgs.
    eapply Forall_impl; [exact IH|]. intros e He. apply He.
  - intros t object member [Ho Hoa]. split; cbn; pres; try assumption.
  - intros t object index [Ho Hoa] [Hi Hia]. split; cbn; pres; try assumption.
  - intros t elements IH. split; [|cbn; pres].
    rewrite lower_ArrayLiteral. pres. apply preserves_storeElements.
    eapply Forall_impl; [exact IH|]. intros e He. apply He.
Qed.

Lemma preserves_visitExpr e : preserves (visitExpr e).
Proof. apply preserves_expr. Qed.

End Visitors.

#[global] Hint Resolve preserves_visitExpr : pres.

Section Statements.
Context (stod_ok : string -> bool) (getTypeAllocSize : IR.Ty -> Z).

#[local] Abbreviation visitExpr := (visitExpr stod_ok getTypeAllocSize).
#[local] Abbreviation visitStmt := (visitStmt stod_ok getTypeAllocSize).
#[local] Abbreviation visitBlock := (visitBlock stod_ok getTypeAllocSize).

#[local] Notation "'let*' x ':=' m 'in' k" := (bind m (fun x => k))
  (at level 10, x name, m at level 100, k at level 200, only parsing).

Lemma visitStmt_unfold s :
  visitStmt s =
  match s with
  | ExprStmt expr => visitExpr expr
  | ReturnStmt (Some value) =>
      let* _ := visitExpr value in
      let* v := gets lastValue in
      emit (IR.Ret v)
  | ReturnStmt None => emit (IR.Ret None)
  | Block statements => visitBlock statements
  | IfStmt condition thenBranch elseBranch =>
      let* _ := visitExpr condition in
      let* condV := gets lastValue in
      match condV with
      | None => ret tt
      | Some condV =>
          let* condV := toBool condV "ifcond" in
          let* func := currentFunction in
          let* thenBB := createBlock "then" (Some func) in
          let* elseBB := createBlock "else" None in
          let* mergeBB := createBlock "ifcont" None in
          let hasElse := bool_decide (elseBranch <> None) in
          let* _ := emit (IR.CondBr condV thenBB
                            (if hasElse then elseBB else mergeBB)) in
          let* _ := setInsertPoint thenBB in
          let* _ := visitBlock thenBranch in
          let* open := unterminated in
          let* _ := (if open then emit (IR.Br mergeBB) else ret tt) in
          let* _ :=
            match elseBranch with
            | Some elseBlock =>
                let* _ := insertInto func elseBB in
                let* _ := setInsertPoint elseBB in
                let* _ := visitBlock elseBlock in
                let* open := unterminated in
                if open then emit (IR.Br mergeBB) else ret tt
            | None => ret tt
            end in
          let* _ := insertInto func mergeBB in
          setInsertPoint mergeBB
      end
  | WhileStmt condition body =>
      let* func := currentFunction in
      let* condBB := createBlock "whilecond" (Some func) in
      let* loopBB := createBlock "whilebody" None in
      let* afterBB := createBlock "afterwhile" None in
      let* _ := emit (IR.Br condBB) in
      let* _ := setInsertPoint condBB in
      let* _ := visitExpr condition in
      let* condV := gets lastValue in
      match condV with
      | None => ret tt
      | Some condV =>
          let* condV := toBool condV "loopcond" in
          let* _ := emit (IR.CondBr condV loopBB afterBB) in
          let* _ := insertInto func loopBB in
          let* _ := setInsertPoint loopBB in
          let* _ := visitBlock body in
          let* open := unterminated in
          let* _ := (if open then emit (IR.Br condBB) else ret tt) in
          let* _ := insertInto func afterBB in
          setInsertPoint afterBB
      end
  | VarDeclStmt name typeName initializer =>
      let* func := currentFunction in
      let* initVal :=
        match initializer with
        | Some init => let* _ := visitExpr init in gets lastValue
        | None => ret None
        end in
      let* varType :=
        if negb (bool_decide (typeName = EmptyString)) then
          let* ty := getType typeName in ret (Some ty)
        else ret (option_map IR.getType initVal) in
      match varType with
      | None => ret tt
      | Some varType =>
          let* alloca := createEntryBlockAlloca func name varType in
          let* _ :=
            createStore (default (IR.NullValue varType) initVal)
              (IR.AllocaInst_value alloca) in
          modify (fun cg =>
            set_namedValues cg (<[name := Some alloca]> (namedValues cg)))
      end
  | FunctionStmt name params returnTypeName body =>
      let* proto := beginFunction name params returnTypeName in
      let '(func, retType) := proto in
      match body with
      | None => ret tt
      | Some block =>
          let* oldBB := gets insertBlock in
          let* oldNamedValues := gets namedValues in
          let* _ := enterBody func params in
          let* _ := visitBlock block in
          finishFunction returnTypeName retType oldBB oldNamedValues
      end
  | StructDeclStmt name fields => visitStructDecl name fields
  end.
Proof. destruct s as [| [|] | | | | | |]; reflexivity. Qed.

Lemma preserves_bindArguments func params argTypes :
  forall idx, preserves (bindArguments func idx params argTypes).
Proof.
  revert params. induction argTypes as [|ty tys IH]; intros params idx;
    cbn [bindArguments]; [apply preserves_ret|].
  destruct params as [|param params]; pres; apply IH.
Qed.

Lemma preserves_finishFunction rt retTy oldBB oldNV :
  preserves (finishFunction rt retTy oldBB oldNV).
Proof. unfold finishFunction. pres. Qed.

(** Registering a struct touches no struct that is registered already. *)
Lemma preserves_visitStructDecl name fields :
  preserves (visitStructDecl name fields).
Proof.
  intros cg r cg' H. unfold visitStructDecl, bind, gets in H.
  destruct (structTypes cg !! name) as [st|] eqn:Hst.
  - injection H as _ <-. apply extends_refl.
  - injection H as _ <-. split; [exists []; symmetry; apply app_nil_r|].
    intros n ty m Ht Hm. simpl.
    assert (Hne : name <> n) by congruence.
    rewrite !lookup_insert_ne by assumption. auto.
Qed.

Lemma preserves_beginFunction name params rt :
  preserves (beginFunction name params rt).
Proof. unfold beginFunction. pres. Qed.

Lemma preserves_enterBody func params : preserves (enterBody func params).
Proof. unfold enterBody. pres; apply preserves_bindArguments. Qed.

Lemma preserves_visitBlock ss :
  Forall (fun s => preserves (visitStmt s)) ss -> preserves (visitBlock ss).
Proof.
  induction 1 as [|s ss Hs _ IH]; cbn [CodeGen.visitBlock];
    [apply preserves_ret|].
  apply preserves_bind; [exact Hs|intros _; exact IH].
Qed.

Lemma preserves_visitStmt : forall s, preserves (visitStmt s).
Proof.
  pose proof preserves_bindArguments. pose proof preserves_finishFunction.
  pose proof preserves_visitStructDecl. pose proof preserves_beginFunction.
  pose proof preserves_enterBody. pose proof preserves_visitBlock.
  apply SemaFacts.Stmt_ind_nested; intros; rewrite visitStmt_unfold;
    pres.
Qed.

Lemma preserves_visitBlock_all ss : preserves (visitBlock ss).
Proof.
  apply preserves_visitBlock, Forall_forall. intros s _.
  apply preserves_visitStmt.
Qed.

Lemma preserves_generate stmts :
  preserves (generate stod_ok getTypeAllocSize stmts).
Proof.
  pose proof preserves_visitBlock_all. unfold generate. pres.
Qed.

(** ** Function names *)

Lemma name_taken_app fs fs' name :
  name_taken fs name = true -> name_taken (fs ++ fs') name = true.
Proof.
  unfold name_taken. intros H. apply andb_true_iff in H. destruct H as [H1 H2].
  rewrite H2, existsb_app, H1. reflexivity.
Qed.

Lemma extends_name_taken cg cg' name :
  extends cg cg' -> name_taken (functions cg) name = true ->
  name_taken (functions cg') name = true.
Proof. intros [[fs ->] _]. apply name_taken_app. Qed.

Lemma createFunction_taken name returnType paramTypes cg func cg' :
  name <> EmptyString ->
  createFunction name returnType paramTypes cg = Some (func, cg') ->
  name_taken (functions cg') name = true.
Proof.
  intros Hne H.
  destruct (createFunction_spec name returnType paramTypes cg)
    as (name' & counter & E & Hname).
  rewrite E in H. injection H as _ <-. simpl.
  destruct (name_taken (functions cg) name) eqn:Ht.
  - apply name_taken_app. exact Ht.
  - rewrite (Hname eq_refl). unfold name_taken.
    rewrite (bool_decide_eq_false_2 (name = EmptyString)) by assumption.
    rewrite existsb_app. simpl. rewrite bool_decide_eq_true_2 by reflexivity.
    rewrite orb_true_r. reflexivity.
Qed.

(** After the visit of a function declaration the module has a function of
    that name. *)
Lemma visitStmt_Function_taken name params rt body cg cg' :
  name <> EmptyString ->
  visitStmt (FunctionStmt name params rt body) cg = Some (tt, cg') ->
  name_taken (functions cg') name = true.
Proof.
  intros Hne H. rewrite visitStmt_unfold in H. unfold bind at 1 in H.
  destruct (beginFunction name params rt cg) as [[[func retTy] cg1]|] eqn:E;
    [|discriminate].
  assert (Ht : name_taken (functions cg1) name = true).
  { cbv [beginFunction getType bind gets ret] in E.
    destruct (createFunction name _ _ cg) as [[f cg2]|] eqn:Ec; [|discriminate].
    injection E as _ _ <-. eapply createFunction_taken; eassumption. }
  eapply extends_name_taken; [|exact Ht].
  refine ((_ : preserves
    match body with
    | Some block =>
        bind (gets insertBlock) (fun oldBB =>
          bind (gets namedValues) (fun oldNamedValues =>
            bind (enterBody func params) (fun _ =>
              bind (visitBlock block) (fun _ =>
                finishFunction rt retTy oldBB oldNamedValues))))
    | None => ret tt
    end) cg1 tt cg' H).
  pose proof preserves_finishFunction. pose proof preserves_enterBody.
  pose proof preserves_visitBlock_all. pres.
Qed.

Lemma visitBlock_declares_main ss : forall cg cg',
  hasUserMain ss = true ->
  visitBlock ss cg = Some (tt, cg') ->
  name_taken (functions cg') "main" = true.
Proof.
  induction ss as [|s ss IH]; intros cg cg' Hmain H; [discriminate|].
  cbn [CodeGen.visitBlock] in H. unfold bind at 1 in H.
  destruct (visitStmt s cg) as [[[] cg1]|] eqn:Es; [|discriminate].
  unfold hasUserMain in Hmain. simpl in Hmain.
  apply orb_true_iff in Hmain. destruct Hmain as [Hs|Hss].
  - destruct s; try discriminate. simpl in Hs.
    apply bool_decide_eq_true in Hs. subst name.
    eapply extends_name_taken; [eapply preserves_visitBlock_all; exact H|].
    eapply visitStmt_Function_taken; [|exact Es]. discriminate.
  - eapply IH; eassumption.
Qed.

(** ** The end of a function *)

Lemma visitStmt_Function_split name params rt block cg :
  visitStmt (FunctionStmt name params rt (Some block)) cg =
    match lowerFunctionBody stod_ok getTypeAllocSize name params rt block cg with
    | Some ((func, retTy, oldBB, oldNV), cg1) =>
        finishFunction rt retTy oldBB oldNV cg1
    | None => None
    end.
Proof.
  rewrite visitStmt_unfold. unfold lowerFunctionBody.
  cbv [bind gets ret]. destruct (beginFunction name params rt cg)
    as [[[func retTy] cg0]|]; [|reflexivity].
  cbn [fst snd].
  destruct (enterBody func params cg0) as [[[] cg2]|]; [|reflexivity].
  destruct (visitBlock block cg2) as [[[] cg3]|]; reflexivity.
Qed.

Lemma lowerFunctionBody_function name params rt block cg func retTy oldBB oldNV
      cg1 :
  lowerFunctionBody stod_ok getTypeAllocSize name params rt block cg =
    Some ((func, retTy, oldBB, oldNV), cg1) ->
  retTy = getType_rec (String.length rt) (structTypes cg) rt /\
  exists f fs, functions cg1 = functions cg ++ f :: fs /\
    func = length (functions cg) /\ IR.returnType f = retTy.
Proof.
  intros H. unfold lowerFunctionBody in H. unfold bind at 1 in H.
  destruct (beginFunction name params rt cg) as [[[func0 retTy0] cg0]|] eqn:E;
    [|discriminate].
  assert (X : extends cg0 cg1 /\ func0 = func /\ retTy0 = retTy).
  { cbv [bind gets ret] in H. cbn [fst snd] in H.
    destruct (enterBody func0 params cg0) as [[[] cg2]|] eqn:E2; [|discriminate].
    destruct (visitBlock block cg2) as [[[] cg3]|] eqn:E3; [|discriminate].
    injection H as <- <- _ _ <-. split; [|auto].
    eapply extends_trans.
    - eapply preserves_enterBody; exact E2.
    - eapply preserves_visitBlock_all; exact E3. }
  destruct X as ([[fs Hfs] _] & -> & ->).
  cbv [beginFunction getType bind gets ret] in E.
  match type of E with
  | context [createFunction ?n ?r ?ps cg] =>
      destruct (createFunction_spec n r ps cg) as (name' & counter & Ec & _)
  end.
  rewrite Ec in E. injection E as <- <- <-. split; [reflexivity|].
  eexists (IR.mkFunction name' _ _), fs. split; [|split; reflexivity].
  rewrite Hfs. simpl. rewrite <- app_assoc. reflexivity.
Qed.

Lemma append_instr_lookup b i bs bb :
  bs !! b = Some bb ->
  append_instr b i bs !! b =
    Some (IR.mkBlock (IR.bname bb) (IR.parent bb) (IR.instrs bb ++ [i])).
Proof.
  intros H. unfold append_instr. rewrite H.
  apply list_lookup_insert_eq. eapply lookup_lt_Some. exact H.
Qed.

(** [finishFunction] on a generator whose insertion block is [b]. *)
Lemma finishFunction_spec rt retTy oldBB oldNV cg1 b bb :
  insertBlock cg1 = Some b -> blocks cg1 !! b = Some bb ->
  exists cg',
    finishFunction rt retTy oldBB oldNV cg1 = Some (tt, cg') /\
    functions cg' = functions cg1 /\
    blocks cg' !! b =
      Some (IR.mkBlock (IR.bname bb) (IR.parent bb)
              (IR.instrs bb ++
               if bool_decide (IR.getTerminator bb = None)
               then [fabricatedReturn rt retTy] else [])).
Proof.
  intros Hb Hbb. unfold finishFunction, unterminated.
  cbv [bind ret currentBlock]. rewrite Hb, Hbb.
  destruct (bool_decide (IR.getTerminator bb = None)).
  - cbv [emit modify]. rewrite Hb.
    destruct oldBB as [old|]; cbv [setInsertPoint modify];
      (eexists; split; [reflexivity|]; split; [reflexivity|]);
      simpl; apply append_instr_lookup; exact Hbb.
  - destruct oldBB as [old|]; cbv [setInsertPoint modify];
      (eexists; split; [reflexivity|]; split; [reflexivity|]);
      simpl; rewrite Hbb, app_nil_r; destruct bb; reflexivity.
Qed.

End Statements.

End CodeGenFacts.

(* ===================================================================== *)
(** * Code generation claims *)
(* ===================================================================== *)

(** C4 (claim as stated fails): for the module def main() end the user did
    declare a function named main, and the generated module still contains
    a function named main -- the user's own, next to the implicit entry
    function, which is named __init. *)
Lemma entry_point_counterexample :
  exists stmts tc cg,
    compile any_float eight_bytes "def main() end" = Some (stmts, tc, cg) /\
    CodeGen.hasUserMain stmts = true /\
    map IR.fname (CodeGen.functions cg) = ["__init"; "main"] /\
    CodeGen.name_taken (CodeGen.functions cg) "main" = true.
Proof. vm_compute. eexists _, _, _. repeat split. Qed.

(** C4 (amended).  Whenever [generate] completes on a fresh generator, the
    first function of the module is the implicit entry function: its
    signature is () -> 64-bit integer, and it is named main if and only if
    the user declared no top-level function named main; when the user did,
    it is named __init and the module contains a function named main after
    it.  Either way the module contains a function named main. *)
Theorem entry_point_name (stod_ok : string -> bool)
    (getTypeAllocSize : IR.Ty -> Z) (stmts : list Stmt) (cg : CodeGen.t) :
  CodeGen.generate stod_ok getTypeAllocSize stmts CodeGen.new = Some (tt, cg) ->
  exists rest,
    CodeGen.functions cg =
      IR.mkFunction (CodeGen.entryName stmts) (IR.IntegerTy 64) [] :: rest /\
    (CodeGen.entryName stmts = "main" <-> CodeGen.hasUserMain stmts = false) /\
    (CodeGen.hasUserMain stmts = true ->
     CodeGen.entryName stmts = "__init" /\
     CodeGen.name_taken rest "main" = true) /\
    CodeGen.name_taken (CodeGen.functions cg) "main" = true.
Proof.
  intros H. unfold CodeGen.generate in H. unfold CodeGen.bind at 1 in H.
  set (entry := IR.mkFunction (CodeGen.entryName stmts) (IR.IntegerTy 64) []).
  change (CodeGen.createFunction (CodeGen.entryName stmts) (IR.IntegerTy 64) []
            CodeGen.new)
    with (Some (0%nat, CodeGen.set_functions CodeGen.new [entry] 0)) in H.
  set (cg0 := CodeGen.set_functions CodeGen.new [entry] 0) in H.
  unfold CodeGen.bind at 1 in H.
  destruct (CodeGen.createBlock "entry" (Some 0%nat) cg0) as [[bb cg1]|] eqn:E1;
    [|discriminate].
  unfold CodeGen.bind at 1 in H.
  destruct (CodeGen.setInsertPoint bb cg1) as [[[] cg2]|] eqn:E2;
    [|discriminate].
  unfold CodeGen.bind at 1 in H.
  destruct (CodeGen.visitBlock stod_ok getTypeAllocSize stmts cg2)
    as [[[] cg3]|] eqn:E3; [|discriminate].
  assert (X01 : CodeGen.extends cg0 cg1)
    by (eapply CodeGenFacts.preserves_createBlock; exact E1).
  assert (X12 : CodeGen.extends cg1 cg2)
    by (eapply CodeGenFacts.preserves_setInsertPoint; exact E2).
  assert (X23 : CodeGen.extends cg2 cg3)
    by (eapply CodeGenFacts.preserves_visitBlock_all; exact E3).
  assert (X3 : CodeGen.extends cg3 cg).
  { refine ((_ : CodeGen.preserves
               (CodeGen.bind CodeGen.unterminated (fun open =>
                  if open
                  then CodeGen.emit (IR.Ret (Some (IR.ConstantInt 64 0)))
                  else CodeGen.ret tt))) cg3 tt cg H).
    CodeGenFacts.pres. }
  pose proof (CodeGenFacts.extends_trans _ _ _ X01
                (CodeGenFacts.extends_trans _ _ _ X12 X23)) as X03.
  pose proof (CodeGenFacts.extends_trans _ _ _ X03 X3) as X0.
  destruct X0 as [[rest Hrest] _]. exists rest. split; [exact Hrest|].
  assert (Hname : CodeGen.entryName stmts = "main" <->
                  CodeGen.hasUserMain stmts = false).
  { unfold CodeGen.entryName. destruct (CodeGen.hasUserMain stmts);
      split; intros; congruence. }
  split; [exact Hname|].
  assert (Hmain : CodeGen.hasUserMain stmts = true ->
    CodeGen.entryName stmts = "__init" /\ CodeGen.name_taken rest "main" = true).
  { intros Hum. assert (He : CodeGen.entryName stmts = "__init")
      by (unfold CodeGen.entryName; rewrite Hum; reflexivity).
    split; [exact He|].
    pose proof (CodeGenFacts.visitBlock_declares_main _ _ stmts cg2 cg3 Hum E3)
      as Ht.
    pose proof (CodeGenFacts.extends_name_taken _ _ _ X3 Ht) as Ht'.
    rewrite Hrest in Ht'. unfold CodeGen.name_taken in *. simpl in Ht'.
    subst entry. simpl in Ht'. rewrite He in Ht'. exact Ht'. }
  split; [exact Hmain|].
  destruct (CodeGen.hasUserMain stmts) eqn:Hum.
  - destruct (Hmain eq_refl) as [_ Ht]. rewrite Hrest.
    change (entry :: rest) with ([entry] ++ rest).
    unfold CodeGen.name_taken in *. rewrite existsb_app.
    apply andb_true_iff in Ht. destruct Ht as [Ht _]. rewrite Ht.
    rewrite orb_true_r. reflexivity.
  - rewrite Hrest. unfold CodeGen.name_taken. simpl. subst entry. simpl.
    rewrite (proj2 Hname eq_refl). reflexivity.
Qed.

Lemma entry_point_name_witness :
  exists cg rest,
    CodeGen.generate any_float eight_bytes
      [ExprStmt (CallExpr (Some VoidType) "print_int"
                   [LiteralExpr (Some IntType) "1" false false false])]
      CodeGen.new = Some (tt, cg) /\
    CodeGen.functions cg = IR.mkFunction "main" (IR.IntegerTy 64) [] :: rest.
Proof.
  eexists _. 
  destruct (entry_point_name any_float eight_bytes
              [ExprStmt (CallExpr (Some VoidType) "print_int"
                           [LiteralExpr (Some IntType) "1" false false false])]
              _ eq_refl) as (rest & Hf & _).
  exists rest. split; [reflexivity|exact Hf].
Defined.

(** C5.  For every function definition: once the body is lowered, with the
    builder in block [b], the visit completes.  If [b] has no terminator,
    exactly one instruction is appended to it, a return: [ret void] when
    the declared return type is void; otherwise [ret 0] of the function's
    IR return type when that is an integer type, and [ret undef] of that
    type when it is not.  If [b] has a terminator it is left as it is. *)
Theorem fabricated_return (stod_ok : string -> bool)
    (getTypeAllocSize : IR.Ty -> Z) (name : string)
    (params : list (string * string)) (returnTypeName : string)
    (block : list Stmt) (cg cg1 : CodeGen.t) (func : nat) (retTy : IR.Ty)
    (oldBB : option nat) (oldNV : gmap string (option IR.AllocaInst))
    (b : nat) (bb : IR.BasicBlock) :
  CodeGen.lowerFunctionBody stod_ok getTypeAllocSize name params
    returnTypeName block cg = Some ((func, retTy, oldBB, oldNV), cg1) ->
  CodeGen.insertBlock cg1 = Some b ->
  CodeGen.blocks cg1 !! b = Some bb ->
  exists cg' f,
    CodeGen.visitStmt stod_ok getTypeAllocSize
      (FunctionStmt name params returnTypeName (Some block)) cg =
      Some (tt, cg') /\
    CodeGen.functions cg' !! func = Some f /\ IR.returnType f = retTy /\
    retTy = CodeGen.getType_rec (String.length returnTypeName)
              (CodeGen.structTypes cg) returnTypeName /\
    (IR.getTerminator bb = None ->
     exists ret,
       CodeGen.blocks cg' !! b =
         Some (IR.mkBlock (IR.bname bb) (IR.parent bb) (IR.instrs bb ++ [ret])) /\
       (returnTypeName = "void" -> ret = IR.Ret None) /\
       (returnTypeName <> "void" -> forall bits, retTy = IR.IntegerTy bits ->
          ret = IR.Ret (Some (IR.ConstantInt bits 0))) /\
       (returnTypeName <> "void" -> IR.isIntegerTy retTy = false ->
          ret = IR.Ret (Some (IR.UndefValue retTy)))) /\
    (IR.getTerminator bb <> None -> CodeGen.blocks cg' !! b = Some bb).
Proof.
  intros Hbody Hb Hbb.
  destruct (CodeGenFacts.lowerFunctionBody_function _ _ _ _ _ _ _ _ _ _ _ _ Hbody)
    as (Hret & f & fs & Hfs & Hfunc & Hfret).
  destruct (CodeGenFacts.finishFunction_spec returnTypeName retTy oldBB oldNV
              cg1 b bb Hb Hbb) as (cg' & Hfin & Hfuns & Hblock).
  exists cg', f.
  split; [rewrite CodeGenFacts.visitStmt_Function_split, Hbody; exact Hfin|].
  split.
  { rewrite Hfuns, Hfs, Hfunc. rewrite lookup_app_r by lia.
    rewrite Nat.sub_diag. reflexivity. }
  split; [exact Hfret|]. split; [exact Hret|]. split.
  - intros Hterm. rewrite bool_decide_eq_true_2 in Hblock by assumption.
    eexists. split; [exact Hblock|]. unfold CodeGen.fabricatedReturn.
    split; [|split].
    + intros ->. reflexivity.
    + intros Hne bits ->. rewrite bool_decide_eq_false_2 by assumption.
      reflexivity.
    + intros Hne Hint. rewrite bool_decide_eq_false_2 by assumption.
      rewrite Hint. reflexivity.
  - intros Hterm. rewrite bool_decide_eq_false_2 in Hblock by assumption.
    rewrite app_nil_r in Hblock. rewrite Hblock. destruct bb; reflexivity.
Qed.

Lemma fabricated_return_witness :
  exists cg',
    CodeGen.visitStmt any_float eight_bytes
      (FunctionStmt "half" [("x", "float")] "float"
         (Some [VarDeclStmt "y" "float" (Some (VariableExpr (Some FloatType) "x"))]))
      CodeGen.new = Some (tt, cg') /\
    IR.instrs <$> CodeGen.blocks cg' !! 0%nat =
      Some [IR.Alloca 2 IR.DoubleTy "y"; IR.Alloca 0 IR.DoubleTy "x";
            IR.Store (IR.Argument 0 0 IR.DoubleTy)
              (IR.Register 0 (IR.PointerTy IR.DoubleTy));
            IR.Load 1 IR.DoubleTy (IR.Register 0 (IR.PointerTy IR.DoubleTy)) "x";
            IR.Store (IR.Register 1 IR.DoubleTy)
              (IR.Register 2 (IR.PointerTy IR.DoubleTy));
            IR.Ret (Some (IR.UndefValue IR.DoubleTy))].
Proof.
  edestruct (fabricated_return any_float eight_bytes "half" [("x", "float")]
               "float"
               [VarDeclStmt "y" "float" (Some (VariableExpr (Some FloatType) "x"))]
               CodeGen.new)
    as (cg' & f & Hv & _ & _ & _ & Hopen & _).
  - vm_compute. reflexivity.
  - reflexivity.
  - reflexivity.
  - exists cg'. split; [exact Hv|].
    destruct (Hopen eq_refl) as (ret & Hblock & _ & _ & Hundef).
    rewrite Hblock. rewrite (Hundef ltac:(discriminate) eq_refl). reflexivity.
Defined.

(* ===================================================================== *)
(** * Struct declarations in the two stages *)
(* ===================================================================== *)

Module StructFacts.

(** The checker's lookup finds the first field of a name. *)
Lemma getMemberIndex_from_lookup (g : string -> option Ty) fields :
  forall start i field,
    NoDup fields.*1 -> fields !! i = Some field ->
    getMemberIndex_from start (map (fun f => (f.1, g f.2)) fields) field.1 =
      start + Z.of_nat i.
Proof.
  induction fields as [|f fields IH]; intros start i field Hnd Hi;
    [discriminate|].
  simpl in Hnd. apply NoDup_cons in Hnd. destruct Hnd as [Hnotin Hnd].
  destruct i as [|i]; simpl in Hi.
  - injection Hi as ->. simpl. rewrite bool_decide_eq_true_2 by reflexivity. lia.
  - simpl. rewrite bool_decide_eq_false_2.
    + rewrite (IH (start + 1) i field Hnd Hi). lia.
    + intros E. apply Hnotin. rewrite E.
      apply list_elem_of_fmap. exists field. split; [reflexivity|].
      eapply list_elem_of_lookup_2. exact Hi.
Qed.

Lemma getMemberIndex_from_missing (g : string -> option Ty) fields :
  forall start member, member ∉ fields.*1 ->
    getMemberIndex_from start (map (fun f => (f.1, g f.2)) fields) member = -1.
Proof.
  induction fields as [|f fields IH]; intros start member Hnotin;
    [reflexivity|].
  simpl in Hnotin. apply not_elem_of_cons in Hnotin. destruct Hnotin as [Hne Hn].
  simpl. rewrite bool_decide_eq_false_2 by congruence. apply IH. exact Hn.
Qed.

(** The generator's map keeps the last index written for a name. *)
Lemma fieldIndices_from_missing fields :
  forall start acc member, member ∉ fields.*1 ->
    CodeGen.fieldIndices_from start fields acc !! member = acc !! member.
Proof.
  induction fields as [|f fields IH]; intros start acc member Hnotin;
    [reflexivity|].
  simpl in Hnotin. apply not_elem_of_cons in Hnotin. destruct Hnotin as [Hne Hn].
  simpl. rewrite IH by exact Hn. apply lookup_insert_ne. congruence.
Qed.

Lemma fieldIndices_from_lookup fields :
  forall start acc i field,
    NoDup fields.*1 -> fields !! i = Some field ->
    CodeGen.fieldIndices_from start fields acc !! field.1 =
      Some (start + Z.of_nat i).
Proof.
  induction fields as [|f fields IH]; intros start acc i field Hnd Hi;
    [discriminate|].
  simpl in Hnd. apply NoDup_cons in Hnd. destruct Hnd as [Hnotin Hnd].
  destruct i as [|i]; simpl in Hi.
  - injection Hi as ->. simpl.
    rewrite fieldIndices_from_missing by exact Hnotin.
    rewrite lookup_insert_eq. f_equal. lia.
  - simpl. rewrite (IH (start + 1) _ i field Hnd Hi). f_equal. lia.
Qed.

Lemma Sema_visitStmt_StructDecl tc name fields :
  Sema.visitStmt tc (StructDeclStmt name fields) =
    Some (StructDeclStmt name fields,
          Sema.mk (Sema.symbolTable tc) (Sema.currentFunctionReturnType tc)
            (<[name := (name, map (fun f => (f.1, Sema.resolveType tc f.2))
                                  fields)]> (Sema.structDefs tc))).
Proof. reflexivity. Qed.

Lemma Sema_visitBlock_app ss1 ss2 : forall tc r tc',
  Sema.visitBlock tc (ss1 ++ ss2) = Some (r, tc') ->
  exists r1 tc1 r2,
    Sema.visitBlock tc ss1 = Some (r1, tc1) /\
    Sema.visitBlock tc1 ss2 = Some (r2, tc').
Proof.
  induction ss1 as [|s0 ss1 IH]; intros tc r tc' H; simpl in H.
  - exists [], tc, r. split; [reflexivity|exact H].
  - destruct (Sema.visitStmt tc s0) as [[s0' tc0]|] eqn:E0; [|discriminate].
    destruct (Sema.visitBlock tc0 (ss1 ++ ss2)) as [[r' tc2]|] eqn:E;
      [|discriminate].
    injection H as _ <-.
    destruct (IH tc0 r' tc2 E) as (r1 & tc1 & r2 & H1 & H2).
    exists (s0' :: r1), tc1, r2. simpl. rewrite E0, H1.
    split; [reflexivity|exact H2].
Qed.

(** Only a declaration of [name] changes what the registry holds for it. *)
Definition keeps_struct (name : string) (s : Stmt) : Prop :=
  forall tc s' tc', Sema.visitStmt tc s = Some (s', tc') ->
    SemaSpec.declares_struct name s = false ->
    Sema.structDefs tc' !! name = Sema.structDefs tc !! name.

Lemma Sema_visitBlock_keeps name ss :
  Forall (keeps_struct name) ss ->
  forall tc r tc', Sema.visitBlock tc ss = Some (r, tc') ->
    existsb (SemaSpec.declares_struct name) ss = false ->
    Sema.structDefs tc' !! name = Sema.structDefs tc !! name.
Proof.
  induction 1 as [|s ss Hs _ IH]; intros tc r tc' H Hd; simpl in H.
  - injection H as _ <-. reflexivity.
  - destruct (Sema.visitStmt tc s) as [[s' tc1]|] eqn:E; [|discriminate].
    destruct (Sema.visitBlock tc1 ss) as [[r' tc2]|] eqn:E'; [|discriminate].
    injection H as _ <-. simpl in Hd. apply orb_false_iff in Hd.
    destruct Hd as [Hd1 Hd2].
    rewrite (IH tc1 r' tc2 E' Hd2). exact (Hs tc s' tc1 E Hd1).
Qed.

Lemma Sema_visitStmt_keeps name : forall s, keeps_struct name s.
Proof.
  apply SemaFacts.Stmt_ind_nested; unfold keeps_struct.
  - intros e tc s' tc' H _. simpl in H.
    destruct (Sema.visitExpr _ e); [|discriminate]. injection H as _ <-.
    reflexivity.
  - intros [e|] tc s' tc' H _; simpl in H.
    + destruct (Sema.visitExpr _ e); [|discriminate]. injection H as _ <-.
      reflexivity.
    + injection H as _ <-. reflexivity.
  - intros ss IH tc s' tc' H Hd. rewrite SemaFacts.visitStmt_Block in H.
    destruct (Sema.visitBlock tc ss) as [[ss' tc1]|] eqn:E; [|discriminate].
    injection H as _ <-. eapply Sema_visitBlock_keeps; eassumption.
  - intros c thenB elseB IHt IHe tc s' tc' H Hd.
    rewrite SemaFacts.visitStmt_If in H. cbn [SemaSpec.declares_struct] in Hd.
    apply orb_false_iff in Hd. destruct Hd as [Hd1 Hd2].
    destruct (Sema.visitExpr _ c); [|discriminate].
    destruct (Sema.visitBlock tc thenB) as [[thenB' tc1]|] eqn:Et;
      [|discriminate].
    pose proof (Sema_visitBlock_keeps name thenB IHt _ _ _ Et Hd1) as K1.
    destruct elseB as [elseBlock|].
    + destruct (Sema.visitBlock tc1 elseBlock) as [[elseBlock' tc2]|] eqn:Ee;
        [|discriminate].
      injection H as _ <-.
      rewrite (Sema_visitBlock_keeps name elseBlock IHe _ _ _ Ee Hd2).
      exact K1.
    + injection H as _ <-. exact K1.
  - intros c body IH tc s' tc' H Hd. rewrite SemaFacts.visitStmt_While in H.
    destruct (Sema.visitExpr _ c); [|discriminate].
    destruct (Sema.visitBlock tc body) as [[body' tc1]|] eqn:Eb; [|discriminate].
    injection H as _ <-. eapply Sema_visitBlock_keeps; eassumption.
  - intros n ty [init|] tc s' tc' H _; simpl in H.
    + destruct (Sema.visitExpr _ init); [|discriminate]. injection H as _ <-.
      reflexivity.
    + injection H as _ <-. reflexivity.
  - intros n params ret [block|] IH tc s' tc' H Hd.
    + rewrite SemaFacts.visitStmt_Function in H.
      destruct (Sema.visitBlock _ block) as [[block' tc4]|] eqn:Eb;
        [|discriminate].
      injection H as _ <-.
      exact (Sema_visitBlock_keeps name block IH _ _ _ Eb Hd).
    + simpl in H. injection H as _ <-. reflexivity.
  - intros n fields tc s' tc' H Hd. simpl in H. injection H as _ <-.
    simpl in Hd. apply bool_decide_eq_false in Hd. simpl.
    apply lookup_insert_ne. exact Hd.
Qed.

Section WithLibrary.
Context (stod_ok : string -> bool) (getTypeAllocSize : IR.Ty -> Z).

Lemma CodeGen_visitStmt_StructDecl name fields cg :
  CodeGen.structTypes cg !! name = None ->
  CodeGen.visitStmt stod_ok getTypeAllocSize (StructDeclStmt name fields) cg =
    Some (tt,
          CodeGen.set_structs cg
            (<[name := IR.StructTy name
                         (map (fun field =>
                                 CodeGen.getType_rec (String.length field.2)
                                   (CodeGen.structTypes cg) field.2) fields)]>
               (CodeGen.structTypes cg))
            (<[name := CodeGen.fieldIndices_from 0 fields ∅]>
               (CodeGen.structFieldIndices cg))).
Proof.
  intros H. rewrite CodeGenFacts.visitStmt_unfold.
  unfold CodeGen.visitStructDecl. cbv [CodeGen.bind CodeGen.gets].
  rewrite H. reflexivity.
Qed.

(** A later declaration of a registered name is skipped. *)
Lemma CodeGen_visitStmt_StructDecl_again name fields cg ty :
  CodeGen.structTypes cg !! name = Some ty ->
  CodeGen.visitStmt stod_ok getTypeAllocSize (StructDeclStmt name fields) cg =
    Some (tt, cg).
Proof.
  intros H. rewrite CodeGenFacts.visitStmt_unfold.
  unfold CodeGen.visitStructDecl. cbv [CodeGen.bind CodeGen.gets].
  rewrite H. reflexivity.
Qed.

End WithLibrary.
End StructFacts.

(** C6 (claim as stated fails): in struct P x: int x: int end two fields
    share the name x.  Sema's member-index lookup stops at the first, index
    0; the generator's map holds the index written last, 1. *)
Lemma struct_field_index_counterexample :
  exists stmts tc cg sfields indices,
    compile any_float eight_bytes "struct P x: int x: int end" =
      Some (stmts, tc, cg) /\
    Sema.structDefs tc !! "P" = Some ("P", sfields) /\
    CodeGen.structFieldIndices cg !! "P" = Some indices /\
    getMemberIndex sfields "x" = 0 /\
    indices !! "x" = Some 1 /\
    Some (getMemberIndex sfields "x") <> indices !! "x".
Proof.
  eexists _, _, _, _, _. split; [vm_compute; reflexivity|].
  split; [vm_compute; reflexivity|]. split; [vm_compute; reflexivity|].
  split; [reflexivity|]. split; [reflexivity|]. vm_compute. discriminate.
Qed.

(** C6 (amended).  For every struct declaration whose field names are
    pairwise distinct, visited by Sema and by a generator in which no struct
    of that name is registered yet: both visits complete, and for every
    field of the declaration Sema's member-index lookup on the registered
    StructType and the index the generator stored for that struct and field
    are both the field's position in declaration order.  For a name that is
    no field, Sema answers -1 and the generator's map has no entry. *)
Theorem struct_field_indices_agree (stod_ok : string -> bool)
    (getTypeAllocSize : IR.Ty -> Z) (tc : Sema.t) (cg : CodeGen.t)
    (name : string) (fields : list (string * string)) :
  NoDup fields.*1 ->
  CodeGen.structTypes cg !! name = None ->
  exists tc' cg' sfields indices,
    Sema.visitStmt tc (StructDeclStmt name fields) =
      Some (StructDeclStmt name fields, tc') /\
    Sema.structDefs tc' !! name = Some (name, sfields) /\
    CodeGen.visitStmt stod_ok getTypeAllocSize (StructDeclStmt name fields) cg =
      Some (tt, cg') /\
    CodeGen.structFieldIndices cg' !! name = Some indices /\
    (forall i field, fields !! i = Some field ->
       getMemberIndex sfields field.1 = Z.of_nat i /\
       indices !! field.1 = Some (Z.of_nat i)) /\
    (forall member, member ∉ fields.*1 ->
       getMemberIndex sfields member = -1 /\ indices !! member = None).
Proof.
  intros Hnd Hfresh. eexists _, _, _, _.
  split; [apply StructFacts.Sema_visitStmt_StructDecl|].
  split; [simpl; apply lookup_insert_eq|].
  split; [apply StructFacts.CodeGen_visitStmt_StructDecl; exact Hfresh|].
  split; [simpl; apply lookup_insert_eq|]. split.
  - intros i field Hi. split.
    + unfold getMemberIndex.
      rewrite (StructFacts.getMemberIndex_from_lookup _ fields 0 i field Hnd Hi).
      lia.
    + rewrite (StructFacts.fieldIndices_from_lookup fields 0 ∅ i field Hnd Hi).
      reflexivity.
  - intros member Hm. split.
    + apply StructFacts.getMemberIndex_from_missing. exact Hm.
    + rewrite StructFacts.fieldIndices_from_missing by exact Hm.
      apply lookup_empty.
Qed.

Lemma struct_field_indices_agree_witness :
  exists tc' cg' sfields indices,
    Sema.visitStmt Sema.new
      (StructDeclStmt "Point" [("x", "int"); ("y", "int")]) =
      Some (StructDeclStmt "Point" [("x", "int"); ("y", "int")], tc') /\
    Sema.structDefs tc' !! "Point" = Some ("Point", sfields) /\
    CodeGen.visitStmt any_float eight_bytes
      (StructDeclStmt "Point" [("x", "int"); ("y", "int")]) CodeGen.new =
      Some (tt, cg') /\
    CodeGen.structFieldIndices cg' !! "Point" = Some indices /\
    getMemberIndex sfields "y" = 1 /\ indices !! "y" = Some 1.
Proof.
  destruct (struct_field_indices_agree any_float eight_bytes Sema.new
              CodeGen.new "Point" [("x", "int"); ("y", "int")])
    as (tc' & cg' & sfields & indices & H1 & H2 & H3 & H4 & H5 & _).
  - apply (bool_decide_unpack _). vm_compute. exact I.
  - reflexivity.
  - exists tc', cg', sfields, indices.
    repeat (split; [assumption|]). apply (H5 1%nat ("y", "int")). reflexivity.
Defined.

(** C10.  A module that declares the struct [name] twice: a first
    declaration, a last one, any statements in between and after (none of
    the statements after declaring [name] again).  Sema's registry ends up
    holding the type built from the last declaration.  A generator in which
    [name] was not registered before ends up holding the IR aggregate type
    and the field-index map of the first declaration: the visit of a
    declaration whose name is registered changes nothing.  So the two
    stages can disagree: for struct P x: int y: int end struct P y: int x:
    int end Sema finds the field x at index 1 and the generator at index 0. *)
Theorem duplicate_struct_declarations (stod_ok : string -> bool)
    (getTypeAllocSize : IR.Ty -> Z) (name : string)
    (fields1 fields2 : list (string * string)) (mid post : list Stmt) :
  let module :=
    StructDeclStmt name fields1 :: mid ++ StructDeclStmt name fields2 :: post in
  (forall tc stmts' tc',
     existsb (SemaSpec.declares_struct name) post = false ->
     Sema.visitBlock tc module = Some (stmts', tc') ->
     exists tc2,
       Sema.structDefs tc' !! name =
         Some (name, map (fun f => (f.1, Sema.resolveType tc2 f.2)) fields2)) /\
  (forall cg cg',
     CodeGen.structTypes cg !! name = None ->
     CodeGen.visitBlock stod_ok getTypeAllocSize module cg = Some (tt, cg') ->
     CodeGen.structTypes cg' !! name =
       Some (IR.StructTy name
               (map (fun field =>
                       CodeGen.getType_rec (String.length field.2)
                         (CodeGen.structTypes cg) field.2) fields1)) /\
     CodeGen.structFieldIndices cg' !! name =
       Some (CodeGen.fieldIndices_from 0 fields1 ∅)) /\
  (forall cg ty,
     CodeGen.structTypes cg !! name = Some ty ->
     CodeGen.visitStmt stod_ok getTypeAllocSize (StructDeclStmt name fields2) cg =
       Some (tt, cg)) /\
  (exists stmts tc cg sfields indices,
     compile any_float eight_bytes
       "struct P x: int y: int end struct P y: int x: int end" =
       Some (stmts, tc, cg) /\
     Sema.structDefs tc !! "P" = Some ("P", sfields) /\
     CodeGen.structFieldIndices cg !! "P" = Some indices /\
     getMemberIndex sfields "x" = 1 /\ indices !! "x" = Some 0).
Proof.
  cbv zeta. split; [|split; [|split]].
  - intros tc stmts' tc' Hpost H.
    change (StructDeclStmt name fields1 :: mid ++ StructDeclStmt name fields2 :: post)
      with ((StructDeclStmt name fields1 :: mid) ++
            StructDeclStmt name fields2 :: post) in H.
    destruct (StructFacts.Sema_visitBlock_app _ _ _ _ _ H)
      as (r1 & tc2 & r2 & _ & Hrest).
    simpl in Hrest.
    destruct (Sema.visitBlock _ post) as [[post' tc3]|] eqn:Ep; [|discriminate].
    injection Hrest as _ <-. exists tc2.
    assert (Hkeeps : Forall (StructFacts.keeps_struct name) post).
    { apply Forall_forall. intros s _. apply StructFacts.Sema_visitStmt_keeps. }
    rewrite (StructFacts.Sema_visitBlock_keeps name post Hkeeps _ _ _ Ep Hpost).
    simpl. apply lookup_insert_eq.
  - intros cg cg' Hfresh H. cbn [CodeGen.visitBlock] in H.
    unfold CodeGen.bind at 1 in H.
    rewrite (StructFacts.CodeGen_visitStmt_StructDecl _ _ _ _ _ Hfresh) in H.
    apply CodeGenFacts.preserves_visitBlock_all in H.
    destruct H as [_ Hstructs]. apply Hstructs; simpl; apply lookup_insert_eq.
  - intros cg ty. apply StructFacts.CodeGen_visitStmt_StructDecl_again.
  - eexists _, _, _, _, _. split; [vm_compute; reflexivity|].
    split; [vm_compute; reflexivity|]. split; [vm_compute; reflexivity|].
    split; reflexivity.
Qed.

Lemma duplicate_struct_declarations_witness :
  exists cg',
    CodeGen.visitBlock any_float eight_bytes
      [StructDeclStmt "P" [("x", "int"); ("y", "float")];
       ExprStmt (LiteralExpr (Some IntType) "1" false false false);
       StructDeclStmt "P" [("y", "float")];
       ReturnStmt None] CodeGen.new = Some (tt, cg') /\
    CodeGen.structTypes cg' !! "P" =
      Some (IR.StructTy "P" [IR.IntegerTy 64; IR.DoubleTy]) /\
    CodeGen.structFieldIndices cg' !! "P" = Some {[ "x" := 0; "y" := 1 ]}.
Proof.
  eexists. split; [vm_compute; reflexivity|].
  destruct (duplicate_struct_declarations any_float eight_bytes "P"
              [("x", "int"); ("y", "float")] [("y", "float")]
              [ExprStmt (LiteralExpr (Some IntType) "1" false false false)]
              [ReturnStmt None])
    as (_ & Hgen & _).
  destruct (Hgen CodeGen.new _ eq_refl eq_refl) as [Ht Hm].
  split; [exact Ht|]. refine (eq_trans Hm _). reflexivity.
Defined.

(* ===================================================================== *)
(** * Lexer: further properties *)
(* ===================================================================== *)

Module LexerMore.
Import Lexer LexerSpec.

Lemma advances_refl l : advances l l.
Proof. exists 0%nat. reflexivity. Qed.

Lemma advances_trans l1 l2 l3 :
  advances l1 l2 -> advances l2 l3 -> advances l1 l3.
Proof.
  intros [k1 ->] [k2 ->]. exists (k2 + k1)%nat. now rewrite Nat.iter_add.
Qed.

Lemma advances_advance l : advances l (advance l).
Proof. exists 1%nat. reflexivity. Qed.

Lemma advances_advance_while cond fuel :
  forall l, advances l (advance_while cond fuel l).
Proof.
  induction fuel as [|fuel IH]; intros l; simpl; [apply advances_refl|].
  destruct (cond (peek l)); [|apply advances_refl].
  eapply advances_trans; [apply advances_advance|apply IH].
Qed.

Lemma advances_skipWhitespace_loop fuel :
  forall l, advances l (skipWhitespace_loop fuel l).
Proof.
  induction fuel as [|fuel IH]; intros l; simpl; [apply advances_refl|].
  destruct (CType.isspace (peek l)).
  - eapply advances_trans; [apply advances_advance|apply IH].
  - destruct (Ascii.eqb (peek l) HASH); [|apply advances_refl].
    eapply advances_trans; [apply advances_advance_while|apply IH].
Qed.

Lemma advances_skipWhitespace l : advances l (skipWhitespace l).
Proof. apply advances_skipWhitespace_loop. Qed.

Lemma rest_nil_iff l : rest l = [] <-> (length (source l) <= position l)%nat.
Proof.
  pose proof (LexerFacts.length_rest l) as H. unfold remaining in H.
  split; intros E.
  - rewrite E in H. simpl in H. lia.
  - apply length_zero_iff_nil. lia.
Qed.

Lemma advance_at_end l : rest l = [] -> advance l = l.
Proof.
  intros H. apply rest_nil_iff in H. unfold advance.
  destruct (Nat.ltb_spec (position l) (length (source l))); [lia|reflexivity].
Qed.

Lemma advance_scanned l c r : rest l = c :: r -> scanned l (advance l) [c].
Proof.
  intros Hr. split; [apply LexerFacts.advance_cons with r; exact Hr|].
  assert (Hlen : (position l < length (source l))%nat).
  { destruct (Nat.ltb_spec (position l) (length (source l))) as [H|H];
      [exact H|].
    apply rest_nil_iff in H. congruence. }
  assert (Hc : nth (position l) (source l) NUL = c).
  { rewrite LexerFacts.nth_hd_drop. fold (rest l). now rewrite Hr. }
  unfold advance. destruct (Nat.ltb_spec (position l) (length (source l)));
    [|lia].
  rewrite Hc. simpl. destruct (Ascii.eqb c NL); simpl; split; lia.
Qed.

Lemma newlines_app w w' : newlines (w ++ w') = newlines w + newlines w'.
Proof. induction w as [|c w IH]; simpl; [reflexivity|]. rewrite IH. lia. Qed.

Lemma column_after_app w w' col :
  column_after col (w ++ w') = column_after (column_after col w) w'.
Proof. revert col; induction w as [|c w IH]; intros col; simpl; auto. Qed.

Lemma scanned_refl l : scanned l l [].
Proof. split; [apply LexerFacts.consumed_refl|simpl; split; lia]. Qed.

Lemma scanned_trans l l' l'' w w' :
  scanned l l' w -> scanned l' l'' w' -> scanned l l'' (w ++ w').
Proof.
  intros (Hc & Hl & Hcol) (Hc' & Hl' & Hcol').
  split; [eapply LexerFacts.consumed_trans; eassumption|].
  rewrite newlines_app, column_after_app, Hl', Hl, Hcol', Hcol. split; lia.
Qed.

Lemma advances_scanned l l' : advances l l' -> exists w, scanned l l' w.
Proof.
  intros [k ->]. induction k as [|k [w IH]]; simpl.
  - exists []. apply scanned_refl.
  - set (lk := Nat.iter k advance l) in *.
    destruct (rest lk) as [|c r] eqn:Hr.
    + rewrite (advance_at_end lk Hr). exists w. exact IH.
    + exists (w ++ [c]). eapply scanned_trans; [exact IH|].
      apply advance_scanned with r. exact Hr.
Qed.

Lemma consumed_unique l l' w w' : consumed l l' w -> consumed l l' w' -> w = w'.
Proof.
  intros (_ & _ & H & _) (_ & _ & H' & _). rewrite H in H'.
  now apply app_inv_tail in H'.
Qed.

Lemma consumed_scanned l l' w : advances l l' -> consumed l l' w -> scanned l l' w.
Proof.
  intros Ha Hc. destruct (advances_scanned l l' Ha) as [w' Hs].
  now rewrite (consumed_unique l l' w w' Hc (proj1 Hs)).
Qed.

(** ** Whitespace *)

Lemma skipWhitespace_loop_stop fuel :
  forall l, (length (rest l) < fuel)%nat ->
    significant (peek (skipWhitespace_loop fuel l)) = true.
Proof.
  induction fuel as [|fuel IH]; intros l Hlen; [lia|].
  simpl. destruct (CType.isspace (peek l)) eqn:Hsp.
  - destruct (LexerFacts.peek_cons l _ eq_refl (LexerFacts.isspace_not_eol _ Hsp))
      as [r Hr].
    pose proof (LexerFacts.consumed_length _ _ _
                  (LexerFacts.advance_cons _ _ _ Hr)) as Hl.
    apply IH. rewrite Hr in Hlen, Hl. simpl in *. lia.
  - destruct (Ascii.eqb_spec (peek l) HASH) as [Hh|Hh].
    + destruct (LexerFacts.advance_while_remaining not_eol l eq_refl)
        as (w & Hw & _ & Hstop).
      apply IH. pose proof (LexerFacts.consumed_length _ _ _ Hw) as Hl.
      destruct w as [|c w]; [|simpl in Hl; lia].
      destruct Hw as (_ & _ & Hrw & _). simpl in Hrw.
      rewrite LexerFacts.peek_rest, <- Hrw, <- LexerFacts.peek_rest, Hh in Hstop.
      discriminate.
    + unfold significant. rewrite Hsp. simpl.
      destruct (Ascii.eqb_spec (peek l) HASH); [contradiction|reflexivity].
Qed.

Lemma skipWhitespace_stop l : significant (peek (skipWhitespace l)) = true.
Proof.
  apply skipWhitespace_loop_stop. rewrite LexerFacts.length_rest. lia.
Qed.

Lemma skipWhitespace_stay l :
  significant (peek l) = true -> skipWhitespace l = l.
Proof.
  unfold significant, skipWhitespace. intros H. simpl.
  destruct (CType.isspace (peek l)); [discriminate|].
  destruct (Ascii.eqb (peek l) HASH); [discriminate|reflexivity].
Qed.

Lemma significant_not_NL c : significant c = true -> Ascii.eqb c NL = false.
Proof. LexerFacts.ascii_cases c. Qed.

(** ** The scanners read forward only *)

Lemma snd_identifier l :
  snd (identifier l) = advance_while ident_char (remaining l) l.
Proof.
  unfold identifier.
  repeat match goal with
         | |- context [if ?b then _ else _] => destruct b; [reflexivity|]
         end.
  reflexivity.
Qed.

Lemma advances_identifier l : advances l (snd (identifier l)).
Proof. rewrite snd_identifier. apply advances_advance_while. Qed.

Lemma advances_number l : advances l (snd (number l)).
Proof.
  unfold number. destruct (Ascii.eqb _ _); cbn [snd].
  - eapply advances_trans; [apply advances_advance_while|].
    eapply advances_trans; [apply advances_advance|].
    apply advances_advance_while.
  - apply advances_advance_while.
Qed.

Lemma advances_string l : advances (advance l) (snd (string l)).
Proof.
  unfold string. cbn [snd].
  eapply advances_trans; [apply advances_advance_while|].
  destruct (Ascii.eqb _ _); [apply advances_advance|apply advances_refl].
Qed.

Lemma advances_switch c l : advances l (snd (nextToken_switch c l)).
Proof.
  destruct c as [[|] [|] [|] [|] [|] [|] [|] [|]]; cbn [nextToken_switch];
    try apply advances_refl;
    match goal with
    | |- context [Ascii.eqb (peek l) ?x] =>
        destruct (Ascii.eqb (peek l) x); cbn [snd];
        [apply advances_advance|apply advances_refl]
    end.
Qed.

(** ** One call of [nextToken], on any input *)

Lemma nextToken_cases l :
  let l1 := mark_start (skipWhitespace l) in
  (peek l1 = NUL /\ nextToken l = (atom l1 TokenKind.EndOfFile, l1)) \/
  (peek l1 <> NUL /\
   Token.kind (fst (nextToken l)) <> TokenKind.EndOfFile /\
   advances l1 (snd (nextToken l)) /\
   exists w, consumed l1 (snd (nextToken l)) (peek l1 :: w)).
Proof.
  intros l1. unfold nextToken. fold l1.
  destruct (Ascii.eqb_spec (peek l1) NUL) as [Hnul|Hnul]; [left; auto|].
  right. split; [exact Hnul|].
  destruct (LexerFacts.peek_cons l1 _ eq_refl Hnul) as [r Hr].
  pose proof (LexerFacts.advance_cons _ _ _ Hr) as Hadv.
  destruct (CType.isalpha (peek l1) || Ascii.eqb (peek l1) "_"%char).
  { destruct (LexerFacts.identifier_spec (advance l1))
      as (w & k & Hw & _ & Hfst & Hk).
    rewrite Hfst. split; [exact Hk|]. split.
    - eapply advances_trans; [apply advances_advance|apply advances_identifier].
    - exists w. exact (LexerFacts.consumed_trans _ _ _ _ _ Hadv Hw). }
  destruct (CType.isdigit (peek l1)) eqn:Hdig.
  { destruct (LexerFacts.number_spec l1) as (w & k & Hw & _ & Hne & Hfst & Hk).
    rewrite Hfst. split; [exact Hk|]. split; [apply advances_number|].
    destruct w as [|c w]; [exfalso; now apply Hne|].
    exists w. assert (Hc : c = peek l1).
    { destruct Hw as (_ & _ & Hrw & _). rewrite Hr in Hrw. simpl in Hrw.
      now injection Hrw as -> _. }
    rewrite <- Hc. exact Hw. }
  destruct (Ascii.eqb (peek l1) DQUOTE).
  { split; [discriminate|].
    pose proof (advances_string l1) as Hs.
    split; [eapply advances_trans; [apply advances_advance|exact Hs]|].
    destruct (advances_scanned _ _ Hs) as (w & Hw & _).
    exists w. exact (LexerFacts.consumed_trans _ _ _ _ _ Hadv Hw). }
  destruct (LexerFacts.switch_spec (peek l1) (advance l1))
    as (w & k & Hw & _ & Hfst & Hk).
  rewrite Hfst. split; [exact Hk|]. split.
  - eapply advances_trans; [apply advances_advance|apply advances_switch].
  - exists w. exact (LexerFacts.consumed_trans _ _ _ _ _ Hadv Hw).
Qed.

Lemma consumed_bound l l' w :
  (position l <= length (source l))%nat -> consumed l l' w ->
  source l' = source l /\ position l' = (position l + length w)%nat /\
  (position l' <= length (source l))%nat.
Proof.
  intros Hb Hc. pose proof (LexerFacts.consumed_length _ _ _ Hc) as Hl.
  destruct Hc as (Hs & _ & _ & Hp). rewrite !LexerFacts.length_rest in Hl.
  unfold remaining in Hl. rewrite Hs in Hl. repeat split; [assumption..|lia].
Qed.

Lemma skipWhitespace_consumed l :
  exists w0, scanned l (skipWhitespace l) w0.
Proof. apply advances_scanned, advances_skipWhitespace. Qed.

End LexerMore.

(** X1.  [Lexer::nextToken] reads forward only and stays inside the
    source: the source is untouched, the read position never moves back and
    never passes the end, and the token lies between the start mark and the
    read position.  A token other than EndOfFile is at least one character
    long, so every call that does not answer EndOfFile makes progress. *)
Theorem nextToken_progress (l : Lexer.t) :
  (Lexer.position l <= length (Lexer.source l))%nat ->
  let tok := fst (Lexer.nextToken l) in
  let l' := snd (Lexer.nextToken l) in
  Lexer.source l' = Lexer.source l /\
  (Lexer.position l <= Lexer.startPosition l')%nat /\
  (Lexer.startPosition l' <= Lexer.position l')%nat /\
  (Lexer.position l' <= length (Lexer.source l))%nat /\
  (Token.kind tok <> TokenKind.EndOfFile ->
   (Lexer.startPosition l' < Lexer.position l')%nat).
Proof.
  intros Hb. cbv zeta.
  destruct (LexerMore.skipWhitespace_consumed l) as (w0 & Hc0 & _).
  destruct (LexerMore.consumed_bound _ _ _ Hb Hc0) as (Hs0 & Hp0 & Hb0).
  pose proof (LexerMore.nextToken_cases l) as Hcases. cbv zeta in Hcases.
  set (l0 := Lexer.skipWhitespace l) in *.
  assert (Hb1 : (Lexer.position (Lexer.mark_start l0) <=
                 length (Lexer.source (Lexer.mark_start l0)))%nat).
  { simpl. rewrite Hs0. exact Hb0. }
  destruct Hcases as [[_ ->]|(_ & Hk & _ & w & Hw)].
  - simpl. rewrite Hs0. repeat split; try lia. intros H. now contradiction H.
  - destruct (LexerMore.consumed_bound _ _ _ Hb1 Hw) as (Hs & Hp & Hb').
    destruct Hw as (_ & Hst & _ & _). simpl in Hs, Hp, Hb', Hst.
    rewrite Hs, Hst, Hp, Hs0. simpl. simpl in Hb'. rewrite Hs0 in Hb'.
    repeat split; try lia.
Qed.

Lemma nextToken_progress_witness :
  let l := Lexer.new (Lexer.str "  # c
  while x") in
  Lexer.position (snd (Lexer.nextToken l)) = 13%nat /\
  (Lexer.startPosition (snd (Lexer.nextToken l)) <
   Lexer.position (snd (Lexer.nextToken l)))%nat.
Proof.
  cbv zeta. split; [reflexivity|].
  apply (nextToken_progress (Lexer.new (Lexer.str "  # c
  while x"))).
  - simpl. lia.
  - vm_compute. discriminate.
Defined.

(** X2.  [Lexer::nextToken] answers EndOfFile exactly when, after
    whitespace and comments, it stands at the end of the source or in
    front of a NUL character.  The EndOfFile token has an empty text, and
    EndOfFile is final: asked again, the lexer gives the same token and
    stays where it is. *)
Theorem nextToken_eof_sticky (l : Lexer.t) :
  let tok := fst (Lexer.nextToken l) in
  let l' := snd (Lexer.nextToken l) in
  (Token.kind tok = TokenKind.EndOfFile <->
   Lexer.peek (Lexer.skipWhitespace l) = Lexer.NUL) /\
  (Token.kind tok = TokenKind.EndOfFile ->
   Token.text tok = [] /\ Lexer.nextToken l' = (tok, l')).
Proof.
  cbv zeta.
  destruct (LexerMore.nextToken_cases l) as [[Hnul E]|(Hnul & Hk & _)].
  - rewrite E. cbn [fst snd]. split; [split; auto|]. intros _. split.
    + unfold Lexer.atom. cbn [Token.text Lexer.mark_start Lexer.startPosition
                              Lexer.position Lexer.source].
      rewrite Z.sub_diag. apply LexerFacts.substr_empty.
    + set (l1 := Lexer.mark_start (Lexer.skipWhitespace l)) in *.
      unfold Lexer.nextToken.
      rewrite (LexerMore.skipWhitespace_stay l1) by (rewrite Hnul; reflexivity).
      change (Lexer.mark_start l1) with l1. rewrite Hnul. reflexivity.
  - split; [|intros H; contradiction].
    split; [intros H; contradiction|].
    intros H. exfalso. apply Hnul. exact H.
Qed.

Module KeywordFacts.
Import Lexer LexerSpec.

Lemma ident_start_significant c :
  CType.isalpha c || Ascii.eqb c "_"%char = true -> significant c = true.
Proof. LexerFacts.ascii_cases c. Qed.

Lemma ident_start_not_NUL c :
  CType.isalpha c || Ascii.eqb c "_"%char = true -> Ascii.eqb c NUL = false.
Proof. LexerFacts.ascii_cases c. Qed.

Lemma peek_of_rest l c r : rest l = c :: r -> peek l = c.
Proof. intros H. now rewrite LexerFacts.peek_rest, H. Qed.

(** The scan of an identifier reads the whole run of identifier
    characters. *)
Lemma scan_identifier l c w r :
  rest l = c :: w ++ r ->
  Forall (fun x => ident_char x = true) w ->
  ident_char (hd NUL r) = false ->
  let l2 := advance_while ident_char (remaining (advance l)) (advance l) in
  consumed l l2 (c :: w) /\ rest l2 = r.
Proof.
  intros Hr Hw Hstop l2.
  pose proof (LexerFacts.advance_cons _ _ _ Hr) as Hadv.
  destruct (LexerFacts.advance_while_remaining ident_char (advance l) eq_refl)
    as (w' & Hw' & Hall & Hpk).
  fold l2 in Hw', Hpk. rewrite LexerFacts.peek_rest in Hpk.
  assert (E : w' ++ rest l2 = w ++ r).
  { destruct Hw' as (_ & _ & Hrw & _). destruct Hadv as (_ & _ & Hra & _).
    rewrite Hr in Hra. simpl in Hra. injection Hra as Hra. congruence. }
  destruct (LexerFacts.span_unique ident_char NUL _ _ _ _ Hall Hpk Hw Hstop E)
    as [-> Hr2].
  split; [|exact Hr2].
  exact (LexerFacts.consumed_trans _ _ _ _ _ Hadv Hw').
Qed.

Lemma str_inj_keywords (t : list ascii) (kw kw' : String.string) k k' :
  In (kw, k) keywords -> In (kw', k') keywords ->
  t = str kw -> t = str kw' -> k = k'.
Proof.
  intros H H' E E'. rewrite E in E'. clear E.
  simpl in H, H'.
  repeat (destruct H as [H|H]; [injection H as <- <-|]); [..|contradiction];
    repeat (destruct H' as [H'|H']; [injection H' as <- <-|]);
    try contradiction; try reflexivity; vm_compute in E'; discriminate.
Qed.

End KeywordFacts.

(** X3.  [Lexer::nextToken] on a word: a letter or underscore followed by
    the longest run of letters, digits and underscores.  The token's text
    is the whole word.  Its kind is a keyword's kind exactly when the word
    is that keyword, and Identifier exactly when the word is none of the
    eleven keywords; a keyword that goes on with an identifier character
    is an identifier. *)
Theorem identifier_keyword (l : Lexer.t) (c : ascii) (w r : list ascii) :
  (Lexer.position l <= length (Lexer.source l))%nat ->
  Lexer.rest l = c :: w ++ r ->
  CType.isalpha c || Ascii.eqb c "_"%char = true ->
  Forall (fun x => Lexer.ident_char x = true) w ->
  Lexer.ident_char (hd Lexer.NUL r) = false ->
  let tok := fst (Lexer.nextToken l) in
  Token.text tok = c :: w /\
  Lexer.rest (snd (Lexer.nextToken l)) = r /\
  (forall kw k, In (kw, k) LexerSpec.keywords ->
     (Token.kind tok = k <-> c :: w = Lexer.str kw)) /\
  (Token.kind tok = TokenKind.Identifier <->
   forall kw k, In (kw, k) LexerSpec.keywords -> c :: w <> Lexer.str kw).
Proof.
  intros Hb Hr Hc Hw Hstop. cbv zeta.
  pose proof (KeywordFacts.peek_of_rest _ _ _ Hr) as Hpk.
  unfold Lexer.nextToken.
  rewrite (LexerMore.skipWhitespace_stay l)
    by (rewrite Hpk; now apply KeywordFacts.ident_start_significant).
  set (l1 := Lexer.mark_start l).
  change (Lexer.peek l1) with (Lexer.peek l). rewrite Hpk.
  rewrite (KeywordFacts.ident_start_not_NUL c Hc), Hc.
  destruct (KeywordFacts.scan_identifier l1 c w r Hr Hw Hstop) as [Hcons Hr2].
  cbv zeta in Hcons, Hr2.
  assert (Htext : substr
            (Lexer.source (Lexer.advance_while Lexer.ident_char
               (Lexer.remaining (Lexer.advance l1)) (Lexer.advance l1)))
            (Lexer.startPosition (Lexer.advance_while Lexer.ident_char
               (Lexer.remaining (Lexer.advance l1)) (Lexer.advance l1)))
            (Z.of_nat (Lexer.position (Lexer.advance_while Lexer.ident_char
               (Lexer.remaining (Lexer.advance l1)) (Lexer.advance l1))) -
             Z.of_nat (Lexer.startPosition (Lexer.advance_while Lexer.ident_char
               (Lexer.remaining (Lexer.advance l1)) (Lexer.advance l1)))) =
          c :: w).
  { exact (LexerFacts.atom_text l1 _ _ TokenKind.Identifier Hb eq_refl Hcons). }
  unfold Lexer.identifier. cbv zeta. rewrite Htext.
  set (l2 := Lexer.advance_while Lexer.ident_char
               (Lexer.remaining (Lexer.advance l1)) (Lexer.advance l1)) in *.
  assert (Hatom : forall k, Token.text (Lexer.atom l2 k) = c :: w).
  { intros k. exact Htext. }
  assert (Hyes : forall kw k, In (kw, k) LexerSpec.keywords ->
            c :: w = Lexer.str kw ->
            Token.text (Lexer.atom l2 k) = c :: w /\ Lexer.rest l2 = r /\
            (forall kw' k', In (kw', k') LexerSpec.keywords ->
               (Token.kind (Lexer.atom l2 k) = k' <-> c :: w = Lexer.str kw')) /\
            (Token.kind (Lexer.atom l2 k) = TokenKind.Identifier <->
             forall kw' k', In (kw', k') LexerSpec.keywords ->
               c :: w <> Lexer.str kw')).
  { intros kw k Hin E. split; [apply Hatom|]. split; [exact Hr2|]. split.
    - intros kw' k' Hin'. simpl. split.
      + intros <-. rewrite E.
        simpl in Hin, Hin'.
        repeat (destruct Hin as [Hin|Hin]; [injection Hin as <- <-|]);
          [..|contradiction];
          repeat (destruct Hin' as [Hin'|Hin'];
                  [first [discriminate|injection Hin' as <-; reflexivity]|]);
          contradiction.
      + intros E'. exact (KeywordFacts.str_inj_keywords _ _ _ _ _ Hin Hin' E E').
    - simpl. split.
      + intros ->. exfalso. simpl in Hin.
        repeat (destruct Hin as [Hin|Hin]; [discriminate|]). contradiction.
      + intros H. exfalso. exact (H kw k Hin E). }
  unfold Lexer.text_is.
  repeat match goal with
         | |- context [bool_decide (c :: w = Lexer.str ?kw)] =>
             destruct (bool_decide_reflect (c :: w = Lexer.str kw));
             [cbn [fst snd]; eapply (Hyes kw); [simpl; tauto|assumption]|]
         end.
  cbn [fst snd]. split; [apply Hatom|]. split; [exact Hr2|]. split.
  - intros kw k Hin. simpl. split.
    + intros <-. exfalso. simpl in Hin.
      repeat (destruct Hin as [Hin|Hin]; [discriminate|]). contradiction.
    + intros E. exfalso. simpl in Hin.
      repeat (destruct Hin as [Hin|Hin]; [injection Hin as <- <-; contradiction|]).
      contradiction.
  - simpl. split; [|reflexivity]. intros _ kw k Hin E. simpl in Hin.
    repeat (destruct Hin as [Hin|Hin]; [injection Hin as <- <-; contradiction|]).
    contradiction.
Qed.

Lemma identifier_keyword_witness :
  let l := Lexer.new (Lexer.str "define x") in
  Token.text (fst (Lexer.nextToken l)) = Lexer.str "define" /\
  Token.kind (fst (Lexer.nextToken l)) = TokenKind.Identifier.
Proof.
  cbv zeta.
  destruct (identifier_keyword (Lexer.new (Lexer.str "define x")) "d"%char
              (Lexer.str "efine") (Lexer.str " x")) as (Ht & _ & _ & Hid).
  - simpl. lia.
  - reflexivity.
  - reflexivity.
  - repeat constructor.
  - reflexivity.
  - split; [exact Ht|]. apply Hid. intros kw k Hin.
    simpl in Hin.
    repeat (destruct Hin as [Hin|Hin]; [injection Hin as <- <-; vm_compute; discriminate|]).
    contradiction.
Defined.

Module StringFacts.
Import Lexer LexerSpec.

Lemma in_string_iff c : in_string c = true <-> c <> DQUOTE /\ c <> NUL.
Proof.
  unfold in_string. destruct (Ascii.eqb_spec c DQUOTE), (Ascii.eqb_spec c NUL);
    simpl; split; intros H; try discriminate; try tauto.
Qed.

(** [Lexer::string] up to the closing quote: the opening quote and the
    body are read, the reader stands in front of what ends the body. *)
Lemma scan_body l body tail :
  rest l = DQUOTE :: body ++ tail ->
  Forall (fun c => c <> DQUOTE /\ c <> NUL) body ->
  in_string (hd NUL tail) = false ->
  let lb := advance_while in_string (remaining (advance l)) (advance l) in
  consumed l lb (DQUOTE :: body) /\ rest lb = tail.
Proof.
  intros Hr Hbody Hstop lb.
  pose proof (LexerFacts.advance_cons _ _ _ Hr) as Hadv.
  destruct (LexerFacts.advance_while_remaining in_string (advance l) eq_refl)
    as (w' & Hw' & Hall & Hpk).
  fold lb in Hw', Hpk. rewrite LexerFacts.peek_rest in Hpk.
  assert (Hbody' : Forall (fun c => in_string c = true) body).
  { eapply Forall_impl; [exact Hbody|]. intros c. apply in_string_iff. }
  assert (E : w' ++ rest lb = body ++ tail).
  { destruct Hw' as (_ & _ & Hrw & _). destruct Hadv as (_ & _ & Hra & _).
    rewrite Hr in Hra. simpl in Hra. injection Hra as Hra. congruence. }
  destruct (LexerFacts.span_unique in_string NUL _ _ _ _ Hall Hpk Hbody' Hstop E)
    as [-> Hrb].
  split; [|exact Hrb].
  exact (LexerFacts.consumed_trans _ _ _ _ _ Hadv Hw').
Qed.

(** The slice that [string] takes for the token's text. *)
Lemma substr_after_quote l l' body tail (count : Z) :
  rest l = DQUOTE :: body ++ tail -> source l' = source l ->
  substr (source l') (S (position l)) count =
    take (Z.to_nat (if count <? 0 then Z.of_nat (length (body ++ tail))
                    else Z.min count (Z.of_nat (length (body ++ tail)))))
         (body ++ tail).
Proof.
  intros Hr Hs. unfold substr. rewrite Hs.
  pose proof (LexerFacts.length_rest l) as Hl. rewrite Hr in Hl.
  unfold remaining in Hl. simpl in Hl.
  replace (Z.of_nat (length (source l)) - Z.of_nat (S (position l)))
    with (Z.of_nat (length (body ++ tail))) by lia.
  rewrite LexerFacts.drop_S_tl. fold (rest l). rewrite Hr. reflexivity.
Qed.

Lemma nextToken_string l r0 :
  rest l = DQUOTE :: r0 -> nextToken l = string (mark_start l).
Proof.
  intros Hr. pose proof (KeywordFacts.peek_of_rest _ _ _ Hr) as Hpk.
  unfold nextToken.
  rewrite (LexerMore.skipWhitespace_stay l) by (rewrite Hpk; reflexivity).
  change (peek (mark_start l)) with (peek l). rewrite Hpk. reflexivity.
Qed.

End StringFacts.

(** X4.  [Lexer::string] on a closed string literal: an opening double
    quote, a body that holds neither a double quote nor a NUL, a closing
    double quote.  The token is a String whose text is the body, without
    the quotes, and the reader stands behind the closing quote. *)
Theorem string_literal_closed (l : Lexer.t) (body r : list ascii) :
  (Lexer.position l <= length (Lexer.source l))%nat ->
  Lexer.rest l = Lexer.DQUOTE :: body ++ Lexer.DQUOTE :: r ->
  Forall (fun c => c <> Lexer.DQUOTE /\ c <> Lexer.NUL) body ->
  let tok := fst (Lexer.nextToken l) in
  Token.kind tok = TokenKind.String /\
  Token.text tok = body /\
  Lexer.rest (snd (Lexer.nextToken l)) = r.
Proof.
  intros Hb Hr Hbody. cbv zeta.
  rewrite (StringFacts.nextToken_string l _ Hr).
  set (l1 := Lexer.mark_start l).
  destruct (StringFacts.scan_body l1 body (Lexer.DQUOTE :: r) Hr Hbody eq_refl)
    as [Hc Hrb].
  cbv zeta in Hc, Hrb. unfold Lexer.string. cbv zeta.
  set (lb := Lexer.advance_while Lexer.in_string
               (Lexer.remaining (Lexer.advance l1)) (Lexer.advance l1)) in *.
  rewrite (KeywordFacts.peek_of_rest _ _ _ Hrb). simpl (Ascii.eqb _ _).
  pose proof (LexerFacts.advance_cons _ _ _ Hrb) as Hq.
  pose proof (LexerFacts.consumed_trans _ _ _ _ _ Hc Hq) as Hall.
  destruct (LexerMore.consumed_bound l1 _ _ Hb Hall) as (Hs & Hp & _).
  destruct Hall as (_ & Hst & _ & _).
  cbn [fst snd Token.kind Token.text]. split; [reflexivity|]. split.
  - rewrite Hst.
    rewrite (StringFacts.substr_after_quote l1 _ body (Lexer.DQUOTE :: r) _ Hr Hs).
    rewrite Hp. simpl (Lexer.position l1). simpl (Lexer.startPosition l1).
    rewrite !length_app. simpl length.
    match goal with
    | |- context [?a - ?b - 2] =>
        replace (a - b - 2) with (Z.of_nat (length body)) by lia
    end.
    destruct (Z.ltb_spec (Z.of_nat (length body)) 0); [lia|].
    rewrite Z.min_l by lia. rewrite Nat2Z.id. apply take_app_length.
  - destruct Hq as (_ & _ & Hrq & _). rewrite Hrb in Hrq. simpl in Hrq.
    now injection Hrq as <-.
Qed.

Lemma string_literal_closed_witness :
  let l := Lexer.new (Lexer.DQUOTE :: Lexer.str "a b" ++ Lexer.DQUOTE ::
                      Lexer.str " + 1") in
  Token.kind (fst (Lexer.nextToken l)) = TokenKind.String /\
  Token.text (fst (Lexer.nextToken l)) = Lexer.str "a b" /\
  Lexer.rest (snd (Lexer.nextToken l)) = Lexer.str " + 1".
Proof.
  cbv zeta.
  apply (string_literal_closed
           (Lexer.new (Lexer.DQUOTE :: Lexer.str "a b" ++ Lexer.DQUOTE ::
                       Lexer.str " + 1")) (Lexer.str "a b") (Lexer.str " + 1")).
  - simpl. lia.
  - reflexivity.
  - repeat (constructor; [split; discriminate|]). constructor.
Defined.

(** X5.  [Lexer::string] on a string literal that is still open at the
    end of the source.  No error is reported: the token is a String, and
    since two characters are always cut off for the quotes, its text is
    the body without its last character. *)
Theorem string_literal_unterminated (l : Lexer.t) (body : list ascii) :
  (Lexer.position l <= length (Lexer.source l))%nat ->
  Lexer.rest l = Lexer.DQUOTE :: body ->
  Forall (fun c => c <> Lexer.DQUOTE /\ c <> Lexer.NUL) body ->
  let tok := fst (Lexer.nextToken l) in
  Token.kind tok = TokenKind.String /\
  Token.text tok = removelast body /\
  Lexer.rest (snd (Lexer.nextToken l)) = [].
Proof.
  intros Hb Hr Hbody. cbv zeta.
  rewrite (StringFacts.nextToken_string l _ Hr).
  set (l1 := Lexer.mark_start l).
  assert (Hr' : Lexer.rest l1 = Lexer.DQUOTE :: body ++ [])
    by (rewrite app_nil_r; exact Hr).
  destruct (StringFacts.scan_body l1 body [] Hr' Hbody eq_refl) as [Hc Hrb].
  cbv zeta in Hc, Hrb. unfold Lexer.string. cbv zeta.
  set (lb := Lexer.advance_while Lexer.in_string
               (Lexer.remaining (Lexer.advance l1)) (Lexer.advance l1)) in *.
  rewrite (LexerFacts.peek_rest lb), Hrb. simpl (Ascii.eqb _ _).
  destruct (LexerMore.consumed_bound l1 _ _ Hb Hc) as (Hs & Hp & _).
  destruct Hc as (_ & Hst & _ & _).
  cbn [fst snd Token.kind Token.text]. split; [reflexivity|].
  split; [|exact Hrb].
  rewrite Hst.
  rewrite (StringFacts.substr_after_quote l1 _ body [] _ Hr' Hs).
  rewrite Hp. simpl (Lexer.position l1). simpl (Lexer.startPosition l1).
  rewrite !app_nil_r. simpl length.
  match goal with
  | |- context [?a - ?b - 2] =>
      replace (a - b - 2) with (Z.of_nat (length body) - 1) by lia
  end.
  rewrite removelast_firstn_len.
  destruct (Z.ltb_spec (Z.of_nat (length body) - 1) 0) as [H|H].
  - destruct body; [reflexivity|simpl in H; lia].
  - rewrite Z.min_l by lia. f_equal. lia.
Qed.

Lemma string_literal_unterminated_witness :
  let l := Lexer.new (Lexer.DQUOTE :: Lexer.str "abc") in
  Token.kind (fst (Lexer.nextToken l)) = TokenKind.String /\
  Token.text (fst (Lexer.nextToken l)) = Lexer.str "ab" /\
  Lexer.rest (snd (Lexer.nextToken l)) = [].
Proof.
  cbv zeta.
  apply (string_literal_unterminated
           (Lexer.new (Lexer.DQUOTE :: Lexer.str "abc")) (Lexer.str "abc")).
  - simpl. lia.
  - reflexivity.
  - repeat (constructor; [split; discriminate|]). constructor.
Defined.

Module CounterFacts.
Import Lexer LexerSpec.

Lemma column_after_plain w : forall col,
  Forall (fun c => significant c = true) w ->
  column_after col w = col + Z.of_nat (length w).
Proof.
  induction w as [|c w IH]; intros col H; simpl; [lia|].
  inversion H as [|? ? Hc Hw]; subst.
  rewrite (LexerMore.significant_not_NL c Hc), IH by assumption. lia.
Qed.

(** What [nextToken] hands out: the line of the token is the line the
    reader is on afterwards, and a token other than a String is the slice
    between the start mark and the reader, made of significant
    characters. *)
Lemma nextToken_atom l :
  let l1 := mark_start (skipWhitespace l) in
  let tok := fst (nextToken l) in
  let l' := snd (nextToken l) in
  Token.line tok = line l' /\
  (Token.kind tok <> TokenKind.String ->
   tok = atom l' (Token.kind tok) /\
   exists w, consumed l1 l' w /\ Forall (fun c => significant c = true) w).
Proof.
  intros l1. cbv zeta. unfold nextToken. fold l1.
  assert (Hsig : significant (peek l1) = true)
    by apply LexerMore.skipWhitespace_stop.
  destruct (Ascii.eqb_spec (peek l1) NUL) as [Hnul|Hnul].
  { cbn [fst snd]. split; [reflexivity|]. intros _. split; [reflexivity|].
    exists []. split; [apply LexerFacts.consumed_refl|constructor]. }
  destruct (LexerFacts.peek_cons l1 _ eq_refl Hnul) as [r Hr].
  pose proof (LexerFacts.advance_cons _ _ _ Hr) as Hadv.
  destruct (CType.isalpha (peek l1) || Ascii.eqb (peek l1) "_"%char).
  { destruct (LexerFacts.identifier_spec (advance l1))
      as (w & k & Hw & Hall & Hfst & _).
    rewrite Hfst. split; [reflexivity|]. intros _. split; [reflexivity|].
    exists ([peek l1] ++ w).
    split; [exact (LexerFacts.consumed_trans _ _ _ _ _ Hadv Hw)|].
    constructor; [exact Hsig|].
    eapply Forall_impl; [exact Hall|]. apply LexerFacts.ident_char_significant. }
  destruct (CType.isdigit (peek l1)).
  { destruct (LexerFacts.number_spec l1) as (w & k & Hw & Hall & _ & Hfst & _).
    rewrite Hfst. split; [reflexivity|]. intros _. split; [reflexivity|].
    exists w. split; assumption. }
  destruct (Ascii.eqb (peek l1) DQUOTE).
  { split; [reflexivity|]. intros H. now contradiction H. }
  destruct (LexerFacts.switch_spec (peek l1) (advance l1))
    as (w & k & Hw & Hall & Hfst & _).
  rewrite Hfst. split; [reflexivity|]. intros _. split; [reflexivity|].
  exists ([peek l1] ++ w).
  split; [exact (LexerFacts.consumed_trans _ _ _ _ _ Hadv Hw)|].
  constructor; assumption.
Qed.

Lemma advances_nextToken l :
  advances (mark_start (skipWhitespace l)) (snd (nextToken l)).
Proof.
  destruct (LexerMore.nextToken_cases l) as [[_ ->]|(_ & _ & H & _)];
    [apply LexerMore.advances_refl|exact H].
Qed.

End CounterFacts.

(** X6.  The line a token carries is the line on which it ends:
    the reader's line before the call, plus one for every line feed in what
    the call read -- whitespace, comments and the token itself.  The
    reader's own line counter is then this line. *)
Theorem token_line (l : Lexer.t) :
  let tok := fst (Lexer.nextToken l) in
  let l' := snd (Lexer.nextToken l) in
  exists w, Lexer.rest l = w ++ Lexer.rest l' /\
    Token.line tok = Lexer.line l + LexerSpec.newlines w /\
    Lexer.line l' = Token.line tok.
Proof.
  cbv zeta.
  destruct (LexerMore.skipWhitespace_consumed l) as (w0 & Hc0 & Hl0 & _).
  destruct (LexerMore.advances_scanned _ _ (CounterFacts.advances_nextToken l))
    as (w & Hc & Hl & _).
  destruct (CounterFacts.nextToken_atom l) as [Hline _]. cbv zeta in Hline.
  exists (w0 ++ w). rewrite Hline, Hl, LexerMore.newlines_app.
  destruct Hc0 as (_ & _ & Hr0 & _). destruct Hc as (_ & _ & Hr & _).
  change (Lexer.rest (Lexer.mark_start (Lexer.skipWhitespace l)))
    with (Lexer.rest (Lexer.skipWhitespace l)) in Hr.
  change (Lexer.line (Lexer.mark_start (Lexer.skipWhitespace l)))
    with (Lexer.line (Lexer.skipWhitespace l)).
  rewrite Hr0, Hr, Hl0, <- app_assoc. repeat split; lia.
Qed.

(** X7.  The column a token other than a String carries is the column of
    its first character: what the call read is the skipped whitespace and
    comments [w0] followed by the token's text, and the token's column is
    the column reached by reading [w0] from where the reader stood. *)
Theorem token_column (l : Lexer.t) :
  (Lexer.position l <= length (Lexer.source l))%nat ->
  let tok := fst (Lexer.nextToken l) in
  let l' := snd (Lexer.nextToken l) in
  Token.kind tok <> TokenKind.String ->
  exists w0, Lexer.rest l = w0 ++ Token.text tok ++ Lexer.rest l' /\
    Token.column tok = LexerSpec.column_after (Lexer.column l) w0.
Proof.
  intros Hb. cbv zeta. intros Hk.
  destruct (LexerMore.skipWhitespace_consumed l) as (w0 & Hc0 & _ & Hcol0).
  destruct (LexerMore.consumed_bound _ _ _ Hb Hc0) as (Hs0 & _ & Hb0).
  destruct (CounterFacts.nextToken_atom l) as [_ Hatom]. cbv zeta in Hatom.
  destruct (Hatom Hk) as (Htok & w & Hc & Hsig).
  pose proof (LexerMore.consumed_scanned _ _ _
                (CounterFacts.advances_nextToken l) Hc) as (_ & _ & Hcol).
  set (l1 := Lexer.mark_start (Lexer.skipWhitespace l)) in *.
  assert (Hb1 : (Lexer.position l1 <= length (Lexer.source l1))%nat).
  { simpl. rewrite Hs0. exact Hb0. }
  exists w0. rewrite Htok.
  rewrite (LexerFacts.atom_text l1 _ w _ Hb1 eq_refl Hc).
  split.
  - destruct Hc0 as (_ & _ & Hr0 & _). destruct Hc as (_ & _ & Hr & _).
    change (Lexer.rest l1) with (Lexer.rest (Lexer.skipWhitespace l)) in Hr.
    now rewrite Hr0, Hr.
  - unfold Lexer.atom at 1. cbn [Token.column].
    change (substr _ _ _) with (Token.text (Lexer.atom (snd (Lexer.nextToken l))
                                              (Token.kind (fst (Lexer.nextToken l))))).
    rewrite (LexerFacts.atom_text l1 _ w _ Hb1 eq_refl Hc).
    rewrite Hcol, (CounterFacts.column_after_plain w _ Hsig).
    change (Lexer.column l1) with (Lexer.column (Lexer.skipWhitespace l)).
    rewrite Hcol0. lia.
Qed.

Lemma token_column_witness :
  let l := Lexer.new (Lexer.str "x # note
  total = 1") in
  let l1 := snd (Lexer.nextToken l) in
  exists w0,
    Lexer.rest l1 =
      w0 ++ Token.text (fst (Lexer.nextToken l1)) ++
      Lexer.rest (snd (Lexer.nextToken l1)) /\
    Token.column (fst (Lexer.nextToken l1)) =
      LexerSpec.column_after (Lexer.column l1) w0.
Proof.
  cbv zeta.
  apply (token_column (snd (Lexer.nextToken (Lexer.new (Lexer.str "x # note
  total = 1"))))).
  - vm_compute. lia.
  - vm_compute. discriminate.
Defined.

(** X8.  The operators of two characters.  [==], [!=] and [->] are read as
    one token whenever the second character follows the first directly;
    otherwise the first character alone is Equal, Error (a lone [!] is no
    operator) or Minus, and the character after it is left unread. *)
Theorem two_char_operator (l : Lexer.t) (c d : ascii)
    (both single : TokenKind.t) (r : list ascii) :
  (Lexer.position l <= length (Lexer.source l))%nat ->
  In (c, d, both, single) LexerSpec.two_char_operators ->
  Lexer.rest l = c :: r ->
  let tok := fst (Lexer.nextToken l) in
  let l' := snd (Lexer.nextToken l) in
  (hd Lexer.NUL r = d ->
   Token.kind tok = both /\ Token.text tok = [c; d] /\ Lexer.rest l' = tl r) /\
  (hd Lexer.NUL r <> d ->
   Token.kind tok = single /\ Token.text tok = [c] /\ Lexer.rest l' = r).
Proof.
  intros Hb Hin Hr. cbv zeta.
  pose proof (KeywordFacts.peek_of_rest _ _ _ Hr) as Hpk.
  assert (Hsig : Lexer.significant c = true).
  { simpl in Hin. destruct Hin as [H|[H|[H|[]]]]; injection H as <- _ _ _;
      reflexivity. }
  unfold Lexer.nextToken.
  rewrite (LexerMore.skipWhitespace_stay l) by (rewrite Hpk; exact Hsig).
  set (l1 := Lexer.mark_start l).
  change (Lexer.peek l1) with (Lexer.peek l). rewrite Hpk.
  pose proof (LexerFacts.advance_cons l1 c r Hr) as Hadv.
  assert (Hra : Lexer.rest (Lexer.advance l1) = r).
  { destruct Hadv as (_ & _ & H & _). change (Lexer.rest l1) with (Lexer.rest l) in H.
    rewrite Hr in H. simpl in H. now injection H as <-. }
  assert (Hone : forall k,
            Token.text (Lexer.atom (Lexer.advance l1) k) = [c])
    by (intros k; exact (LexerFacts.atom_text l1 _ _ k Hb eq_refl Hadv)).
  assert (Htwo : forall k, hd Lexer.NUL r = d -> d <> Lexer.NUL ->
            Token.text (Lexer.atom (Lexer.advance (Lexer.advance l1)) k) = [c; d] /\
            Lexer.rest (Lexer.advance (Lexer.advance l1)) = tl r).
  { intros k Hd Hn. destruct r as [|d' r']; simpl in Hd; [congruence|]. subst d'.
    pose proof (LexerFacts.advance_cons _ d r' Hra) as Hadv2.
    split.
    - exact (LexerFacts.atom_text l1 _ _ k Hb eq_refl
               (LexerFacts.consumed_trans _ _ _ _ _ Hadv Hadv2)).
    - destruct Hadv2 as (_ & _ & H & _). rewrite Hra in H. simpl in H.
      now injection H as <-. }
  simpl in Hin.
  destruct Hin as [H|[H|[H|[]]]]; injection H as <- <- <- <-;
    cbn [Ascii.eqb Bool.eqb Lexer.NUL Lexer.DQUOTE CType.isalpha CType.isdigit
         CType.code N_of_ascii N_of_digits orb andb Lexer.nextToken_switch];
    simpl (CType.isalpha _ || _); simpl (CType.isdigit _);
    rewrite (LexerFacts.peek_rest (Lexer.advance l1)), Hra;
    match goal with
    | |- context [Ascii.eqb (hd Lexer.NUL r) ?x] =>
        destruct (Ascii.eqb_spec (hd Lexer.NUL r) x) as [E|E]
    end; cbn [fst snd];
    (split; intros Hd; try contradiction; split; [reflexivity|]);
    first [apply Htwo; [exact E|discriminate]
          |split; [apply Hone|exact Hra]].
Qed.

Lemma two_char_operator_witness :
  let l := Lexer.new (Lexer.str "!x") in
  Token.kind (fst (Lexer.nextToken l)) = TokenKind.Error /\
  Token.text (fst (Lexer.nextToken l)) = Lexer.str "!" /\
  Lexer.rest (snd (Lexer.nextToken l)) = Lexer.str "x".
Proof.
  cbv zeta.
  apply (two_char_operator (Lexer.new (Lexer.str "!x")) "!"%char "="%char
           TokenKind.NotEqual TokenKind.Error (Lexer.str "x")).
  - simpl. lia.
  - simpl. tauto.
  - reflexivity.
  - discriminate.
Defined.

(** X9.  [toString(TokenKind)], the name of a kind in the parser's
    diagnostics: it answers Unknown exactly for the two bracket kinds, for
    which the switch has no case, and tells all other kinds apart. *)
Theorem toString_unknown (k : TokenKind.t) :
  (toString k = "Unknown" <->
   k = TokenKind.LBracket \/ k = TokenKind.RBracket) /\
  (forall k', toString k = toString k' ->
     k = k' \/ toString k = "Unknown").
Proof.
  split.
  - destruct k; simpl; split; intros H; try discriminate H; auto;
      destruct H as [H|H]; discriminate H.
  - intros k'. destruct k, k'; simpl; intros H; try discriminate H; auto.
Qed.

Module KindFacts.
Import Lexer.

Definition not_bracket (kind : TokenKind.t) : Prop :=
  kind <> TokenKind.LBracket /\ kind <> TokenKind.RBracket.

Lemma identifier_kind l : not_bracket (Token.kind (fst (identifier l))).
Proof.
  unfold identifier.
  repeat match goal with
         | |- context [if ?b then _ else _] =>
             destruct b; [split; discriminate|]
         end.
  split; discriminate.
Qed.

Lemma number_kind l : not_bracket (Token.kind (fst (number l))).
Proof. unfold number. destruct (Ascii.eqb _ _); split; discriminate. Qed.

Lemma switch_kind c l : not_bracket (Token.kind (fst (nextToken_switch c l))).
Proof.
  destruct c as [[|] [|] [|] [|] [|] [|] [|] [|]]; cbn [nextToken_switch];
    try (split; discriminate);
    match goal with
    | |- context [Ascii.eqb (peek l) ?x] =>
        destruct (Ascii.eqb (peek l) x); split; discriminate
    end.
Qed.

Lemma nextToken_kind l : not_bracket (Token.kind (fst (nextToken l))).
Proof.
  unfold nextToken.
  destruct (Ascii.eqb _ NUL); [split; discriminate|].
  destruct (_ || _); [apply identifier_kind|].
  destruct (CType.isdigit _); [apply number_kind|].
  destruct (Ascii.eqb _ DQUOTE); [split; discriminate|].
  apply switch_kind.
Qed.

End KindFacts.

(** X10.  [Lexer::nextToken] never answers with one of the two bracket
    kinds, whatever the source and wherever the reader stands: no branch
    of the function builds an LBracket or an RBracket token. *)
Theorem lexer_yields_no_bracket (l : Lexer.t) :
  Token.kind (fst (Lexer.nextToken l)) <> TokenKind.LBracket /\
  Token.kind (fst (Lexer.nextToken l)) <> TokenKind.RBracket.
Proof. exact (KindFacts.nextToken_kind l). Qed.

(* ===================================================================== *)
(** * Parser: further properties *)
(* ===================================================================== *)

Module ParserMore.
Import Parser.

Section WithLexer.
Context {L : Type} (next : L -> Token.t * L).

Lemma match_true kind (l l' : L) (tok tok' : Token.t) :
  Token.kind tok = kind -> next l = (tok', l') ->
  match_ next kind (mk l tok) = Ok (true, mk l' tok').
Proof.
  intros Hk Hn. unfold match_, bind, kind_is. cbn [currentToken].
  rewrite (proj2 (LexerFacts.eqb_eq _ _) Hk).
  unfold advance. cbn [lexer]. rewrite Hn. reflexivity.
Qed.

Lemma match_false kind (l : L) (tok : Token.t) :
  Token.kind tok <> kind ->
  match_ next kind (mk l tok) = Ok (false, mk l tok).
Proof.
  intros Hk. unfold match_, bind, kind_is. cbn [currentToken].
  now rewrite (ParserFacts.eqb_neq _ _ Hk).
Qed.

Lemma consume_ok kind msg (l l' : L) (tok tok' : Token.t) :
  Token.kind tok = kind -> next l = (tok', l') ->
  consume next kind msg (mk l tok) = Ok (tok, mk l' tok').
Proof.
  intros Hk Hn. unfold consume, bind, current. cbn [currentToken].
  rewrite (proj2 (LexerFacts.eqb_eq _ _) Hk).
  unfold advance. cbn [lexer]. rewrite Hn. reflexivity.
Qed.

Lemma consume_exit kind msg (l : L) (tok : Token.t) :
  Token.kind tok <> kind ->
  consume next kind msg (mk l tok) = Exit msg.
Proof.
  intros Hk. unfold consume, bind, current. cbn [currentToken].
  now rewrite (ParserFacts.eqb_neq _ _ Hk).
Qed.

Lemma operator_ends_operand kind :
  0 <= getPrecedence kind -> ends_operand kind.
Proof. destruct kind; simpl; intros H; try lia; repeat split; discriminate. Qed.

Lemma getPrecedence_min kind : -1 <= getPrecedence kind.
Proof. destruct kind; simpl; lia. Qed.

(** One turn of the loop of [parseBinary] in which the operator after the
    right operand binds tighter: the right operand is first extended by the
    inner call, which takes [b op2 c] and stops in front of [t]. *)
Lemma parseBinary_nest_right fuel exprPrec lhs (l l1 l2 l3 l4 : L)
      (op1 b op2 c t : Token.t) :
  exprPrec <= getPrecedence (Token.kind op1) ->
  getPrecedence (Token.kind op1) < getPrecedence (Token.kind op2) ->
  next l = (b, l1) -> Token.kind b = TokenKind.Identifier ->
  next l1 = (op2, l2) ->
  next l2 = (c, l3) -> Token.kind c = TokenKind.Identifier ->
  next l3 = (t, l4) -> ends_operand (Token.kind t) ->
  getPrecedence (Token.kind t) <= getPrecedence (Token.kind op1) ->
  parseBinary next (S (S (S (S (S fuel))))) exprPrec lhs (mk l op1) =
    parseBinary next (S (S (S (S fuel)))) exprPrec
      (BinaryExpr None (text_string op1) lhs
         (BinaryExpr None (text_string op2)
            (VariableExpr None (text_string b))
            (VariableExpr None (text_string c))))
      (mk l4 t).
Proof.
  intros Hprec Hlt Hn Hb Hn1 Hn2 Hc Hn3 Hends Ht.
  assert (Hop2 : ends_operand (Token.kind op2)).
  { apply operator_ends_operand.
    pose proof (getPrecedence_min (Token.kind op1)). lia. }
  rewrite ParserFacts.parseBinary_eq. unfold bind at 1.
  cbn [current currentToken]. cbv zeta.
  apply Z.ltb_ge in Hprec. rewrite Hprec.
  unfold bind at 1. unfold advance at 1. cbn [lexer]. rewrite Hn.
  unfold bind at 1.
  rewrite (ParserFacts.parsePrimary_variable next _ l1 l2 b op2 Hb Hn1 Hop2).
  unfold bind at 1. cbn [current currentToken].
  apply Z.ltb_lt in Hlt. rewrite Hlt. apply Z.ltb_lt in Hlt.
  unfold bind at 1.
  rewrite (ParserFacts.parseBinary_fold_left next _ _ _ l2 l3 l4 op2 c t);
    [|lia|assumption|assumption|assumption|assumption|lia].
  rewrite ParserFacts.parseBinary_stop by lia.
  reflexivity.
Qed.

End WithLexer.
End ParserMore.

(** X11.  Precedence and grouping of two binary operators.  For
    identifiers a, b, c and operators op1, op2, followed by a token that
    continues neither the operand nor the expression, [parseExpression] on
    a op1 b op2 c groups to the right, a op1 (b op2 c), exactly when op2
    binds tighter than op1, and to the left, (a op1 b) op2 c, in every
    other case -- also when the two have the same precedence. *)
Theorem binary_precedence {L : Type} (next : L -> Token.t * L)
    (l0 l5 : L) (a op1 b op2 c t : Token.t) (fuel : nat) :
  Token.kind a = TokenKind.Identifier ->
  Token.kind b = TokenKind.Identifier ->
  Token.kind c = TokenKind.Identifier ->
  0 <= Parser.getPrecedence (Token.kind op1) ->
  0 <= Parser.getPrecedence (Token.kind op2) ->
  Parser.reads next l0 [op1; b; op2; c; t] l5 ->
  Parser.getPrecedence (Token.kind t) = -1 ->
  Parser.ends_operand (Token.kind t) ->
  (7 <= fuel)%nat ->
  let va := VariableExpr None (Parser.text_string a) in
  let vb := VariableExpr None (Parser.text_string b) in
  let vc := VariableExpr None (Parser.text_string c) in
  Parser.parseExpression next fuel (Parser.mk l0 a) =
    Parser.Ok
      (if Parser.getPrecedence (Token.kind op1) <?
          Parser.getPrecedence (Token.kind op2)
       then BinaryExpr None (Parser.text_string op1) va
              (BinaryExpr None (Parser.text_string op2) vb vc)
       else BinaryExpr None (Parser.text_string op2)
              (BinaryExpr None (Parser.text_string op1) va vb) vc,
       Parser.mk l5 t).
Proof.
  intros Ha Hb Hc H1 H2 Hreads Ht Hends Hfuel. cbv zeta.
  destruct Hreads as (l1 & R0 & l2 & R1 & l3 & R2 & l4 & R3 & l5' & R4 & <-).
  do 7 (destruct fuel as [|fuel]; [lia|]).
  pose proof (ParserMore.operator_ends_operand _ H1) as Hop1.
  pose proof (ParserMore.operator_ends_operand _ H2) as Hop2.
  rewrite ParserFacts.parseExpression_eq. unfold Parser.bind at 1.
  rewrite (ParserFacts.parsePrimary_variable next _ l0 l1 a op1 Ha R0 Hop1).
  destruct (Z.ltb_spec (Parser.getPrecedence (Token.kind op1))
              (Parser.getPrecedence (Token.kind op2))) as [Hlt|Hge].
  - rewrite (ParserMore.parseBinary_nest_right next _ 0 _ l1 l2 l3 l4 l5'
               op1 b op2 c t); try assumption; try lia.
    apply ParserFacts.parseBinary_stop. lia.
  - rewrite (ParserFacts.parseBinary_fold_left next _ 0 _ l1 l2 l3 op1 b op2);
      try assumption; try lia.
    rewrite (ParserFacts.parseBinary_fold_left next _ 0 _ l3 l4 l5' op2 c t);
      try assumption; try lia.
    apply ParserFacts.parseBinary_stop. lia.
Qed.

Lemma binary_precedence_witness :
  Parser.parseExpression Lexer.nextToken 7
      (Parser.new Lexer.nextToken (Lexer.new (Lexer.str "x+y*z"))) =
    Parser.Ok
      (BinaryExpr None "+" (VariableExpr None "x")
         (BinaryExpr None "*" (VariableExpr None "y") (VariableExpr None "z")),
       Parser.new Lexer.nextToken (Lexer.mk (Lexer.str "x+y*z") 5 1 6 4)).
Proof.
  refine (binary_precedence Lexer.nextToken
            (Lexer.mk (Lexer.str "x+y*z") 1 1 2 0)
            (Lexer.mk (Lexer.str "x+y*z") 5 1 6 5)
            (Token.mk TokenKind.Identifier (Lexer.str "x") 1 1)
            (Token.mk TokenKind.Plus (Lexer.str "+") 1 2)
            (Token.mk TokenKind.Identifier (Lexer.str "y") 1 3)
            (Token.mk TokenKind.Star (Lexer.str "*") 1 4)
            (Token.mk TokenKind.Identifier (Lexer.str "z") 1 5)
            (Token.mk TokenKind.EndOfFile [] 1 6)
            7 eq_refl eq_refl eq_refl _ _ _ eq_refl _ _).
  - simpl. lia.
  - simpl. lia.
  - simpl. repeat (eexists; split; [vm_compute; reflexivity|]). reflexivity.
  - repeat split; discriminate.
  - lia.
Defined.

Module TypeNameFacts.
Import Parser ParserSpec.

Section WithLexer.
Context {L : Type} (next : L -> Token.t * L).

Lemma parseTypeName_loop_spec (t : Token.t) (l' : L) :
  Token.kind t <> TokenKind.LBracket ->
  forall brackets fuel type (l : L) (cur : Token.t),
    Forall (fun p : Token.t * Token.t =>
              Token.kind p.1 = TokenKind.LBracket /\
              Token.kind p.2 = TokenKind.RBracket) brackets ->
    reads next l (tl (bracket_tokens brackets ++ [t])) l' ->
    hd t (bracket_tokens brackets ++ [t]) = cur ->
    (length brackets < fuel)%nat ->
    parseTypeName_loop next fuel type (mk l cur) =
      Ok (array_name (length brackets) type, mk l' t).
Proof.
  intros Ht. induction brackets as [|[o c] bs IH];
    intros fuel type l cur Hall Hreads Hcur Hfuel;
    (destruct fuel as [|fuel]; [simpl in Hfuel; lia|]).
  - simpl in Hreads, Hcur. subst cur l'. cbn [parseTypeName_loop].
    unfold bind at 1. rewrite (ParserMore.match_false next _ l t Ht).
    reflexivity.
  - simpl in Hcur. subst cur.
    inversion Hall as [|? ? [Ho Hc] Hall']; subst. simpl in Ho, Hc.
    change (bracket_tokens ((o, c) :: bs) ++ [t])
      with (o :: c :: (bracket_tokens bs ++ [t])) in Hreads.
    cbn [tl] in Hreads. destruct Hreads as (l1 & Hn1 & Hreads).
    destruct (bracket_tokens bs ++ [t]) as [|x xs] eqn:E.
    { destruct (bracket_tokens bs); discriminate. }
    destruct Hreads as (l2 & Hn2 & Hreads).
    cbn [parseTypeName_loop]. unfold bind at 1.
    rewrite (ParserMore.match_true next _ l l1 o c Ho Hn1).
    unfold bind at 1.
    rewrite (ParserMore.consume_ok next _ _ l1 l2 c x Hc Hn2).
    rewrite (IH fuel (type +:+ "[]") l2 x Hall');
      [|exact Hreads|reflexivity|simpl in Hfuel; lia].
    unfold array_name. cbn [length]. now rewrite Nat.iter_succ_r.
Qed.

End WithLexer.
End TypeNameFacts.

(** X12.  [Parser::parseTypeName] reads an identifier and then every pair
    of brackets that follows, and appends one "[]" to the name for each
    pair: with [n] pairs the result is the name followed by [n] times "[]".
    It stops in front of the first token that is no opening bracket. *)
Theorem parseTypeName_brackets {L : Type} (next : L -> Token.t * L)
    (brackets : list (Token.t * Token.t)) (l l' : L) (name t : Token.t)
    (fuel : nat) :
  Token.kind name = TokenKind.Identifier ->
  Forall (fun p : Token.t * Token.t =>
            Token.kind p.1 = TokenKind.LBracket /\
            Token.kind p.2 = TokenKind.RBracket) brackets ->
  Parser.reads next l (ParserSpec.bracket_tokens brackets ++ [t]) l' ->
  Token.kind t <> TokenKind.LBracket ->
  (length brackets < fuel)%nat ->
  Parser.parseTypeName next fuel (Parser.mk l name) =
    Parser.Ok (ParserSpec.array_name (length brackets) (Parser.text_string name),
               Parser.mk l' t).
Proof.
  intros Hname Hall Hreads Ht Hfuel. unfold Parser.parseTypeName.
  destruct (ParserSpec.bracket_tokens brackets ++ [t]) as [|x xs] eqn:E.
  { destruct (ParserSpec.bracket_tokens brackets); discriminate. }
  destruct Hreads as (l1 & Hn & Hreads).
  unfold Parser.bind at 1.
  rewrite (ParserMore.consume_ok next _ _ l l1 name x Hname Hn).
  apply (TypeNameFacts.parseTypeName_loop_spec next t l' Ht brackets);
    [exact Hall|rewrite E; exact Hreads|rewrite E; reflexivity|exact Hfuel].
Qed.

Lemma parseTypeName_brackets_witness :
  let lb := Token.mk TokenKind.LBracket (Lexer.str "[") 1 4 in
  let rb := Token.mk TokenKind.RBracket (Lexer.str "]") 1 5 in
  let eof := Token.mk TokenKind.EndOfFile [] 1 6 in
  let next := fun ts : list Token.t =>
                match ts with [] => (eof, []) | tok :: ts' => (tok, ts') end in
  Parser.parseTypeName next 3
    (Parser.mk [lb; rb; lb; rb]
       (Token.mk TokenKind.Identifier (Lexer.str "int") 1 1)) =
    Parser.Ok ("int[][]", Parser.mk [] eof).
Proof.
  cbv zeta.
  refine (parseTypeName_brackets _
            [(Token.mk TokenKind.LBracket (Lexer.str "[") 1 4,
              Token.mk TokenKind.RBracket (Lexer.str "]") 1 5);
             (Token.mk TokenKind.LBracket (Lexer.str "[") 1 4,
              Token.mk TokenKind.RBracket (Lexer.str "]") 1 5)]
            _ [] (Token.mk TokenKind.Identifier (Lexer.str "int") 1 1)
            (Token.mk TokenKind.EndOfFile [] 1 6) 3 eq_refl _ _ _ _).
  - repeat constructor.
  - simpl. repeat (eexists; split; [reflexivity|]). reflexivity.
  - discriminate.
  - simpl. lia.
Defined.

(** X13.  A [var] declaration needs a type annotation or an initializer:
    when the name is followed by neither a colon nor an equals sign,
    [parseStatement] ends the run with its diagnostic. *)
Theorem var_needs_type_or_initializer {L : Type} (next : L -> Token.t * L)
    (l l1 l2 : L) (kw name t : Token.t) (fuel : nat) :
  Token.kind kw = TokenKind.Var ->
  next l = (name, l1) ->
  Token.kind name = TokenKind.Identifier ->
  next l1 = (t, l2) ->
  Token.kind t <> TokenKind.Colon ->
  Token.kind t <> TokenKind.Equal ->
  Parser.parseStatement next (S fuel) (Parser.mk l kw) =
    Parser.Exit "Expected '=' or type annotation for 'var'".
Proof.
  intros Hkw Hn Hname Hn1 Hcolon Hequal.
  cbn [Parser.parseStatement].
  unfold Parser.bind at 1.
  rewrite (ParserMore.match_false next TokenKind.Return l kw)
    by (rewrite Hkw; discriminate).
  unfold Parser.bind at 1.
  rewrite (ParserMore.match_false next TokenKind.If l kw)
    by (rewrite Hkw; discriminate).
  unfold Parser.bind at 1.
  rewrite (ParserMore.match_false next TokenKind.While l kw)
    by (rewrite Hkw; discriminate).
  unfold Parser.bind at 1.
  rewrite (ParserMore.match_true next TokenKind.Var l l1 kw name Hkw Hn).
  unfold Parser.bind at 1.
  rewrite (ParserMore.consume_ok next _ _ l1 l2 name t Hname Hn1).
  unfold Parser.bind at 1.
  rewrite (ParserMore.match_false next TokenKind.Colon l2 t Hcolon).
  unfold Parser.bind at 1. unfold Parser.ret at 1.
  unfold Parser.bind at 1.
  rewrite (ParserMore.match_false next TokenKind.Equal l2 t Hequal).
  unfold Parser.bind at 1.
  rewrite bool_decide_eq_true_2 by reflexivity.
  unfold Parser.bind at 1.
  rewrite (ParserMore.consume_exit next TokenKind.Equal _ l2 t Hequal).
  reflexivity.
Qed.

Lemma var_needs_type_or_initializer_witness :
  Parser.parseStatement Lexer.nextToken 1
      (Parser.new Lexer.nextToken (Lexer.new (Lexer.str "var x  y = 1"))) =
    Parser.Exit "Expected '=' or type annotation for 'var'".
Proof.
  refine (var_needs_type_or_initializer Lexer.nextToken
            (Lexer.mk (Lexer.str "var x  y = 1") 3 1 4 0)
            (Lexer.mk (Lexer.str "var x  y = 1") 5 1 6 4)
            (Lexer.mk (Lexer.str "var x  y = 1") 8 1 9 7)
            (Token.mk TokenKind.Var (Lexer.str "var") 1 1)
            (Token.mk TokenKind.Identifier (Lexer.str "x") 1 5)
            (Token.mk TokenKind.Identifier (Lexer.str "y") 1 8)
            0 eq_refl eq_refl eq_refl eq_refl _ _); discriminate.
Defined.

Module ModuleFacts.
Import Parser.

Section WithLexer.
Context {L : Type} (next : L -> Token.t * L).

Lemma parseModule_eq fuel :
  parseModule next (S fuel) =
    bind current (fun tok =>
      match Token.kind tok with
      | TokenKind.EndOfFile => ret []
      | kind =>
          bind (match kind with
                | TokenKind.Def => parseFunction next fuel
                | TokenKind.Struct => parseStruct next fuel
                | TokenKind.Extern => parseExtern next fuel
                | _ => parseStatement next fuel
                end) (fun s =>
          bind (parseModule next fuel) (fun ss => ret (s :: ss)))
      end).
Proof. reflexivity. Qed.

Lemma bind_cons_not_nil {A} (m : M A) (k : M (list A)) (p : t (L := L)) :
  bind m (fun s => bind k (fun ss => ret (s :: ss))) p <> Ok ([], p) /\
  forall p', bind m (fun s => bind k (fun ss => ret (s :: ss))) p <> Ok ([], p').
Proof.
  assert (H : forall p',
            bind m (fun s => bind k (fun ss => ret (s :: ss))) p <> Ok ([], p')).
  { intros p'. unfold bind, ret. destruct (m p) as [[s p1]| |]; try discriminate.
    destruct (k p1) as [[ss p2]| |]; discriminate. }
  split; [apply H|exact H].
Qed.

(** A module is empty exactly when its first token is EndOfFile. *)
Lemma parseModule_nil fuel (l : L) (tok : Token.t) :
  (exists p', parseModule next (S fuel) (mk l tok) = Ok ([], p')) <->
  Token.kind tok = TokenKind.EndOfFile.
Proof.
  rewrite parseModule_eq. unfold bind at 1. cbn [current currentToken].
  split.
  - intros [p' H]. destruct (Token.kind tok); try reflexivity;
      exfalso; exact (proj2 (bind_cons_not_nil _ _ _) p' H).
  - intros ->. eexists. reflexivity.
Qed.

End WithLexer.
End ModuleFacts.

(** X14.  The empty module.  For a source text without NUL and without
    double quote, [parseModule] returns no statement exactly when the text
    holds nothing but whitespace and comments. *)
Theorem module_empty_iff (src : string) :
  Forall (fun c => c <> Lexer.NUL /\ c <> Lexer.DQUOTE) (Lexer.str src) ->
  (parse_module src = Parser.Ok [] <-> strip (Lexer.str src) = []).
Proof.
  intros Hclean.
  set (l := Lexer.new (Lexer.str src)).
  assert (Hfuel : exists f, parse_fuel src = S f)
    by (exists (10 * String.length src + 19)%nat; unfold parse_fuel; lia).
  destruct Hfuel as [f Hf].
  assert (Hmod : parse_module src = Parser.Ok [] <->
                 Token.kind (fst (Lexer.nextToken l)) = TokenKind.EndOfFile).
  { rewrite <- (ModuleFacts.parseModule_nil Lexer.nextToken f
                  (snd (Lexer.nextToken l)) (fst (Lexer.nextToken l))).
    unfold parse_module, Parser.new. rewrite Hf. fold l.
    destruct (Lexer.nextToken l) as [tok l1]. cbn [fst snd].
    destruct (Parser.parseModule Lexer.nextToken (S f) (Parser.mk l1 tok))
      as [[stmts p']| |]; split.
    - intros H. injection H as ->. eauto.
    - intros [p'' H]. injection H as -> _. reflexivity.
    - discriminate.
    - intros [p'' H]. discriminate.
    - discriminate.
    - intros [p'' H]. discriminate. }
  rewrite Hmod.
  destruct (LexerFacts.skipWhitespace_spec l Hclean) as (w0 & Hc0 & Hstrip & Hsig).
  pose proof (LexerFacts.clean_consumed _ _ _ Hc0 Hclean) as Hclean0.
  change (Lexer.rest l) with (Lexer.str src) in Hstrip. rewrite Hstrip.
  destruct (LexerMore.nextToken_cases l) as [[Hnul E]|(Hnul & Hk & _)].
  - rewrite E. cbn [fst]. split; [intros _|reflexivity].
    change (Lexer.peek (Lexer.mark_start (Lexer.skipWhitespace l)))
      with (Lexer.peek (Lexer.skipWhitespace l)) in Hnul.
    rewrite LexerFacts.peek_rest in Hnul.
    destruct (Lexer.rest (Lexer.skipWhitespace l)) as [|c r]; [reflexivity|].
    simpl in Hnul. inversion Hclean0 as [|? ? [Hn _] _]; congruence.
  - split; [intros H; contradiction|]. intros Hs. exfalso.
    change (Lexer.peek (Lexer.mark_start (Lexer.skipWhitespace l)))
      with (Lexer.peek (Lexer.skipWhitespace l)) in Hnul.
    rewrite LexerFacts.peek_rest in Hnul, Hsig.
    destruct (Lexer.rest (Lexer.skipWhitespace l)) as [|c r];
      [now apply Hnul|].
    simpl in Hsig. unfold strip in Hs. simpl in Hs.
    unfold Lexer.significant in Hsig.
    destruct (CType.isspace c); [discriminate|].
    destruct (Ascii.eqb c Lexer.HASH); discriminate.
Qed.

Lemma module_empty_iff_witness :
  parse_module "  # nothing here
   " = Parser.Ok [].
Proof.
  apply module_empty_iff.
  - repeat (constructor; [split; discriminate|]). constructor.
  - reflexivity.
Defined.

(** X15.  An expression starts with an identifier, a literal, an opening
    bracket or an opening parenthesis, and with nothing else: on any other
    token [parseExpression] ends the run.  There is no unary operator.  A
    statement that starts with such a token, and with none of [return],
    [if], [while] and [var], ends the run in the same way. *)
Theorem expression_start {L : Type} (next : L -> Token.t * L) (l : L)
    (tok : Token.t) (fuel : nat) :
  ParserSpec.starts_expression (Token.kind tok) = false ->
  Parser.parseExpression next (S (S fuel)) (Parser.mk l tok) =
    Parser.Exit "Unexpected token in expression" /\
  (~ In (Token.kind tok)
        [TokenKind.Return; TokenKind.If; TokenKind.While; TokenKind.Var] ->
   Parser.parseStatement next (S (S (S fuel))) (Parser.mk l tok) =
     Parser.Exit "Unexpected token in expression").
Proof.
  intros Hstart.
  assert (Hexpr : forall fuel',
            Parser.parseExpression next (S (S fuel')) (Parser.mk l tok) =
              Parser.Exit "Unexpected token in expression").
  { intros fuel'. rewrite ParserFacts.parseExpression_eq.
    unfold Parser.bind at 1. cbn [Parser.parsePrimary].
    unfold Parser.bind at 1. cbn [Parser.current Parser.currentToken].
    unfold Parser.bind at 1.
    destruct (Token.kind tok); try discriminate Hstart; reflexivity. }
  split; [apply Hexpr|]. intros Hkw.
  cbn [Parser.parseStatement].
  unfold Parser.bind at 1.
  rewrite (ParserMore.match_false next TokenKind.Return l tok)
    by (intros E; apply Hkw; rewrite E; simpl; tauto).
  unfold Parser.bind at 1.
  rewrite (ParserMore.match_false next TokenKind.If l tok)
    by (intros E; apply Hkw; rewrite E; simpl; tauto).
  unfold Parser.bind at 1.
  rewrite (ParserMore.match_false next TokenKind.While l tok)
    by (intros E; apply Hkw; rewrite E; simpl; tauto).
  unfold Parser.bind at 1.
  rewrite (ParserMore.match_false next TokenKind.Var l tok)
    by (intros E; apply Hkw; rewrite E; simpl; tauto).
  unfold Parser.bind at 1. rewrite Hexpr. reflexivity.
Qed.

Lemma expression_start_witness :
  Parser.parseExpression Lexer.nextToken 2
      (Parser.new Lexer.nextToken (Lexer.new (Lexer.str "-x"))) =
    Parser.Exit "Unexpected token in expression".
Proof.
  refine (proj1 (expression_start Lexer.nextToken
                   (Lexer.mk (Lexer.str "-x") 1 1 2 0)
                   (Token.mk TokenKind.Minus (Lexer.str "-") 1 1) 0 eq_refl)).
Defined.

Module NoArrayFacts.
Import Parser ParserSpec.

Section WithLexer.
Context {L : Type} (next : L -> Token.t * L).

(** The token source never hands out an opening bracket. *)
Hypothesis next_no_bracket :
  forall l, Token.kind (fst (next l)) <> TokenKind.LBracket.

(** A parsing action that, started on a current token that is no opening
    bracket, ends on such a token with a result satisfying [Q]. *)
Definition good {A} (Q : A -> Prop) (m : M A) : Prop :=
  forall p : t (L := L),
    Token.kind (currentToken p) <> TokenKind.LBracket ->
    match m p with
    | Ok (a, p') =>
        Token.kind (currentToken p') <> TokenKind.LBracket /\ Q a
    | _ => True
    end.

Lemma good_ret {A} (Q : A -> Prop) a : Q a -> good Q (ret a).
Proof. intros H p Hp. simpl. auto. Qed.

Lemma good_bind {A B} (Q1 : A -> Prop) (Q2 : B -> Prop) m k :
  good Q1 m -> (forall a, Q1 a -> good Q2 (k a)) -> good Q2 (bind m k).
Proof.
  intros Hm Hk p Hp. unfold bind. specialize (Hm p Hp).
  destruct (m p) as [[a p']| |]; [|exact I..].
  destruct Hm as [Hp' Ha]. exact (Hk a Ha p' Hp').
Qed.

Lemma good_weaken {A} (Q Q' : A -> Prop) m :
  good Q m -> (forall a, Q a -> Q' a) -> good Q' m.
Proof.
  intros Hm HQ p Hp. specialize (Hm p Hp).
  destruct (m p) as [[a p']| |]; [|exact I..].
  destruct Hm; auto.
Qed.

Lemma good_exit {A} (Q : A -> Prop) msg : good Q (exit_ msg).
Proof. intros p Hp. exact I. Qed.

Lemma good_out_of_fuel {A} (Q : A -> Prop) : good Q out_of_fuel.
Proof. intros p Hp. exact I. Qed.

Lemma good_current :
  good (fun tok => Token.kind tok <> TokenKind.LBracket) current.
Proof. intros p Hp. simpl. auto. Qed.

Lemma good_kind_is kind : good (fun _ => True) (kind_is kind).
Proof. intros p Hp. simpl. auto. Qed.

Lemma good_advance : good (fun _ => True) (advance next).
Proof.
  intros p Hp. unfold advance. pose proof (next_no_bracket (lexer p)) as H.
  destruct (next (lexer p)) as [tok l']. simpl in *. auto.
Qed.

Lemma good_match kind :
  good (fun b => kind = TokenKind.LBracket -> b = false) (match_ next kind).
Proof.
  intros p Hp. unfold match_, bind, kind_is.
  destruct (TokenKind.eqb (Token.kind (currentToken p)) kind) eqn:E.
  - apply LexerFacts.eqb_eq in E.
    pose proof (good_advance p Hp) as H.
    destruct (advance next p) as [[[] p']| |]; [|exact I..].
    simpl. split; [tauto|]. intros ->. contradiction.
  - simpl. auto.
Qed.

Lemma good_match_any kind : good (fun _ => True) (match_ next kind).
Proof. eapply good_weaken; [apply good_match|auto]. Qed.

Lemma good_consume kind msg : good (fun _ => True) (consume next kind msg).
Proof.
  intros p Hp. unfold consume, bind, current.
  destruct (TokenKind.eqb (Token.kind (currentToken p)) kind); [|exact I].
  pose proof (good_advance p Hp) as H.
  destruct (advance next p) as [[[] p']| |]; [|exact I..].
  simpl. tauto.
Qed.

(** ** Equations of the mutually recursive parsing functions *)

Lemma parseExprList_eq fuel :
  parseExprList next (S fuel) =
    bind (parseExpression next fuel) (fun e =>
    bind (match_ next TokenKind.Comma) (fun b =>
      if b then bind (parseExprList next fuel) (fun es => ret (e :: es))
      else ret [e])).
Proof. reflexivity. Qed.

Lemma parsePrimary_eq fuel :
  parsePrimary next (S fuel) =
    bind current (fun tok =>
    bind
      (match Token.kind tok with
       | TokenKind.Identifier =>
           let name := text_string tok in
           bind (advance next) (fun _ =>
           bind (match_ next TokenKind.LParen) (fun b =>
             if b then
               bind (kind_is TokenKind.RParen) (fun closing =>
               bind (if closing then ret [] else parseExprList next fuel)
                 (fun args =>
               bind (consume next TokenKind.RParen "Expected ')'") (fun _ =>
               ret (CallExpr None name args))))
             else ret (VariableExpr None name)))
       | TokenKind.Integer =>
           bind (advance next) (fun _ =>
           ret (LiteralExpr None (text_string tok) false false false))
       | TokenKind.Float =>
           bind (advance next) (fun _ =>
           ret (LiteralExpr None (text_string tok) true false false))
       | TokenKind.True =>
           bind (advance next) (fun _ =>
           ret (LiteralExpr None "true" false true false))
       | TokenKind.False =>
           bind (advance next) (fun _ =>
           ret (LiteralExpr None "false" false true false))
       | TokenKind.String =>
           bind (advance next) (fun _ =>
           ret (LiteralExpr None (text_string tok) false false true))
       | TokenKind.LBracket =>
           bind (advance next) (fun _ =>
           bind (kind_is TokenKind.RBracket) (fun closing =>
           bind (if closing then ret [] else parseExprList next fuel)
             (fun elements =>
           bind (consume next TokenKind.RBracket "Expected ']'") (fun _ =>
           ret (ArrayLiteralExpr None elements)))))
       | TokenKind.LParen =>
           bind (advance next) (fun _ =>
           bind (parseExpression next fuel) (fun e =>
           bind (consume next TokenKind.RParen "Expected ')'") (fun _ =>
           ret e)))
       | _ => exit_ "Unexpected token in expression"
       end) (fun lhs => parsePostfix next fuel lhs)).
Proof. reflexivity. Qed.

Lemma parsePostfix_eq fuel lhs :
  parsePostfix next (S fuel) lhs =
    bind (match_ next TokenKind.Dot) (fun dot =>
      if dot then
        bind (consume next TokenKind.Identifier
                "Expected member name after '.'") (fun member =>
        parsePostfix next fuel (MemberAccessExpr None lhs (text_string member)))
      else
        bind (match_ next TokenKind.LBracket) (fun bracket =>
          if bracket then
            bind (parseExpression next fuel) (fun index =>
            bind (consume next TokenKind.RBracket "Expected ']' after index")
              (fun _ =>
            parsePostfix next fuel (IndexExpr None lhs index)))
          else ret lhs)).
Proof. reflexivity. Qed.

Definition clean_expr (e : Expr) : Prop := no_arrays e = true.
Definition clean_exprs (es : list Expr) : Prop := forallb no_arrays es = true.

Ltac good_step :=
  match goal with
  | |- good _ (ret _) => apply good_ret
  | |- good _ (exit_ _) => apply good_exit
  | |- good _ out_of_fuel => apply good_out_of_fuel
  | |- good _ (bind (advance _) _) =>
      eapply good_bind; [apply good_advance|intros ? _]
  | |- good _ (bind (kind_is _) _) =>
      eapply good_bind; [apply good_kind_is|intros ? _]
  | |- good _ (bind (consume _ _ _) _) =>
      eapply good_bind; [apply good_consume|intros ? _]
  | |- good _ (bind (match_ _ TokenKind.LBracket) _) =>
      eapply good_bind; [apply good_match|intros ? ?]
  | |- good _ (bind (match_ _ _) _) =>
      eapply good_bind; [apply good_match_any|intros ? _]
  | |- good _ (let _ := _ in _) => cbv zeta
  end.

(** The expression parsers build no array node. *)
Lemma good_expressions fuel :
  good clean_expr (parseExpression next fuel) /\
  good clean_exprs (parseExprList next fuel) /\
  good clean_expr (parsePrimary next fuel) /\
  (forall lhs, clean_expr lhs -> good clean_expr (parsePostfix next fuel lhs)) /\
  (forall exprPrec lhs, clean_expr lhs ->
     good clean_expr (parseBinary next fuel exprPrec lhs)).
Proof.
  induction fuel as [|fuel (IHe & IHl & IHp & IHpost & IHb)].
  { repeat split; intros; apply good_out_of_fuel. }
  split; [|split; [|split; [|split]]].
  - rewrite ParserFacts.parseExpression_eq.
    eapply good_bind; [exact IHp|]. intros lhs Hlhs. now apply IHb.
  - rewrite parseExprList_eq.
    eapply good_bind; [exact IHe|]. intros e He.
    good_step. destruct a.
    + eapply good_bind; [exact IHl|]. intros es Hes. apply good_ret.
      unfold clean_exprs. simpl. now rewrite He, Hes.
    + apply good_ret. unfold clean_exprs. simpl. now rewrite He.
  - rewrite parsePrimary_eq.
    eapply good_bind; [apply good_current|]. intros tok Htok.
    cbv beta in Htok.
    apply (good_bind clean_expr clean_expr);
      [|intros lhs Hlhs; now apply IHpost].
    destruct (Token.kind tok); try contradiction;
      repeat good_step; try exact eq_refl.
    + destruct a0; [|apply good_ret; exact eq_refl].
      good_step. apply (good_bind clean_exprs).
      * destruct a0; [apply good_ret; exact eq_refl|exact IHl].
      * intros args Hargs. good_step. apply good_ret. exact Hargs.
    + eapply good_bind; [exact IHe|]. intros e He. good_step.
      apply good_ret. exact He.
  - intros lhs Hlhs. rewrite parsePostfix_eq.
    good_step. destruct a.
    + good_step. apply IHpost. exact Hlhs.
    + good_step. rewrite H by reflexivity. apply good_ret. exact Hlhs.
  - intros exprPrec lhs Hlhs. rewrite ParserFacts.parseBinary_eq.
    eapply good_bind; [apply good_current|]. intros opToken _. cbv zeta.
    destruct (_ <? _); [apply good_ret; exact Hlhs|].
    good_step. eapply good_bind; [exact IHp|]. intros rhs Hrhs.
    eapply good_bind; [apply good_current|]. intros tok _. cbv zeta.
    eapply good_bind.
    + destruct (_ <? _); [now apply IHb|apply good_ret; exact Hrhs].
    + intros rhs' Hrhs'. apply IHb. unfold clean_expr in *. simpl.
      now rewrite Hlhs, Hrhs'.
Qed.

(** ** Statements and declarations *)

Lemma good_parseTypeName_loop fuel :
  forall type, good (fun _ : string => True) (parseTypeName_loop next fuel type).
Proof.
  induction fuel as [|fuel IH]; intros type; [apply good_out_of_fuel|].
  cbn [parseTypeName_loop]. good_step. destruct a; [|now apply good_ret].
  good_step. apply IH.
Qed.

Lemma good_parseTypeName fuel :
  good (fun _ : string => True) (parseTypeName next fuel).
Proof. unfold parseTypeName. good_step. apply good_parseTypeName_loop. Qed.

Definition clean_stmt (s : Stmt) : Prop := no_arrays_stmt s = true.
Definition clean_stmts (ss : list Stmt) : Prop :=
  forallb no_arrays_stmt ss = true.

Lemma parseBlock_eq fuel :
  parseBlock next (S fuel) =
    bind current (fun tok =>
      if block_ends (Token.kind tok) then ret []
      else
        bind (parseStatement next fuel) (fun s =>
        bind (parseBlock next fuel) (fun ss => ret (s :: ss)))).
Proof. reflexivity. Qed.

Lemma parseStatement_eq fuel :
  parseStatement next (S fuel) =
    bind (match_ next TokenKind.Return) (fun is_return =>
    if is_return then
      bind current (fun tok =>
      if TokenKind.eqb (Token.kind tok) TokenKind.End
         || TokenKind.eqb (Token.kind tok) TokenKind.EndOfFile
         || TokenKind.eqb (Token.kind tok) TokenKind.Else
      then ret (ReturnStmt None)
      else bind (parseExpression next fuel) (fun e => ret (ReturnStmt (Some e))))
    else
    bind (match_ next TokenKind.If) (fun is_if =>
    if is_if then
      bind (parseExpression next fuel) (fun condition =>
      bind (parseBlock next fuel) (fun thenBranch =>
      bind (match_ next TokenKind.Else) (fun has_else =>
      bind (if has_else
            then bind (parseBlock next fuel) (fun b => ret (Some b))
            else ret None) (fun elseBranch =>
      bind (consume next TokenKind.End "Expected 'end' after if") (fun _ =>
      ret (IfStmt condition thenBranch elseBranch))))))
    else
    bind (match_ next TokenKind.While) (fun is_while =>
    if is_while then
      bind (parseExpression next fuel) (fun condition =>
      bind (parseBlock next fuel) (fun body =>
      bind (consume next TokenKind.End "Expected 'end' after while") (fun _ =>
      ret (WhileStmt condition body))))
    else
    bind (match_ next TokenKind.Var) (fun is_var =>
    if is_var then
      bind (consume next TokenKind.Identifier "Expected variable name")
        (fun name =>
      bind (match_ next TokenKind.Colon) (fun has_type =>
      bind (if has_type then parseTypeName next fuel else ret EmptyString)
        (fun typeName =>
      bind (match_ next TokenKind.Equal) (fun has_init =>
      bind (if has_init
            then bind (parseExpression next fuel) (fun e => ret (Some e))
            else if bool_decide (typeName = EmptyString)
            then bind (consume next TokenKind.Equal
                         "Expected '=' or type annotation for 'var'")
                   (fun _ => ret None)
            else ret None) (fun init =>
      ret (VarDeclStmt (text_string name) typeName init))))))
    else
      bind (parseExpression next fuel) (fun e => ret (ExprStmt e)))))).
Proof. reflexivity. Qed.

Definition clean_option (o : option Expr) : Prop :=
  match o with Some e => clean_expr e | None => True end.

Definition clean_else (o : option (list Stmt)) : Prop :=
  match o with Some b => clean_stmts b | None => True end.

Lemma good_statements fuel :
  good clean_stmt (parseStatement next fuel) /\
  good clean_stmts (parseBlock next fuel).
Proof.
  induction fuel as [|fuel [IHs IHb]].
  { split; apply good_out_of_fuel. }
  pose proof (proj1 (good_expressions fuel)) as He.
  split.
  - rewrite parseStatement_eq. good_step. destruct a.
    { eapply good_bind; [apply good_current|]. intros tok _.
      destruct (_ || _); [apply good_ret; exact eq_refl|].
      eapply good_bind; [exact He|]. intros e H. apply good_ret. exact H. }
    good_step. destruct a.
    { eapply good_bind; [exact He|]. intros condition Hc.
      eapply good_bind; [exact IHb|]. intros thenBranch Ht.
      good_step. apply (good_bind clean_else).
      - destruct a; [|now apply good_ret].
        eapply good_bind; [exact IHb|]. intros b Hb. apply good_ret. exact Hb.
      - intros elseBranch Hel. good_step. apply good_ret.
        unfold clean_stmt, clean_expr, clean_stmts in *. simpl.
        rewrite Hc, Ht. destruct elseBranch; simpl in *; auto. }
    good_step. destruct a.
    { eapply good_bind; [exact He|]. intros condition Hc.
      eapply good_bind; [exact IHb|]. intros body Hb.
      good_step. apply good_ret.
      unfold clean_stmt, clean_expr, clean_stmts in *. simpl.
      now rewrite Hc, Hb. }
    good_step. destruct a.
    { good_step. good_step. apply (good_bind (fun _ : string => True)).
      - destruct a0; [apply good_parseTypeName|now apply good_ret].
      - intros typeName _. good_step. apply (good_bind clean_option).
        + destruct a1.
          * eapply good_bind; [exact He|]. intros e H. apply good_ret. exact H.
          * destruct (bool_decide _); [|now apply good_ret].
            good_step. now apply good_ret.
        + intros init Hinit. apply good_ret.
          destruct init; [exact Hinit|exact eq_refl]. }
    eapply good_bind; [exact He|]. intros e H. apply good_ret. exact H.
  - rewrite parseBlock_eq.
    eapply good_bind; [apply good_current|]. intros tok _.
    destruct (block_ends _); [apply good_ret; exact eq_refl|].
    eapply good_bind; [exact IHs|]. intros s Hs.
    eapply good_bind; [exact IHb|]. intros ss Hss. apply good_ret.
    unfold clean_stmts, clean_stmt in *. simpl. now rewrite Hs, Hss.
Qed.

Lemma good_parseParams_loop fuel :
  good (fun _ : list (string * string) => True) (parseParams_loop next fuel).
Proof.
  induction fuel as [|fuel IH]; [apply good_out_of_fuel|].
  cbn [parseParams_loop]. good_step. good_step.
  eapply good_bind; [apply good_parseTypeName|]. intros typeName _.
  good_step. destruct a1; [|now apply good_ret].
  eapply good_bind; [exact IH|]. intros ps _. now apply good_ret.
Qed.

Lemma good_parseSignature fuel :
  good (fun _ : string * list (string * string) * string => True)
       (parseSignature next fuel).
Proof.
  unfold parseSignature. do 3 good_step.
  apply (good_bind (fun _ : list (string * string) => True)).
  - destruct a1; [now apply good_ret|apply good_parseParams_loop].
  - intros params _. good_step. good_step.
    apply (good_bind (fun _ : string => True)).
    + destruct a3; [apply good_parseTypeName|now apply good_ret].
    + intros returnType _. now apply good_ret.
Qed.

Lemma good_parseExtern fuel : good clean_stmt (parseExtern next fuel).
Proof.
  unfold parseExtern. do 2 good_step.
  eapply good_bind; [apply good_parseSignature|]. intros [[name params] rt] _.
  apply good_ret. exact eq_refl.
Qed.

Lemma good_parseFunction fuel : good clean_stmt (parseFunction next fuel).
Proof.
  unfold parseFunction. good_step.
  eapply good_bind; [apply good_parseSignature|]. intros [[name params] rt] _.
  eapply good_bind; [exact (proj2 (good_statements fuel))|]. intros body Hb.
  good_step. apply good_ret. exact Hb.
Qed.

Lemma good_parseStruct_fields fuel :
  good (fun _ : list (string * string) => True) (parseStruct_fields next fuel).
Proof.
  induction fuel as [|fuel IH]; [apply good_out_of_fuel|].
  cbn [parseStruct_fields].
  eapply good_bind; [apply good_current|]. intros tok _.
  destruct (_ || _); [now apply good_ret|].
  do 2 good_step.
  eapply good_bind; [apply good_parseTypeName|]. intros typeName _.
  eapply good_bind; [exact IH|]. intros fs _. now apply good_ret.
Qed.

Lemma good_parseStruct fuel : good clean_stmt (parseStruct next fuel).
Proof.
  unfold parseStruct. do 2 good_step.
  eapply good_bind; [apply good_parseStruct_fields|]. intros fields _.
  good_step. apply good_ret. exact eq_refl.
Qed.

Lemma good_parseModule fuel : good clean_stmts (parseModule next fuel).
Proof.
  induction fuel as [|fuel IH]; [apply good_out_of_fuel|].
  rewrite ModuleFacts.parseModule_eq.
  eapply good_bind; [apply good_current|]. intros tok _.
  assert (Hstmt : good clean_stmt (parseStatement next fuel))
    by exact (proj1 (good_statements fuel)).
  assert (Hrest : forall m, good clean_stmt m ->
            good clean_stmts
              (bind m (fun s => bind (parseModule next fuel)
                                  (fun ss => ret (s :: ss))))).
  { intros m Hm. eapply good_bind; [exact Hm|]. intros s Hs.
    eapply good_bind; [exact IH|]. intros ss Hss. apply good_ret.
    unfold clean_stmts, clean_stmt in *. simpl. now rewrite Hs, Hss. }
  destruct (Token.kind tok); try (apply Hrest; exact Hstmt).
  - apply good_ret. exact eq_refl.
  - apply Hrest, good_parseFunction.
  - apply Hrest, good_parseStruct.
  - apply Hrest, good_parseExtern.
Qed.

End WithLexer.
End NoArrayFacts.

(** X16.  No source text makes the parser build an array node.  The lexer
    never hands out an opening bracket, so the branches of [parsePrimary]
    that read an array literal or an index are never entered: every module
    that [parseModule] returns is free of [ArrayLiteralExpr] and of
    [IndexExpr]. *)
Theorem parser_builds_no_array_node (src : string) (stmts : list Stmt) :
  parse_module src = Parser.Ok stmts ->
  forallb ParserSpec.no_arrays_stmt stmts = true.
Proof.
  unfold parse_module, Parser.new. intros H.
  pose proof (NoArrayFacts.good_parseModule Lexer.nextToken
                (fun l => proj1 (KindFacts.nextToken_kind l))
                (parse_fuel src)
                (Parser.mk (snd (Lexer.nextToken (Lexer.new (Lexer.str src))))
                           (fst (Lexer.nextToken (Lexer.new (Lexer.str src))))))
    as Hgood.
  cbn [Parser.currentToken] in Hgood.
  specialize (Hgood (proj1 (KindFacts.nextToken_kind _))).
  destruct (Lexer.nextToken (Lexer.new (Lexer.str src))) as [tok l'].
  cbn [fst snd] in Hgood.
  destruct (Parser.parseModule Lexer.nextToken (parse_fuel src)
              (Parser.mk l' tok)) as [[stmts' p']| |]; try discriminate.
  injection H as <-. exact (proj2 Hgood).
Qed.

Lemma parser_builds_no_array_node_witness :
  forallb ParserSpec.no_arrays_stmt
    [VarDeclStmt "p" "" (Some (CallExpr None "make" []));
     ExprStmt (BinaryExpr None "="
                 (MemberAccessExpr None (VariableExpr None "p") "x")
                 (LiteralExpr None "1" false false false))] = true.
Proof.
  apply (parser_builds_no_array_node "var p = make() p.x = 1").
  vm_compute. reflexivity.
Defined.

Module EndFacts.
Import Parser.

Section WithLexer.
Context {L : Type} (next : L -> Token.t * L).

Lemma parseModule_ends fuel :
  forall (p p' : t (L := L)) stmts,
    parseModule next fuel p = Ok (stmts, p') ->
    Token.kind (currentToken p') = TokenKind.EndOfFile.
Proof.
  induction fuel as [|fuel IH]; intros p p' stmts H; [discriminate|].
  rewrite ModuleFacts.parseModule_eq in H. unfold bind at 1 in H.
  cbn [current] in H.
  assert (Hstep : forall m : M Stmt,
            bind m (fun s => bind (parseModule next fuel)
                               (fun ss => ret (s :: ss))) p = Ok (stmts, p') ->
            Token.kind (currentToken p') = TokenKind.EndOfFile).
  { intros m Hm. unfold bind, ret in Hm.
    destruct (m p) as [[s p1]| |]; try discriminate.
    destruct (parseModule next fuel p1) as [[ss p2]| |] eqn:E; try discriminate.
    injection Hm as _ <-. exact (IH _ _ _ E). }
  destruct (Token.kind (currentToken p)) eqn:K;
    try (exact (Hstep _ H)).
  injection H as _ <-. exact K.
Qed.

End WithLexer.
End EndFacts.

(** X17.  A module is accepted only when it is read to the end: whenever
    [parseModule] returns, the parser's current token is EndOfFile.  No
    input is accepted with something left over behind its statements. *)
Theorem module_read_to_end {L : Type} (next : L -> Token.t * L) (fuel : nat)
    (p p' : Parser.t (L := L)) (stmts : list Stmt) :
  Parser.parseModule next fuel p = Parser.Ok (stmts, p') ->
  Token.kind (Parser.currentToken p') = TokenKind.EndOfFile.
Proof. apply EndFacts.parseModule_ends. Qed.

Lemma module_read_to_end_witness :
  exists stmts p',
    Parser.parseModule Lexer.nextToken 12
      (Parser.new Lexer.nextToken (Lexer.new (Lexer.str "f(1) return"))) =
      Parser.Ok (stmts, p') /\
    Token.kind (Parser.currentToken p') = TokenKind.EndOfFile.
Proof.
  destruct (Parser.parseModule Lexer.nextToken 12
              (Parser.new Lexer.nextToken (Lexer.new (Lexer.str "f(1) return"))))
    as [[stmts p']| |] eqn:E; try (vm_compute in E; discriminate).
  exists stmts, p'. split; [reflexivity|].
  exact (module_read_to_end _ _ _ _ _ E).
Defined.

(* ===================================================================== *)
(** * Semantic analysis: further properties *)
(* ===================================================================== *)

Module TypeNameSema.

Lemma substring_app_skip (s t : string) n :
  substring (String.length s) n (s +:+ t) = substring 0 n t.
Proof. induction s as [|c s IH]; simpl; [reflexivity|exact IH]. Qed.

Lemma substring_app_prefix (s t : string) :
  substring 0 (String.length s) (s +:+ t) = s.
Proof.
  induction s as [|c s IH]; simpl.
  - destruct t; reflexivity.
  - now rewrite IH.
Qed.

Lemma length_append (s t : string) :
  String.length (s +:+ t) = (String.length s + String.length t)%nat.
Proof. induction s as [|c s IH]; simpl; [reflexivity|now rewrite IH]. Qed.

(** A name followed by a pair of brackets is an array type name, and its
    element type name is the name. *)
Lemma array_element_name_brackets (name : string) :
  name <> EmptyString ->
  array_element_name (name +:+ "[]") = Some name.
Proof.
  intros Hne. unfold array_element_name. rewrite length_append.
  change (String.length "[]") with 2%nat.
  replace (String.length name + 2 - 2)%nat with (String.length name) by lia.
  rewrite substring_app_skip, substring_app_prefix.
  assert (H : (2 <? String.length name + 2)%nat = true).
  { apply Nat.ltb_lt. destruct name; [contradiction|simpl; lia]. }
  rewrite H. reflexivity.
Qed.

Lemma resolveType_rec_fuel defs :
  forall f1 f2 name,
    (String.length name <= f1)%nat -> (String.length name <= f2)%nat ->
    Sema.resolveType_rec f1 defs name = Sema.resolveType_rec f2 defs name.
Proof.
  induction f1 as [|f1 IH]; intros f2 name H1 H2.
  - destruct name; [|simpl in H1; lia]. destruct f2; reflexivity.
  - destruct f2 as [|f2].
    { destruct name; [|simpl in H2; lia]. reflexivity. }
    simpl. repeat (destruct (bool_decide _); [reflexivity|]).
    destruct (defs !! name) as [[sname sfields]|]; [reflexivity|].
    destruct (array_element_name name) as [elem|] eqn:E; [|reflexivity].
    pose proof (SemaFacts.array_element_name_shorter _ _ E).
    rewrite (IH f2 elem) by lia. reflexivity.
Qed.

Lemma getType_rec_fuel structs :
  forall f1 f2 name,
    (String.length name <= f1)%nat -> (String.length name <= f2)%nat ->
    CodeGen.getType_rec f1 structs name = CodeGen.getType_rec f2 structs name.
Proof.
  induction f1 as [|f1 IH]; intros f2 name H1 H2.
  - destruct name; [|simpl in H1; lia]. destruct f2; reflexivity.
  - destruct f2 as [|f2].
    { destruct name; [|simpl in H2; lia]. reflexivity. }
    simpl. repeat (destruct (bool_decide _); [reflexivity|]).
    destruct (array_element_name name) as [elem|] eqn:E; [|reflexivity].
    pose proof (SemaFacts.array_element_name_shorter _ _ E).
    rewrite (IH f2 elem) by lia. reflexivity.
Qed.

Lemma brackets_not_primitive (name p : string) :
  name <> EmptyString -> array_element_name p = None -> name +:+ "[]" <> p.
Proof.
  intros Hne Hp E. rewrite <- E, array_element_name_brackets in Hp by assumption.
  discriminate.
Qed.

End TypeNameSema.

(** X18.  [TypeChecker::resolveType] on an array type name: a nonempty name
    followed by a pair of brackets resolves to the array type whose element
    type is what the name itself resolves to, unless the whole bracketed
    name is registered as a struct, which is looked up first.  A pair of
    brackets alone is no array type: it resolves to void, like every
    unknown name. *)
Theorem resolveType_array (tc : Sema.t) (name : string) :
  name <> EmptyString ->
  Sema.structDefs tc !! (name +:+ "[]") = None ->
  Sema.resolveType tc (name +:+ "[]") =
    Some (ArrayType (Sema.resolveType tc name)) /\
  (Sema.structDefs tc !! "[]" = None ->
   Sema.resolveType tc "[]" = Some VoidType).
Proof.
  intros Hne Hdef. split; [|intros H0; unfold Sema.resolveType; simpl;
                            now rewrite H0].
  unfold Sema.resolveType. rewrite TypeNameSema.length_append. simpl.
  replace (String.length name + 2)%nat with (S (String.length name + 1)) by lia.
  cbn [Sema.resolveType_rec].
  rewrite !bool_decide_eq_false_2
    by (apply TypeNameSema.brackets_not_primitive; [assumption|reflexivity]).
  rewrite Hdef, (TypeNameSema.array_element_name_brackets name Hne).
  rewrite (TypeNameSema.resolveType_rec_fuel _ _ (String.length name)) by lia.
  reflexivity.
Qed.

Lemma resolveType_array_witness :
  Sema.resolveType Sema.new "int[][]" =
    Some (ArrayType (Some (ArrayType (Some IntType)))).
Proof.
  destruct (resolveType_array Sema.new "int[]") as [H _];
    [discriminate|reflexivity|].
  exact H.
Defined.

Module MemberFacts.

Lemma getMemberIndex_from_spec (fields : list (string * option Ty)) (m : string) :
  forall start,
    (getMemberIndex_from start fields m = -1 /\
     getMemberType fields m = None /\
     Forall (fun f => f.1 <> m) fields /\ 0 <= start \/
     exists n ty,
       getMemberIndex_from start fields m = start + Z.of_nat n /\
       fields !! n = Some (m, ty) /\ getMemberType fields m = ty /\
       Forall (fun f => f.1 <> m) (take n fields)) \/ start < 0.
Proof.
  induction fields as [|[fname fty] fields IH]; intros start.
  - destruct (Z.lt_ge_cases start 0); [right; assumption|].
    left. left. simpl. repeat split; [constructor|lia].
  - destruct (Z.lt_ge_cases start 0) as [Hs|Hs]; [right; assumption|].
    left. simpl. destruct (bool_decide_reflect (fname = m)) as [->|Hne].
    + right. exists 0%nat, fty. simpl.
      repeat split; [lia|constructor].
    + destruct (IH (start + 1)) as [[(Hi & Ht & Hall & _)|(n & ty & Hi & Hn & Ht & Hall)]|Hneg];
        [| |lia].
      * left. repeat split; [assumption..|constructor; assumption|lia].
      * right. exists (S n), ty. simpl.
        repeat split; [lia|assumption..|constructor; assumption].
Qed.

End MemberFacts.

(** X19.  [StructType::getMemberIndex] and [StructType::getMemberType]
    agree.  The index is -1 exactly when no field has the name, and then
    the member type is null.  Otherwise the index is the position of the
    first field of that name, inside the field list, and the member type is
    the type of that very field. *)
Theorem member_lookup (fields : list (string * option Ty)) (m : string) :
  (getMemberIndex fields m = -1 <-> Forall (fun f => f.1 <> m) fields) /\
  (getMemberIndex fields m = -1 -> getMemberType fields m = None) /\
  (getMemberIndex fields m <> -1 ->
   exists n ty,
     getMemberIndex fields m = Z.of_nat n /\ (n < length fields)%nat /\
     fields !! n = Some (m, ty) /\ getMemberType fields m = ty /\
     Forall (fun f => f.1 <> m) (take n fields)).
Proof.
  unfold getMemberIndex.
  destruct (MemberFacts.getMemberIndex_from_spec fields m 0)
    as [[(Hi & Ht & Hall & _)|(n & ty & Hi & Hn & Ht & Hall)]|Hneg]; [| |lia].
  - rewrite Hi. split; [tauto|]. split; [auto|]. intros H. now contradiction H.
  - rewrite Hi. simpl. split; [|split].
    + split; [lia|]. intros Hno. exfalso.
      apply list_elem_of_lookup_2 in Hn. rewrite Forall_forall in Hno.
      exact (Hno _ Hn eq_refl).
    + lia.
    + intros _. exists n, ty. repeat split; try assumption.
      now apply lookup_lt_Some in Hn.
Qed.

Module EraseFacts.
Import Sema SemaSpec SemaMoreSpec.

Lemma visitAll_erase tbl es :
  Forall (fun e => forall e', visitExpr tbl e = Some e' -> erase e' = erase e) es ->
  forall es', visitAll tbl es = Some es' -> map erase es' = map erase es.
Proof.
  induction 1 as [|e es He _ IH]; intros es' H; simpl in H.
  - now injection H as <-.
  - destruct (visitExpr tbl e) as [e1|] eqn:E1; [|discriminate].
    destruct (visitAll tbl es) as [es1|] eqn:E2; [|discriminate].
    injection H as <-. simpl. now rewrite (He _ eq_refl), (IH _ eq_refl).
Qed.

(** The checker writes type slots and nothing else. *)
Lemma visitExpr_erase tbl :
  forall e e', visitExpr tbl e = Some e' -> erase e' = erase e.
Proof.
  apply (SemaFacts.Expr_ind_nested
           (fun e => forall e', visitExpr tbl e = Some e' -> erase e' = erase e)).
  - intros t v f b s e' H. simpl in H. now injection H as <-.
  - intros t name e' H. simpl in H.
    destruct (tbl !! name); now injection H as <-.
  - intros t op l r IHl IHr e' H. rewrite SemaFacts.visitExpr_Binary in H.
    destruct (bool_decide (op = "=")).
    + destruct (isValidLHS l).
      * destruct (visitExpr tbl l) as [l'|]; [|discriminate].
        destruct (visitExpr tbl r) as [r'|]; [|discriminate].
        injection H as <-. simpl. now rewrite (IHl _ eq_refl), (IHr _ eq_refl).
      * now injection H as <-.
    + destruct (visitExpr tbl l) as [l'|]; [|discriminate].
      destruct (visitExpr tbl r) as [r'|]; [|discriminate].
      assert (E : erase (BinaryExpr None op l' r') = erase (BinaryExpr t op l r))
        by (simpl; now rewrite (IHl _ eq_refl), (IHr _ eq_refl)).
      destruct (kind_is_Int (Expr_type l')) as [[|]|]; [| |discriminate].
      * destruct (kind_is_Int (Expr_type r')) as [[|]|]; [| |discriminate];
          injection H as <-; exact E.
      * injection H as <-. exact E.
  - intros t callee args IH e' H. rewrite SemaFacts.visitExpr_Call in H.
    destruct (visitAll tbl args) as [args'|] eqn:E; [|discriminate].
    pose proof (visitAll_erase tbl args IH _ E) as Hargs.
    destruct (tbl !! callee) as [[[]|]|]; injection H as <-; simpl;
      now rewrite Hargs.
  - intros t object member IH e' H. simpl in H.
    destruct (visitExpr tbl object) as [object'|]; [|discriminate].
    pose proof (IH _ eq_refl) as Ho.
    destruct (Expr_type object') as [[]|];
      try (injection H as <-; simpl; now rewrite Ho).
    destruct (getMemberType _ _); injection H as <-; simpl; now rewrite Ho.
  - intros t object index IHo IHi e' H. simpl in H.
    destruct (visitExpr tbl object) as [object'|]; [|discriminate].
    destruct (visitExpr tbl index) as [index'|]; [|discriminate].
    pose proof (IHo _ eq_refl) as Ho. pose proof (IHi _ eq_refl) as Hi.
    destruct (Expr_type object') as [[]|];
      try (injection H as <-; simpl; now rewrite Ho, Hi).
    destruct (kind_is_Int _); [|discriminate].
    injection H as <-. simpl. now rewrite Ho, Hi.
  - intros t elements IH e' H. rewrite SemaFacts.visitExpr_ArrayLiteral in H.
    destruct elements as [|e0 es]; [now injection H as <-|].
    destruct (visitAll tbl (e0 :: es)) as [elements'|] eqn:E; [|discriminate].
    injection H as <-. simpl erase at 1.
    now rewrite (visitAll_erase tbl _ IH _ E).
Qed.

Definition stmt_erase (s : Stmt) : Prop :=
  forall tc s' tc', visitStmt tc s = Some (s', tc') -> erase_stmt s' = erase_stmt s.

Lemma visitBlock_erase ss :
  Forall stmt_erase ss ->
  forall tc ss' tc', visitBlock tc ss = Some (ss', tc') ->
    map erase_stmt ss' = map erase_stmt ss.
Proof.
  induction 1 as [|s ss Hs _ IH]; intros tc ss' tc' H; simpl in H.
  - now injection H as <- _.
  - destruct (visitStmt tc s) as [[s1 tc1]|] eqn:E1; [|discriminate].
    destruct (visitBlock tc1 ss) as [[ss1 tc2]|] eqn:E2; [|discriminate].
    injection H as <- _. simpl. now rewrite (Hs _ _ _ E1), (IH _ _ _ E2).
Qed.

Lemma visitStmt_erase : forall s, stmt_erase s.
Proof.
  apply SemaFacts.Stmt_ind_nested; unfold stmt_erase.
  - intros e tc s' tc' H. simpl in H.
    destruct (visitExpr _ e) as [e'|] eqn:E; [|discriminate].
    injection H as <- _. simpl. now rewrite (visitExpr_erase _ _ _ E).
  - intros [e|] tc s' tc' H; simpl in H.
    + destruct (visitExpr _ e) as [e'|] eqn:E; [|discriminate].
      injection H as <- _. simpl. now rewrite (visitExpr_erase _ _ _ E).
    + now injection H as <- _.
  - intros ss IH tc s' tc' H. rewrite SemaFacts.visitStmt_Block in H.
    destruct (visitBlock tc ss) as [[ss' tc1]|] eqn:E; [|discriminate].
    injection H as <- _. simpl. now rewrite (visitBlock_erase ss IH _ _ _ E).
  - intros c thenB elseB IHt IHe tc s' tc' H.
    rewrite SemaFacts.visitStmt_If in H.
    destruct (visitExpr _ c) as [c'|] eqn:Ec; [|discriminate].
    destruct (visitBlock tc thenB) as [[thenB' tc1]|] eqn:Et; [|discriminate].
    pose proof (visitExpr_erase _ _ _ Ec) as Hc.
    pose proof (visitBlock_erase thenB IHt _ _ _ Et) as Ht.
    destruct elseB as [elseBlock|].
    + destruct (visitBlock tc1 elseBlock) as [[elseBlock' tc2]|] eqn:Ee;
        [|discriminate].
      injection H as <- _. simpl.
      now rewrite Hc, Ht, (visitBlock_erase elseBlock IHe _ _ _ Ee).
    + injection H as <- _. simpl. now rewrite Hc, Ht.
  - intros c body IH tc s' tc' H. rewrite SemaFacts.visitStmt_While in H.
    destruct (visitExpr _ c) as [c'|] eqn:Ec; [|discriminate].
    destruct (visitBlock tc body) as [[body' tc1]|] eqn:Eb; [|discriminate].
    injection H as <- _. simpl.
    now rewrite (visitExpr_erase _ _ _ Ec), (visitBlock_erase body IH _ _ _ Eb).
  - intros n ty [init|] tc s' tc' H; simpl in H.
    + destruct (visitExpr _ init) as [init'|] eqn:E; [|discriminate].
      injection H as <- _. simpl. now rewrite (visitExpr_erase _ _ _ E).
    + now injection H as <- _.
  - intros n params ret [block|] IH tc s' tc' H.
    + rewrite SemaFacts.visitStmt_Function in H.
      destruct (visitBlock _ block) as [[block' tc4]|] eqn:Eb; [|discriminate].
      injection H as <- _. simpl.
      now rewrite (visitBlock_erase block IH _ _ _ Eb).
    + simpl in H. now injection H as <- _.
  - intros n fields tc s' tc' H. simpl in H. now injection H as <- _.
Qed.

End EraseFacts.

(** X20.  The checker changes nothing but type slots: the module that
    [TypeChecker::check] leaves behind is the module it was given, node for
    node, with operators, names, literals and nesting untouched.  Put the
    other way round, emptying every type slot of the result gives the
    input with its type slots emptied. *)
Theorem check_only_annotates (stmts stmts' : list Stmt) (tc : Sema.t) :
  Sema.check stmts = Some (stmts', tc) ->
  map SemaMoreSpec.erase_stmt stmts' = map SemaMoreSpec.erase_stmt stmts.
Proof.
  unfold Sema.check. apply EraseFacts.visitBlock_erase.
  apply Forall_forall. intros s _. apply EraseFacts.visitStmt_erase.
Qed.

Lemma check_only_annotates_witness :
  exists stmts' tc,
    Sema.check [VarDeclStmt "x" "" (Some (LiteralExpr None "1" false false false));
                ExprStmt (BinaryExpr None "+" (VariableExpr None "x")
                            (VariableExpr None "y"))] = Some (stmts', tc) /\
    map SemaMoreSpec.erase_stmt stmts' =
      [VarDeclStmt "x" "" (Some (LiteralExpr None "1" false false false));
       ExprStmt (BinaryExpr None "+" (VariableExpr None "x")
                   (VariableExpr None "y"))].
Proof.
  eexists _, _. split; [vm_compute; reflexivity|].
  refine (check_only_annotates
            [VarDeclStmt "x" "" (Some (LiteralExpr None "1" false false false));
             ExprStmt (BinaryExpr None "+" (VariableExpr None "x")
                         (VariableExpr None "y"))] _ _ _).
  vm_compute. reflexivity.
Defined.

Module IdempotentFacts.
Import Sema SemaSpec.

Definition fixed (tbl : gmap string (option Ty)) (e : Expr) : Prop :=
  forall e', visitExpr tbl e = Some e' -> visitExpr tbl e' = Some e'.

Lemma visitAll_fixed tbl es :
  Forall (fixed tbl) es ->
  forall es', visitAll tbl es = Some es' -> visitAll tbl es' = Some es'.
Proof.
  induction 1 as [|e es He _ IH]; intros es' H; simpl in H.
  - now injection H as <-.
  - destruct (visitExpr tbl e) as [e1|] eqn:E1; [|discriminate].
    destruct (visitAll tbl es) as [es1|] eqn:E2; [|discriminate].
    injection H as <-. simpl. now rewrite (He _ E1), (IH _ eq_refl).
Qed.

Lemma visitExpr_isValidLHS tbl e e' :
  visitExpr tbl e = Some e' -> isValidLHS e' = isValidLHS e.
Proof.
  intros H. pose proof (EraseFacts.visitExpr_erase tbl e e' H) as E.
  destruct e, e'; simpl in E; try discriminate; reflexivity.
Qed.

Lemma visitExpr_fixed tbl : forall e, fixed tbl e.
Proof.
  apply SemaFacts.Expr_ind_nested; unfold fixed.
  - intros t v f b s e' H. simpl in H. now injection H as <-.
  - intros t name e' H. simpl in H.
    destruct (tbl !! name) eqn:E; injection H as <-; simpl; now rewrite E.
  - intros t op l r IHl IHr e' H. rewrite SemaFacts.visitExpr_Binary in H.
    destruct (bool_decide (op = "=")) eqn:Eop.
    + destruct (isValidLHS l) eqn:Ev.
      * destruct (visitExpr tbl l) as [l'|] eqn:El; [|discriminate].
        destruct (visitExpr tbl r) as [r'|] eqn:Er; [|discriminate].
        injection H as <-. rewrite SemaFacts.visitExpr_Binary, Eop.
        rewrite (visitExpr_isValidLHS _ _ _ El), Ev.
        now rewrite (IHl _ eq_refl), (IHr _ eq_refl).
      * injection H as <-. rewrite SemaFacts.visitExpr_Binary, Eop, Ev.
        reflexivity.
    + destruct (visitExpr tbl l) as [l'|] eqn:El; [|discriminate].
      destruct (visitExpr tbl r) as [r'|] eqn:Er; [|discriminate].
      assert (Hagain : forall ty,
                visitExpr tbl (BinaryExpr ty op l' r') =
                match kind_is_Int (Expr_type l') with
                | Some true =>
                    match kind_is_Int (Expr_type r') with
                    | Some true => Some (BinaryExpr (Some IntType) op l' r')
                    | Some false => Some (BinaryExpr (Expr_type l') op l' r')
                    | None => None
                    end
                | Some false => Some (BinaryExpr (Expr_type l') op l' r')
                | None => None
                end).
      { intros ty. rewrite SemaFacts.visitExpr_Binary, Eop.
        now rewrite (IHl _ eq_refl), (IHr _ eq_refl). }
      destruct (kind_is_Int (Expr_type l')) as [[|]|] eqn:Kl; [| |discriminate].
      * destruct (kind_is_Int (Expr_type r')) as [[|]|] eqn:Kr;
          [| |discriminate]; injection H as <-; rewrite Hagain;
          reflexivity.
      * injection H as <-. rewrite Hagain. reflexivity.
  - intros t callee args IH e' H. rewrite SemaFacts.visitExpr_Call in H.
    destruct (visitAll tbl args) as [args'|] eqn:E; [|discriminate].
    pose proof (visitAll_fixed tbl args IH _ E) as Hargs.
    destruct (tbl !! callee) as [[[]|]|] eqn:Ec; injection H as <-;
      rewrite SemaFacts.visitExpr_Call, Hargs, Ec; reflexivity.
  - intros t object member IH e' H. simpl in H.
    destruct (visitExpr tbl object) as [object'|] eqn:Eo; [|discriminate].
    pose proof (IH _ eq_refl) as Ho.
    destruct (Expr_type object') as [[]|] eqn:Et;
      try (injection H as <-; simpl; rewrite Ho, Et; reflexivity).
    destruct (getMemberType _ _) eqn:Em; injection H as <-; simpl;
      rewrite Ho, Et, Em; reflexivity.
  - intros t object index IHo IHi e' H. simpl in H.
    destruct (visitExpr tbl object) as [object'|] eqn:Eo; [|discriminate].
    destruct (visitExpr tbl index) as [index'|] eqn:Ei; [|discriminate].
    pose proof (IHo _ eq_refl) as Ho. pose proof (IHi _ eq_refl) as Hi.
    destruct (Expr_type object') as [[]|] eqn:Et;
      try (injection H as <-; simpl; rewrite Ho, Hi, Et; reflexivity).
    destruct (kind_is_Int _) eqn:Ek; [|discriminate].
    injection H as <-. simpl. rewrite Ho, Hi, Et, Ek. reflexivity.
  - intros t elements IH e' H. rewrite SemaFacts.visitExpr_ArrayLiteral in H.
    destruct elements as [|e0 es]; [now injection H as <-|].
    destruct (visitAll tbl (e0 :: es)) as [elements'|] eqn:E; [|discriminate].
    injection H as <-. rewrite SemaFacts.visitExpr_ArrayLiteral.
    rewrite (visitAll_fixed tbl _ IH _ E).
    destruct elements' as [|e1 es1]; [|reflexivity].
    simpl in E. destruct (visitExpr tbl e0); [|discriminate].
    destruct (visitAll tbl es); discriminate.
Qed.

End IdempotentFacts.

(** X21.  Checking is idempotent on expressions: an expression the checker
    has annotated is a fixed point of the checker under the same symbol
    table.  The types written depend on the symbol table and on the shape
    of the expression, and on no type slot filled before. *)
Theorem check_expression_idempotent (symbols : gmap string (option Ty))
    (e e' : Expr) :
  Sema.visitExpr symbols e = Some e' ->
  Sema.visitExpr symbols e' = Some e'.
Proof. apply IdempotentFacts.visitExpr_fixed. Qed.

Lemma check_expression_idempotent_witness :
  let symbols : gmap string (option Ty) := {[ "n" := Some IntType ]} in
  let e' := BinaryExpr (Some IntType) "+" (VariableExpr (Some IntType) "n")
              (LiteralExpr (Some IntType) "1" false false false) in
  Sema.visitExpr symbols e' = Some e'.
Proof.
  cbv zeta.
  apply (check_expression_idempotent _
           (BinaryExpr None "+" (VariableExpr None "n")
              (LiteralExpr None "1" false false false))).
  vm_compute. reflexivity.
Defined.

Module ScopeFacts.
Import Sema SemaSpec.

(** [grows tc tc']: every name known to [tc] is known to [tc']. *)
Definition grows (tc tc' : Sema.t) : Prop :=
  (forall x, is_Some (symbolTable tc !! x) -> is_Some (symbolTable tc' !! x)) /\
  (forall n, is_Some (structDefs tc !! n) -> is_Some (structDefs tc' !! n)).

Lemma grows_refl tc : grows tc tc.
Proof. split; auto. Qed.

Lemma grows_trans tc1 tc2 tc3 : grows tc1 tc2 -> grows tc2 tc3 -> grows tc1 tc3.
Proof. intros [H1 H2] [H3 H4]. split; auto. Qed.

Lemma grows_insert tc x ty :
  grows tc (set_symbolTable tc (<[x := ty]> (symbolTable tc))).
Proof.
  split; [|auto]. intros y Hy. simpl.
  destruct (decide (x = y)) as [->|Hne].
  - rewrite lookup_insert_eq. eauto.
  - now rewrite lookup_insert_ne.
Qed.

Definition stmt_grows (s : Stmt) : Prop :=
  forall tc s' tc', visitStmt tc s = Some (s', tc') -> grows tc tc'.

Lemma visitBlock_grows ss :
  Forall stmt_grows ss ->
  forall tc ss' tc', visitBlock tc ss = Some (ss', tc') -> grows tc tc'.
Proof.
  induction 1 as [|s ss Hs _ IH]; intros tc ss' tc' H; simpl in H.
  - injection H as _ <-. apply grows_refl.
  - destruct (visitStmt tc s) as [[s1 tc1]|] eqn:E1; [|discriminate].
    destruct (visitBlock tc1 ss) as [[ss1 tc2]|] eqn:E2; [|discriminate].
    injection H as _ <-. eapply grows_trans; [exact (Hs _ _ _ E1)|].
    exact (IH _ _ _ E2).
Qed.

Lemma visitStmt_grows : forall s, stmt_grows s.
Proof.
  apply SemaFacts.Stmt_ind_nested; unfold stmt_grows.
  - intros e tc s' tc' H. simpl in H.
    destruct (visitExpr _ e); [|discriminate]. injection H as _ <-.
    apply grows_refl.
  - intros [e|] tc s' tc' H; simpl in H.
    + destruct (visitExpr _ e); [|discriminate]. injection H as _ <-.
      apply grows_refl.
    + injection H as _ <-. apply grows_refl.
  - intros ss IH tc s' tc' H. rewrite SemaFacts.visitStmt_Block in H.
    destruct (visitBlock tc ss) as [[ss' tc1]|] eqn:E; [|discriminate].
    injection H as _ <-. exact (visitBlock_grows ss IH _ _ _ E).
  - intros c thenB elseB IHt IHe tc s' tc' H.
    rewrite SemaFacts.visitStmt_If in H.
    destruct (visitExpr _ c); [|discriminate].
    destruct (visitBlock tc thenB) as [[thenB' tc1]|] eqn:Et; [|discriminate].
    pose proof (visitBlock_grows thenB IHt _ _ _ Et) as Ht.
    destruct elseB as [elseBlock|].
    + destruct (visitBlock tc1 elseBlock) as [[elseBlock' tc2]|] eqn:Ee;
        [|discriminate].
      injection H as _ <-. eapply grows_trans; [exact Ht|].
      exact (visitBlock_grows elseBlock IHe _ _ _ Ee).
    + injection H as _ <-. exact Ht.
  - intros c body IH tc s' tc' H. rewrite SemaFacts.visitStmt_While in H.
    destruct (visitExpr _ c); [|discriminate].
    destruct (visitBlock tc body) as [[body' tc1]|] eqn:Eb; [|discriminate].
    injection H as _ <-. exact (visitBlock_grows body IH _ _ _ Eb).
  - intros n ty [init|] tc s' tc' H; simpl in H.
    + destruct (visitExpr _ init); [|discriminate]. injection H as _ <-.
      apply grows_insert.
    + injection H as _ <-. apply grows_insert.
  - intros n params ret [block|] IH tc s' tc' H.
    + rewrite SemaFacts.visitStmt_Function in H.
      destruct (visitBlock _ block) as [[block' tc4]|] eqn:Eb; [|discriminate].
      injection H as _ <-.
      destruct (visitBlock_grows block IH _ _ _ Eb) as [_ Hs].
      split; [|exact Hs]. intros x Hx. simpl.
      destruct (decide (n = x)) as [->|Hne].
      * rewrite lookup_insert_eq. eauto.
      * now rewrite lookup_insert_ne.
    + simpl in H. injection H as _ <-. apply grows_insert.
  - intros n fields tc s' tc' H. simpl in H. injection H as _ <-.
    split; [auto|]. intros x Hx. simpl.
    destruct (decide (n = x)) as [->|Hne].
    + rewrite lookup_insert_eq. eauto.
    + now rewrite lookup_insert_ne.
Qed.

(** The table in which a function body is checked. *)
Lemma bind_params_lookup (g : string * string -> option Ty) params :
  forall tbl,
    (forall x, x ∉ params.*1 ->
       bind_params tbl params (map g params) !! x = tbl !! x) /\
    (forall i p, params !! i = Some p ->
       (forall j q, (i < j)%nat -> params !! j = Some q -> q.1 <> p.1) ->
       bind_params tbl params (map g params) !! p.1 = Some (g p)).
Proof.
  induction params as [|p0 ps IH]; intros tbl.
  - split; [reflexivity|]. intros i p H. discriminate.
  - destruct (IH (<[p0.1 := g p0]> tbl)) as [IHa IHb]. split.
    + intros x Hx. simpl. rewrite IHa.
      * apply lookup_insert_ne. intros E. apply Hx. rewrite <- E. left.
      * intros Hin. apply Hx. now right.
    + intros [|i] p Hp Hlast; simpl in Hp.
      * injection Hp as <-. simpl. rewrite IHa; [apply lookup_insert_eq|].
        intros Hin. apply list_elem_of_fmap in Hin as (q & Hq1 & Hq2).
        apply list_elem_of_lookup in Hq2 as [j Hj].
        exact (Hlast (S j) q ltac:(lia) Hj (eq_sym Hq1)).
      * simpl. apply (IHb i p Hp). intros j q Hij Hq.
        exact (Hlast (S j) q ltac:(lia) Hq).
Qed.

End ScopeFacts.

(** X22.  The checker never forgets a name.  Whatever statement it visits,
    every name that the symbol table or the struct registry held before is
    still held afterwards: blocks, branches and loops open no scope, and a
    function restores the table of before its body. *)
Theorem declared_names_stay (s s' : Stmt) (tc tc' : Sema.t) :
  Sema.visitStmt tc s = Some (s', tc') ->
  (forall x, is_Some (Sema.symbolTable tc !! x) ->
     is_Some (Sema.symbolTable tc' !! x)) /\
  (forall n, is_Some (Sema.structDefs tc !! n) ->
     is_Some (Sema.structDefs tc' !! n)).
Proof. apply ScopeFacts.visitStmt_grows. Qed.

Lemma declared_names_stay_witness :
  let tc := Sema.set_symbolTable Sema.new {[ "g" := Some IntType ]} in
  let s := FunctionStmt "f" [("g", "float")] "void"
             (Some [VarDeclStmt "x" "int" None]) in
  exists s' tc',
    Sema.visitStmt tc s = Some (s', tc') /\
    is_Some (Sema.symbolTable tc' !! "g").
Proof.
  cbv zeta.
  destruct (Sema.visitStmt
              (Sema.set_symbolTable Sema.new {[ "g" := Some IntType ]})
              (FunctionStmt "f" [("g", "float")] "void"
                 (Some [VarDeclStmt "x" "int" None])))
    as [[s' tc']|] eqn:E; [|vm_compute in E; discriminate].
  exists s', tc'. split; [reflexivity|].
  refine (proj1 (declared_names_stay _ _ _ _ E) "g" _).
  vm_compute. eauto.
Defined.

(** X23.  The scope of a function body.  [visit(FunctionStmt&)] checks the
    body in a table where the function's own name is bound to its type --
    so the body may call the function -- unless a parameter has the same
    name; where every parameter name is bound to the resolved type of the
    last parameter of that name; and where every other name is bound as
    outside. *)
Theorem function_body_scope (tc : Sema.t) (name : string)
    (params : list (string * string)) (returnTypeName : string)
    (block : list Stmt) :
  let body := SemaSpec.body_state tc name params returnTypeName in
  Sema.visitStmt tc (FunctionStmt name params returnTypeName (Some block)) =
    match Sema.visitBlock body block with
    | Some (block', tc4) =>
        Some (FunctionStmt name params returnTypeName (Some block'),
              Sema.set_symbolTable tc4
                (<[name := SemaSpec.function_type tc params returnTypeName]>
                   (Sema.symbolTable tc)))
    | None => None
    end /\
  (name ∉ params.*1 ->
   Sema.symbolTable body !! name =
     Some (SemaSpec.function_type tc params returnTypeName)) /\
  (forall i p, params !! i = Some p ->
     (forall j q, (i < j)%nat -> params !! j = Some q -> q.1 <> p.1) ->
     Sema.symbolTable body !! p.1 = Some (Sema.resolveType tc p.2)) /\
  (forall x, x <> name -> x ∉ params.*1 ->
     Sema.symbolTable body !! x = Sema.symbolTable tc !! x).
Proof.
  cbv zeta. split; [apply SemaFacts.visitStmt_Function|].
  unfold SemaSpec.body_state. cbn [Sema.symbolTable].
  destruct (ScopeFacts.bind_params_lookup
              (fun p => Sema.resolveType tc p.2) params
              (<[name := SemaSpec.function_type tc params returnTypeName]>
                 (Sema.symbolTable tc))) as [Ha Hb].
  split; [|split].
  - intros Hn. rewrite Ha by exact Hn. apply lookup_insert_eq.
  - exact Hb.
  - intros x Hx Hp. rewrite Ha by exact Hp. now apply lookup_insert_ne.
Qed.

(* ===================================================================== *)
(** * Code generation: further properties *)
(* ===================================================================== *)

Module LiteralFacts.
Import CodeGenSpec.

Lemma stoll_digits_all s :
  all_digits s = true ->
  forall acc, stoll_digits s (Some acc) = Some (decimal_from acc s).
Proof.
  induction s as [|c s IH]; intros H acc; simpl in *; [reflexivity|].
  apply andb_true_iff in H as [Hc Hs]. rewrite Hc. simpl. now apply IH.
Qed.

Lemma decimal_from_nonneg s : forall acc, 0 <= acc -> 0 <= decimal_from acc s.
Proof.
  induction s as [|c s IH]; intros acc H; simpl; [exact H|].
  apply IH. unfold digit_value. lia.
Qed.

Lemma digit_not_space c : CType.isdigit c = true -> CType.isspace c = false.
Proof. LexerFacts.ascii_cases c. Qed.

(** [std::stoll] on a numeral: its value if it fits, the exception if
    not. *)
Lemma stoll_numeral s :
  s <> EmptyString -> all_digits s = true ->
  stoll s = if decimal s <? 2 ^ 63 then Some (decimal s) else None.
Proof.
  intros Hne Hall. destruct s as [|c s]; [contradiction|].
  simpl in Hall. apply andb_true_iff in Hall as [Hc Hs].
  unfold stoll. cbn [stoll_skip]. rewrite (digit_not_space c Hc).
  assert (Hd : stoll_digits (String c s) None = Some (decimal (String c s))).
  { cbn [stoll_digits]. rewrite Hc. cbn [default].
    now rewrite (stoll_digits_all s Hs). }
  assert (Hpos : 0 <= decimal (String c s))
    by (apply decimal_from_nonneg; lia).
  revert Hd Hpos. generalize (decimal (String c s)). intros v Hd Hpos.
  destruct c as [[|] [|] [|] [|] [|] [|] [|] [|]];
    try discriminate Hc; lazy beta iota zeta; rewrite Hd;
    (destruct (Z.leb_spec (- 2 ^ 63) v); [reflexivity|lia]).
Qed.

End LiteralFacts.

(** X24.  Integer literals in the generator.  [visit(LiteralExpr&)] reads
    the text of an integer literal with [std::stoll]: a numeral below 2^63
    becomes the 64-bit constant of its value; a numeral from 2^63 on makes
    [std::stoll] throw, and code generation ends there. *)
Theorem integer_literal_range (stod_ok : string -> bool) (value : string)
    (cg : CodeGen.t) :
  value <> EmptyString ->
  CodeGenSpec.all_digits value = true ->
  CodeGen.visitLiteral stod_ok value false false false cg =
    if CodeGenSpec.decimal value <? 2 ^ 63
    then Some (tt, CodeGen.set_lastValue cg
                     (Some (IR.ConstantInt 64 (CodeGenSpec.decimal value))))
    else None.
Proof.
  intros Hne Hall. unfold CodeGen.visitLiteral.
  rewrite (LiteralFacts.stoll_numeral value Hne Hall).
  destruct (_ <? _); reflexivity.
Qed.

Lemma integer_literal_range_witness :
  CodeGen.visitLiteral any_float "9223372036854775808" false false false
    CodeGen.new = None /\
  CodeGen.visitLiteral any_float "9223372036854775807" false false false
    CodeGen.new =
    Some (tt, CodeGen.set_lastValue CodeGen.new
                (Some (IR.ConstantInt 64 9223372036854775807))).
Proof.
  split.
  - rewrite (integer_literal_range any_float "9223372036854775808" CodeGen.new);
      [reflexivity|discriminate|reflexivity].
  - rewrite (integer_literal_range any_float "9223372036854775807" CodeGen.new);
      [reflexivity|discriminate|reflexivity].
Defined.

(** X25.  [CodeGen::getType] on an array type name: a nonempty name
    followed by a pair of brackets is lowered to a pointer to what the
    name itself is lowered to.  The struct registry is not asked first, so
    this holds whatever structs are registered. *)
Theorem getType_array (cg : CodeGen.t) (name : string) :
  name <> EmptyString ->
  exists ty,
    CodeGen.getType name cg = Some (ty, cg) /\
    CodeGen.getType (name +:+ "[]") cg = Some (IR.PointerTy ty, cg).
Proof.
  intros Hne. eexists. split; [reflexivity|].
  unfold CodeGen.getType, CodeGen.gets. f_equal. f_equal.
  rewrite TypeNameSema.length_append. simpl.
  replace (String.length name + 2)%nat with (S (String.length name + 1)) by lia.
  cbn [CodeGen.getType_rec].
  rewrite !bool_decide_eq_false_2
    by (apply TypeNameSema.brackets_not_primitive; [assumption|reflexivity]).
  rewrite (TypeNameSema.array_element_name_brackets name Hne).
  rewrite (TypeNameSema.getType_rec_fuel _ _ (String.length name)) by lia.
  reflexivity.
Qed.

Lemma getType_array_witness :
  CodeGen.getType "float[]" CodeGen.new =
    Some (IR.PointerTy IR.DoubleTy, CodeGen.new).
Proof.
  destruct (getType_array CodeGen.new "float") as (ty & H1 & H2);
    [discriminate|].
  injection H1 as <-. exact H2.
Defined.

(** X26.  A type name that is neither built in, nor an array type name, nor
    a declared struct is no error in either stage, and the two stages
    differ on it: the checker resolves it to void, the generator lowers it
    to a 64-bit integer. *)
Theorem unknown_type_name (tc : Sema.t) (cg : CodeGen.t) (name : string) :
  ~ In name CodeGenSpec.primitives ->
  array_element_name name = None ->
  Sema.structDefs tc !! name = None ->
  CodeGen.structTypes cg !! name = None ->
  Sema.resolveType tc name = Some VoidType /\
  CodeGen.getType name cg = Some (IR.IntegerTy 64, cg).
Proof.
  intros Hprim Harr Hs Hc.
  assert (Hne : forall p, In p CodeGenSpec.primitives ->
            bool_decide (name = p) = false).
  { intros p Hp. apply bool_decide_eq_false_2. intros ->. contradiction. }
  unfold CodeGenSpec.primitives in Hne.
  unfold Sema.resolveType, CodeGen.getType, CodeGen.gets.
  destruct (String.length name); simpl;
    rewrite !Hne, ?Hs, ?Harr, ?Hc by (simpl; tauto); split; reflexivity.
Qed.

Lemma unknown_type_name_witness :
  Sema.resolveType Sema.new "Point" = Some VoidType /\
  CodeGen.getType "Point" CodeGen.new = Some (IR.IntegerTy 64, CodeGen.new).
Proof.
  apply unknown_type_name; [|reflexivity..].
  simpl. intros [H|[H|[H|[H|[H|[]]]]]]; discriminate H.
Defined.

Module BuilderFacts.
Import CodeGen.

Section Visitors.
Context (stod_ok : string -> bool) (getTypeAllocSize : IR.Ty -> Z).

(** Creating the prototype touches the module and nothing else. *)
Lemma beginFunction_frame name params rt cg proto cg1 :
  beginFunction name params rt cg = Some (proto, cg1) ->
  insertBlock cg1 = insertBlock cg /\ namedValues cg1 = namedValues cg /\
  blocks cg1 = blocks cg.
Proof.
  intros H. cbv [beginFunction bind gets getType ret] in H.
  destruct (CodeGenFacts.createFunction_spec name
              (getType_rec (String.length rt) (structTypes cg) rt)
              (map (fun p => getType_rec (String.length p.2) (structTypes cg) p.2)
                   params) cg) as (name' & counter & Hc & _).
  rewrite Hc in H. injection H as _ <-. repeat split.
Qed.

Lemma lowerFunctionBody_saved name params rt block cg func retTy oldBB oldNV cg1 :
  lowerFunctionBody stod_ok getTypeAllocSize name params rt block cg =
    Some ((func, retTy, oldBB, oldNV), cg1) ->
  oldBB = insertBlock cg /\ oldNV = namedValues cg.
Proof.
  unfold lowerFunctionBody. unfold bind at 1.
  destruct (beginFunction name params rt cg) as [[proto cgA]|] eqn:Eb;
    [|discriminate].
  destruct (beginFunction_frame _ _ _ _ _ _ Eb) as (Hi & Hn & _).
  unfold bind at 1. unfold gets at 1. unfold bind at 1. unfold gets at 1.
  unfold bind at 1.
  destruct (enterBody proto.1 params cgA) as [[[] cgB]|]; [|discriminate].
  unfold bind at 1.
  destruct (visitBlock stod_ok getTypeAllocSize block cgB) as [[[] cgC]|];
    [|discriminate].
  unfold ret. intros H. injection H as _ _ <- <- _. auto.
Qed.

Lemma finishFunction_restores rt retTy oldBB oldNV cg1 cg' :
  finishFunction rt retTy oldBB oldNV cg1 = Some (tt, cg') ->
  namedValues cg' = oldNV /\
  (forall b, oldBB = Some b -> insertBlock cg' = Some b).
Proof.
  unfold finishFunction, bind, unterminated, bind, currentBlock, ret, emit,
    modify, setInsertPoint, modify.
  destruct (insertBlock cg1) as [b1|]; [|discriminate].
  destruct (blocks cg1 !! b1) as [bb|]; [|discriminate].
  destruct (bool_decide _); destruct oldBB as [b|]; intros H;
    injection H as <-; (split; [reflexivity|]); intros b' Hb';
    try discriminate; now injection Hb' as <-.
Qed.

End Visitors.

Lemma find_function_app fs fs' name :
  forall k i, find_function fs name k = Some i ->
    find_function (fs ++ fs') name k = Some i /\
    (k <= i < k + length fs)%nat.
Proof.
  induction fs as [|f fs IH]; intros k i H; simpl in *; [discriminate|].
  destruct (bool_decide _).
  - injection H as <-. split; [reflexivity|lia].
  - destruct (IH _ _ H) as [H1 H2]. split; [exact H1|lia].
Qed.

Lemma fieldIndices_from_spec fields (m : string) :
  forall start acc,
    (Forall (fun f : string * string => f.1 <> m) fields /\
     fieldIndices_from start fields acc !! m = acc !! m) \/
    (exists n ty, fields !! n = Some (m, ty) /\
       Forall (fun f : string * string => f.1 <> m) (drop (S n) fields) /\
       fieldIndices_from start fields acc !! m = Some (start + Z.of_nat n)).
Proof.
  induction fields as [|[fname fty] fields IH]; intros start acc.
  - left. split; [constructor|reflexivity].
  - simpl. destruct (IH (start + 1) (<[fname := start]> acc))
      as [[Hall Hl]|(n & ty & Hn & Hall & Hl)].
    + destruct (decide (fname = m)) as [->|Hne].
      * right. exists 0%nat, fty. simpl. rewrite Hl, lookup_insert_eq.
        split; [reflexivity|]. split; [exact Hall|]. f_equal. lia.
      * left. split; [constructor; assumption|].
        rewrite Hl. now apply lookup_insert_ne.
    + right. exists (S n), ty. simpl. split; [exact Hn|]. split; [exact Hall|].
      rewrite Hl. f_equal. lia.
Qed.

End BuilderFacts.

(** X27.  [visit(FunctionStmt&)] leaves the builder as it found it.  After
    the visit [namedValues] holds what it held before, so the parameters
    and local variables of the function are gone and the variables of the
    enclosing code are back; and when there was an insertion point, it is
    the insertion point again.  This holds for an extern declaration as
    well as for a function with a body. *)
Theorem function_restores_builder (stod_ok : string -> bool)
    (getTypeAllocSize : IR.Ty -> Z) (name : string)
    (params : list (string * string)) (returnTypeName : string)
    (body : option (list Stmt)) (cg cg' : CodeGen.t) :
  CodeGen.visitStmt stod_ok getTypeAllocSize
    (FunctionStmt name params returnTypeName body) cg = Some (tt, cg') ->
  CodeGen.namedValues cg' = CodeGen.namedValues cg /\
  (CodeGen.insertBlock cg <> None ->
   CodeGen.insertBlock cg' = CodeGen.insertBlock cg).
Proof.
  destruct body as [block|].
  - rewrite CodeGenFacts.visitStmt_Function_split.
    destruct (CodeGen.lowerFunctionBody _ _ _ _ _ _ cg)
      as [[[[[func retTy] oldBB] oldNV] cg1]|] eqn:E; [|discriminate].
    destruct (BuilderFacts.lowerFunctionBody_saved _ _ _ _ _ _ _ _ _ _ _ _ E)
      as [-> ->].
    intros H. destruct (BuilderFacts.finishFunction_restores _ _ _ _ _ _ H)
      as [Hn Hb].
    split; [exact Hn|]. intros Hsome.
    destruct (CodeGen.insertBlock cg) as [b|]; [|contradiction].
    now apply Hb.
  - rewrite CodeGenFacts.visitStmt_unfold. unfold CodeGen.bind at 1.
    destruct (CodeGen.beginFunction name params returnTypeName cg)
      as [[[func retTy] cg1]|] eqn:E; [|discriminate].
    destruct (BuilderFacts.beginFunction_frame _ _ _ _ _ _ E) as (Hi & Hn & _).
    unfold CodeGen.ret. intros H. injection H as <-. auto.
Qed.

Lemma function_restores_builder_witness :
  exists cg cg',
    CodeGen.namedValues cg !! "x" =
      Some (Some (IR.mkAlloca 0 (IR.IntegerTy 64))) /\
    CodeGen.visitStmt any_float eight_bytes
      (FunctionStmt "f" [("x", "float")] "void" (Some [])) cg = Some (tt, cg') /\
    CodeGen.namedValues cg' = CodeGen.namedValues cg /\
    CodeGen.insertBlock cg' = Some 0%nat.
Proof.
  destruct (CodeGen.generate any_float eight_bytes
              [VarDeclStmt "x" "int" None] CodeGen.new)
    as [[[] cg]|] eqn:Eg; [|vm_compute in Eg; discriminate].
  destruct (CodeGen.visitStmt any_float eight_bytes
              (FunctionStmt "f" [("x", "float")] "void" (Some [])) cg)
    as [[[] cg']|] eqn:E;
    [|vm_compute in Eg; injection Eg as <-; vm_compute in E; discriminate].
  exists cg, cg'.
  destruct (function_restores_builder _ _ _ _ _ _ _ _ E) as [Hn Hb].
  assert (Hcg : CodeGen.insertBlock cg = Some 0%nat /\
                CodeGen.namedValues cg !! "x" =
                  Some (Some (IR.mkAlloca 0 (IR.IntegerTy 64)))).
  { vm_compute in Eg. injection Eg as <-. split; reflexivity. }
  destruct Hcg as [Hib Hx].
  split; [exact Hx|]. split; [exact E|]. split; [exact Hn|].
  rewrite Hb; [exact Hib|]. rewrite Hib. discriminate.
Defined.

(** X28.  The first declaration of a function name wins.  Once
    [module->getFunction(name)] finds a function, it finds the same
    function after any further statement is lowered: later declarations of
    the name are added to the module under another name, and the functions
    already there are not touched. *)
Theorem first_declaration_wins (stod_ok : string -> bool)
    (getTypeAllocSize : IR.Ty -> Z) (s : Stmt) (cg cg' : CodeGen.t)
    (name : string) (i : nat) :
  CodeGen.getFunction name cg = Some (Some i, cg) ->
  CodeGen.visitStmt stod_ok getTypeAllocSize s cg = Some (tt, cg') ->
  CodeGen.getFunction name cg' = Some (Some i, cg') /\
  CodeGen.functions cg' !! i = CodeGen.functions cg !! i.
Proof.
  unfold CodeGen.getFunction, CodeGen.gets. intros Hget Hvisit.
  destruct (bool_decide (name = EmptyString)); [discriminate|].
  injection Hget as Hfind.
  destruct (CodeGenFacts.preserves_visitStmt stod_ok getTypeAllocSize s
              cg tt cg' Hvisit) as [[fs Hfs] _].
  destruct (BuilderFacts.find_function_app _ fs _ _ _ Hfind) as [Hf Hi].
  rewrite Hfs, Hf. split; [reflexivity|]. apply lookup_app_l. lia.
Qed.

Lemma first_declaration_wins_witness :
  exists cg cg',
    CodeGen.visitStmt any_float eight_bytes
      (FunctionStmt "f" [] "int" None) CodeGen.new = Some (tt, cg) /\
    CodeGen.visitStmt any_float eight_bytes
      (FunctionStmt "f" [("a", "int")] "float" None) cg = Some (tt, cg') /\
    CodeGen.getFunction "f" cg' = Some (Some 0%nat, cg') /\
    map IR.fname (CodeGen.functions cg') = ["f"; "f.1"].
Proof.
  destruct (CodeGen.visitStmt any_float eight_bytes
              (FunctionStmt "f" [] "int" None) CodeGen.new)
    as [[[] cg]|] eqn:E1; [|vm_compute in E1; discriminate].
  destruct (CodeGen.visitStmt any_float eight_bytes
              (FunctionStmt "f" [("a", "int")] "float" None) cg)
    as [[[] cg']|] eqn:E2;
    [|vm_compute in E1; injection E1 as <-; vm_compute in E2; discriminate].
  exists cg, cg'. split; [reflexivity|]. split; [exact E2|].
  assert (Hg : CodeGen.getFunction "f" cg = Some (Some 0%nat, cg))
    by (vm_compute in E1; injection E1 as <-; reflexivity).
  split; [exact (proj1 (first_declaration_wins _ _ _ _ _ _ _ Hg E2))|].
  vm_compute in E1. injection E1 as <-. vm_compute in E2. injection E2 as <-.
  reflexivity.
Defined.

(** X29.  The field indices the generator records for a struct.  Every
    index recorded for a name is the position of the last field of that
    name, so it lies inside the field list, which is as long as the body of
    the IR struct type; and a name has an index exactly when the
    declaration has a field of that name. *)
Theorem field_index_in_bounds (fields : list (string * string)) (m : string) :
  (CodeGen.fieldIndices_from 0 fields ∅ !! m = None <->
   Forall (fun f => f.1 <> m) fields) /\
  (forall idx, CodeGen.fieldIndices_from 0 fields ∅ !! m = Some idx ->
     exists n ty, idx = Z.of_nat n /\ (n < length fields)%nat /\
       fields !! n = Some (m, ty) /\
       Forall (fun f => f.1 <> m) (drop (S n) fields)).
Proof.
  destruct (BuilderFacts.fieldIndices_from_spec fields m 0 ∅)
    as [[Hall Hl]|(n & ty & Hn & Hall & Hl)]; rewrite Hl.
  - rewrite lookup_empty. split; [tauto|]. intros idx H. discriminate.
  - split.
    + split; [discriminate|]. intros Hno. exfalso.
      apply list_elem_of_lookup_2 in Hn. rewrite Forall_forall in Hno.
      exact (Hno _ Hn eq_refl).
    + intros idx H. injection H as <-. exists n, ty.
      split; [lia|]. split; [now apply lookup_lt_Some in Hn|]. auto.
Qed.

Module AssignFacts.
Import CodeGen.

Section Visitors.
Context (stod_ok : string -> bool) (getTypeAllocSize : IR.Ty -> Z).

Lemma lower_Binary t op lhs rhs :
  CodeGen.visitExpr stod_ok getTypeAllocSize (BinaryExpr t op lhs rhs) =
    if bool_decide (op = "=") then
      bind (CodeGen.getLValueAddress stod_ok getTypeAllocSize lhs) (fun lvalAddr =>
        match lvalAddr with
        | None => setLastValue None
        | Some lvalAddr =>
            bind (CodeGen.visitExpr stod_ok getTypeAllocSize rhs) (fun _ =>
            bind (gets lastValue) (fun val =>
              match val with
              | None => ret tt
              | Some val =>
                  bind (createStore val lvalAddr) (fun _ =>
                  setLastValue (Some val))
              end))
        end)
    else
      bind (CodeGen.visitExpr stod_ok getTypeAllocSize lhs) (fun _ =>
      bind (gets lastValue) (fun l =>
      bind (CodeGen.visitExpr stod_ok getTypeAllocSize rhs) (fun _ =>
      bind (gets lastValue) (fun r =>
        match l, r with
        | Some l, Some r => binaryOp op l r
        | _, _ => setLastValue None
        end)))).
Proof. reflexivity. Qed.

Lemma getLValueAddress_non_lvalue e :
  Sema.isValidLHS e = false -> CodeGen.getLValueAddress stod_ok getTypeAllocSize e = ret None.
Proof. destruct e; simpl; intros H; try discriminate H; reflexivity. Qed.

End Visitors.
End AssignFacts.

(** X30.  An assignment to something that is no l-value generates no code.
    When the left operand is neither a variable, nor a member access, nor
    an index -- the test the checker applies too -- [visit(BinaryExpr&)]
    sets [lastValue] to null and returns: the right operand is not
    lowered, no instruction is emitted, and the generator is otherwise as
    before. *)
Theorem assignment_to_non_lvalue (stod_ok : string -> bool)
    (getTypeAllocSize : IR.Ty -> Z) (t : option Ty) (lhs rhs : Expr)
    (cg : CodeGen.t) :
  Sema.isValidLHS lhs = false ->
  CodeGen.visitExpr stod_ok getTypeAllocSize (BinaryExpr t "=" lhs rhs) cg =
    Some (tt, CodeGen.set_lastValue cg None).
Proof.
  intros H. rewrite AssignFacts.lower_Binary.
  rewrite bool_decide_eq_true_2 by reflexivity.
  rewrite (AssignFacts.getLValueAddress_non_lvalue _ _ lhs H). reflexivity.
Qed.

Lemma assignment_to_non_lvalue_witness :
  CodeGen.visitExpr any_float eight_bytes
    (BinaryExpr (Some VoidType) "="
       (LiteralExpr None "1" false false false)
       (CallExpr None "f" [])) CodeGen.new =
    Some (tt, CodeGen.set_lastValue CodeGen.new None).
Proof. apply assignment_to_non_lvalue. reflexivity. Defined.
